(** * Sokoban solver: the game engine and the search agent, verified

    A shallow embedding of [game_engine.py] (tiles, directions, the
    [GameState] class with its level parser and its [move] method) and of
    [ai_agent.py] (the A*, BFS and DFS searches, the greedy fallback and
    the [AIController]), followed by the properties of the specification
    that can be stated over them.

    Conventions.
    - Python integers are [Z]; a position is a pair [(x, y)] of [Z].
    - Python sets of positions are [gset (Z * Z)].
    - The grid is a list of rows; [grid[y][x]] is read with Python's
      indexing rules (negative indices wrap once, anything else out of range
      raises), an exception being the result [None].
    - A method that mutates [self] is a function from the receiver before the
      call to the receiver after it, paired with the returned value.
    - [time.time()] is a reading supplied by the caller. *)

From Stdlib Require Import ZArith Lia Ascii String List.
From stdpp Require Import base option gmap sets list strings sorting.

Local Open Scope Z_scope.

(** ** Tiles and directions *)

Inductive Tile : Set :=
  | EMPTY | WALL | TARGET | CRATE | CRATE_ON_TARGET | PLAYER | PLAYER_ON_TARGET.

Definition Tile_value (t : Tile) : Z :=
  match t with
  | EMPTY => 0 | WALL => 1 | TARGET => 2 | CRATE => 3
  | CRATE_ON_TARGET => 4 | PLAYER => 5 | PLAYER_ON_TARGET => 6
  end.

#[global] Instance Tile_eq_dec : EqDecision Tile.
Proof. solve_decision. Defined.

Inductive Direction : Set := UP | DOWN | LEFT | RIGHT.

Definition Direction_value (d : Direction) : Z * Z :=
  match d with
  | UP => (0, -1)
  | DOWN => (0, 1)
  | LEFT => (-1, 0)
  | RIGHT => (1, 0)
  end.

#[global] Instance Direction_eq_dec : EqDecision Direction.
Proof. solve_decision. Defined.

(** Iteration order of [for direction in Direction]. *)
Definition Direction_members : list Direction := [UP; DOWN; LEFT; RIGHT].

Abbreviation Pos := (Z * Z)%type.
Abbreviation Grid := (list (list Tile)).
Abbreviation Path := (list Direction).

(** The value of [_get_state_hash]: the canonical key of a state. *)
Abbreviation Key := (Pos * gset Pos)%type.

(** ** Python list indexing *)

(** [l[i]]: a non-negative index counts from the front, a negative one from
    the back; [None] stands for [IndexError]. *)
Definition py_index {A} (l : list A) (i : Z) : option A :=
  if bool_decide (0 ≤ i) then l !! Z.to_nat i
  else if bool_decide (- Z.of_nat (length l) ≤ i)
       then l !! Z.to_nat (Z.of_nat (length l) + i)
       else None.

(** [grid[y][x]]. *)
Definition grid_get (g : Grid) (x y : Z) : option Tile :=
  row ← py_index g y; py_index row x.

(** [grid[y][x] = t] for the indices that [enumerate] produces. *)
Definition grid_set (g : Grid) (x y : nat) (t : Tile) : option Grid :=
  row ← g !! y;
  if bool_decide (x < length row)%nat then Some (<[y := <[x := t]> row]> g)
  else None.

(** ** The game state *)

Record GameState : Type := mkGameState {
  player_id : string;
  moves : Z;
  pushes : Z;
  start_time : option Z;
  end_time : option Z;
  is_playing : bool;
  width : Z;
  height : Z;
  grid : Grid;
  player_pos : Pos;
  targets : gset Pos;
  crate_positions : gset Pos;
  initial_state : Key
}.

#[global] Instance GameState_eq_dec : EqDecision GameState.
Proof. solve_decision. Defined.

(** Field assignments. *)
Definition set_player_pos (p : Pos) (s : GameState) : GameState :=
  mkGameState (player_id s) (moves s) (pushes s) (start_time s) (end_time s)
    (is_playing s) (width s) (height s) (grid s) p (targets s)
    (crate_positions s) (initial_state s).

Definition set_grid (g : Grid) (s : GameState) : GameState :=
  mkGameState (player_id s) (moves s) (pushes s) (start_time s) (end_time s)
    (is_playing s) (width s) (height s) g (player_pos s) (targets s)
    (crate_positions s) (initial_state s).

Definition set_targets (ts : gset Pos) (s : GameState) : GameState :=
  mkGameState (player_id s) (moves s) (pushes s) (start_time s) (end_time s)
    (is_playing s) (width s) (height s) (grid s) (player_pos s) ts
    (crate_positions s) (initial_state s).

Definition set_crate_positions (cs : gset Pos) (s : GameState) : GameState :=
  mkGameState (player_id s) (moves s) (pushes s) (start_time s) (end_time s)
    (is_playing s) (width s) (height s) (grid s) (player_pos s) (targets s)
    cs (initial_state s).

Definition set_moves (n : Z) (s : GameState) : GameState :=
  mkGameState (player_id s) n (pushes s) (start_time s) (end_time s)
    (is_playing s) (width s) (height s) (grid s) (player_pos s) (targets s)
    (crate_positions s) (initial_state s).

Definition set_pushes (n : Z) (s : GameState) : GameState :=
  mkGameState (player_id s) (moves s) n (start_time s) (end_time s)
    (is_playing s) (width s) (height s) (grid s) (player_pos s) (targets s)
    (crate_positions s) (initial_state s).

Definition set_end_time (t : option Z) (s : GameState) : GameState :=
  mkGameState (player_id s) (moves s) (pushes s) (start_time s) t
    (is_playing s) (width s) (height s) (grid s) (player_pos s) (targets s)
    (crate_positions s) (initial_state s).

Definition set_initial_state (k : Key) (s : GameState) : GameState :=
  mkGameState (player_id s) (moves s) (pushes s) (start_time s) (end_time s)
    (is_playing s) (width s) (height s) (grid s) (player_pos s) (targets s)
    (crate_positions s) k.

(** Truth value of a timestamp: [None] and [0.0] are false. *)
Definition time_truthy (t : option Z) : bool :=
  match t with
  | Some v => negb (v =? 0)
  | None => false
  end.

Definition _in_bounds (s : GameState) (pos : Pos) : bool :=
  let '(x, y) := pos in
  (0 <=? x) && (x <? width s) && (0 <=? y) && (y <? height s).

Definition is_solved (s : GameState) : bool :=
  bool_decide (crate_positions s = targets s).

Definition get_score (s : GameState) : Z := moves s + pushes s * 2.

Definition _get_state_hash (s : GameState) : Key :=
  (player_pos s, crate_positions s).

(** [clone]: every field is copied, the grid deeply and the two sets by
    [copy()], so the clone shares no mutable object with the original. *)
Definition clone (s : GameState) : GameState :=
  mkGameState (player_id s) (moves s) (pushes s) (start_time s) (end_time s)
    (is_playing s) (width s) (height s) (grid s) (player_pos s) (targets s)
    (crate_positions s) (initial_state s).

Definition start_playing (now : Z) (s : GameState) : GameState :=
  if is_playing s then s
  else mkGameState (player_id s) (moves s) (pushes s) (Some now) (end_time s)
         true (width s) (height s) (grid s) (player_pos s) (targets s)
         (crate_positions s) (initial_state s).

(** The tail of [move], after the checks: the player steps, the move counter
    grows, the end time is stamped when the state has become solved. *)
Definition move_commit (now : Z) (new_pos : Pos) (s : GameState) : GameState :=
  let s := set_player_pos new_pos s in
  let s := set_moves (moves s + 1) s in
  if is_solved s && negb (time_truthy (end_time s))
  then set_end_time (Some now) s
  else s.

(** The checks and assignments of [move] that follow the call of
    [start_playing]. Reading the grid out of range raises inside the [try],
    and the handler returns [False]; nothing has been assigned by then. *)
Definition move_checks (now : Z) (direction : Direction) (s : GameState)
  : bool * GameState :=
  let '(dx, dy) := Direction_value direction in
  let new_x := (player_pos s).1 + dx in
  let new_y := (player_pos s).2 + dy in
  let new_pos := (new_x, new_y) in
  if negb (_in_bounds s new_pos) then (false, s) else
  match grid_get (grid s) new_x new_y with
  | None => (false, s)
  | Some t =>
    if bool_decide (t = WALL) then (false, s) else
    if bool_decide (new_pos ∈ crate_positions s) then
      let crate_new_x := new_x + dx in
      let crate_new_y := new_y + dy in
      let crate_new_pos := (crate_new_x, crate_new_y) in
      if negb (_in_bounds s crate_new_pos) then (false, s) else
      match grid_get (grid s) crate_new_x crate_new_y with
      | None => (false, s)
      | Some t' =>
        if bool_decide (t' = WALL) then (false, s) else
        if bool_decide (crate_new_pos ∈ crate_positions s) then (false, s) else
        let s := set_crate_positions
                   (crate_positions s ∖ {[new_pos]} ∪ {[crate_new_pos]}) s in
        let s := set_pushes (pushes s + 1) s in
        (true, move_commit now new_pos s)
      end
    else (true, move_commit now new_pos s)
  end.

(** [move]: the returned Boolean and the receiver after the call. A call
    reads the clock at most twice, for the start time and for the end time;
    [now] stands for both readings. *)
Definition move (now : Z) (direction : Direction) (s : GameState)
  : bool * GameState :=
  let s := if negb (is_playing s) then start_playing now s else s in
  move_checks now direction s.

(** ** Level parsing and construction *)

Definition tile_map (ch : ascii) : Tile :=
  if bool_decide (ch = "#"%char) then WALL
  else if bool_decide (ch = " "%char) then EMPTY
  else if bool_decide (ch = "."%char) then TARGET
  else if bool_decide (ch = "$"%char) then CRATE
  else if bool_decide (ch = "*"%char) then CRATE_ON_TARGET
  else if bool_decide (ch = "@"%char) then PLAYER
  else if bool_decide (ch = "+"%char) then PLAYER_ON_TARGET
  else EMPTY.

(** The body of the inner loop of [_parse_level] for one character. *)
Definition parse_cell (x y : nat) (ch : ascii) (s : GameState)
  : option GameState :=
  let p : Pos := (Z.of_nat x, Z.of_nat y) in
  match tile_map ch with
  | PLAYER =>
      let s := set_player_pos p s in
      g ← grid_set (grid s) x y EMPTY; Some (set_grid g s)
  | PLAYER_ON_TARGET =>
      let s := set_player_pos p s in
      g ← grid_set (grid s) x y TARGET;
      let s := set_grid g s in
      Some (set_targets (targets s ∪ {[p]}) s)
  | TARGET =>
      g ← grid_set (grid s) x y TARGET;
      let s := set_grid g s in
      Some (set_targets (targets s ∪ {[p]}) s)
  | CRATE =>
      g ← grid_set (grid s) x y EMPTY;
      let s := set_grid g s in
      Some (set_crate_positions (crate_positions s ∪ {[p]}) s)
  | CRATE_ON_TARGET =>
      g ← grid_set (grid s) x y TARGET;
      let s := set_grid g s in
      let s := set_targets (targets s ∪ {[p]}) s in
      Some (set_crate_positions (crate_positions s ∪ {[p]}) s)
  | t =>
      g ← grid_set (grid s) x y t; Some (set_grid g s)
  end.

(** [for x, char in enumerate(row)], from column [x] on. *)
Fixpoint parse_row (y x : nat) (row : list ascii) (s : GameState)
  : option GameState :=
  match row with
  | [] => Some s
  | ch :: rest => s' ← parse_cell x y ch s; parse_row y (S x) rest s'
  end.

(** [for y, row in enumerate(level_data)], from row [y] on. *)
Fixpoint parse_rows (y : nat) (rows : list string) (s : GameState)
  : option GameState :=
  match rows with
  | [] => Some s
  | row :: rest =>
      s' ← parse_row y 0 (list_ascii_of_string row) s;
      parse_rows (S y) rest s'
  end.

Definition _parse_level (level_data : list string) (s : GameState)
  : option GameState :=
  parse_rows 0 level_data s.

(** [max] of a generator: [None] stands for the [ValueError] on an empty
    one. *)
Definition py_max (l : list nat) : option nat :=
  match l with
  | [] => None
  | x :: r => Some (foldl Nat.max x r)
  end.

(** What the constructor can raise. All but [IndexError_parse] are
    [ValueError]s: the first from [max()], the others from the validation. *)
Inductive InitError : Set :=
  | ValueError_empty_level
  | IndexError_parse
  | ValueError_no_targets
  | ValueError_no_crates
  | ValueError_mismatch (crates targets : nat).

(** [GameState.__init__]: the handler prints and re-raises, so the caller
    gets either the exception or the finished object. *)
Definition GameState_init (level_data : list string) (pid : string)
  : InitError + GameState :=
  match py_max (String.length <$> level_data) with
  | None => inl ValueError_empty_level
  | Some w =>
    let h := length level_data in
    let s := mkGameState pid 0 0 None None false (Z.of_nat w) (Z.of_nat h)
               (replicate h (replicate w EMPTY)) (0, 0) ∅ ∅ ((0, 0), ∅) in
    match _parse_level level_data s with
    | None => inl IndexError_parse
    | Some s =>
      let s := set_initial_state (_get_state_hash s) s in
      if bool_decide (size (targets s) = 0%nat) then inl ValueError_no_targets
      else if bool_decide (size (crate_positions s) = 0%nat)
      then inl ValueError_no_crates
      else if bool_decide (size (crate_positions s) ≠ size (targets s))
      then inl (ValueError_mismatch (size (crate_positions s))
                                    (size (targets s)))
      else inr s
    end
  end.

(** ** The heuristic of the A* search *)

(** [min] of a generator of integers; [None] is the [ValueError] on an empty
    one. *)
Definition py_min (l : list Z) : option Z :=
  match l with
  | [] => None
  | x :: r => Some (foldl Z.min x r)
  end.

(** A [for] loop whose body may raise, threading an accumulator. *)
Fixpoint for_each {A B} (body : B → A → option B) (acc : B) (l : list A)
  : option B :=
  match l with
  | [] => Some acc
  | a :: r => acc' ← body acc a; for_each body acc' r
  end.

Definition manhattan (a b : Pos) : Z :=
  Z.abs (a.1 - b.1) + Z.abs (a.2 - b.2).

(** [x == bound or grid[gy][gx].value == 1]: the grid is read only when the
    first test fails. *)
Definition wall_or_edge (s : GameState) (at_edge : bool) (gx gy : Z)
  : option bool :=
  if at_edge then Some true
  else t ← grid_get (grid s) gx gy; Some (bool_decide (Tile_value t = 1)).

Definition _is_corner_deadlock (s : GameState) (pos : Pos) : option bool :=
  let '(x, y) := pos in
  left_wall ← wall_or_edge s (bool_decide (x = 0)) (x - 1) y;
  right_wall ← wall_or_edge s (bool_decide (x = width s - 1)) (x + 1) y;
  top_wall ← wall_or_edge s (bool_decide (y = 0)) x (y - 1);
  bottom_wall ← wall_or_edge s (bool_decide (y = height s - 1)) x (y + 1);
  if (left_wall || right_wall) && (top_wall || bottom_wall)
  then Some true else Some false.

(** [_heuristic]; [None] when an exception escapes it. *)
Definition _heuristic (s : GameState) : option Z :=
  if is_solved s then Some 0 else
  let total := 0 in
  let crates := elements (crate_positions s) in
  let targets_list := elements (targets s) in
  let unsolved := filter (λ c, c ∉ targets s) crates in
  if bool_decide (unsolved = []) then Some 0 else
  total ← for_each (λ (total : Z) (crate : Pos),
             min_dist ← py_min ((λ t, manhattan crate t) <$> targets_list);
             Some (total + min_dist)) total unsolved;
  total ← for_each (λ (total : Z) (crate : Pos),
             dead ← _is_corner_deadlock s crate;
             Some (if dead : bool then total + 500 else total)) total unsolved;
  Some total.

(** ** The three searches *)

(** Which [return] (or the fall out of the loop) ended a search. *)
Inductive SearchExit : Set :=
  | ExitSolved | ExitTimeout | ExitNodeLimit | ExitExhausted.

(** What a search gives back: [sr_value] is the Python return value
    ([None] or a list of directions); [sr_exit] and [sr_expanded] (the keys
    of the states taken from the frontier, latest first) are bookkeeping of
    the model. *)
Record SearchResult : Type := mkSearchResult {
  sr_exit : SearchExit;
  sr_value : option Path;
  sr_expanded : list Key
}.

(** A call returns, lets an exception escape, or (in the model only) finds
    its iteration allowance too small. *)
Inductive Outcome (A : Type) : Type :=
  | Returned (a : A)
  | Raised
  | OutOfFuel.
Arguments Returned {A} a.
Arguments Raised {A}.
Arguments OutOfFuel {A}.

(** [if best_path: return best_path], else [None]. *)
Definition path_or_none (best_path : Path) : option Path :=
  match best_path with
  | [] => None
  | _ => Some best_path
  end.

(** An element of the A* priority queue:
    [(f, counter, state, g, path)]. *)
Record AStarEntry : Type := mkAStarEntry {
  e_f : Z;
  e_counter : Z;
  e_state : GameState;
  e_g : Z;
  e_path : Path
}.

(** Tuple order as far as [PriorityQueue] ever needs it: counters are
    unique, so the comparison is decided by [(f, counter)]. *)
Definition entry_lt (a b : AStarEntry) : bool :=
  (e_f a <? e_f b) || ((e_f a =? e_f b) && (e_counter a <? e_counter b)).

(** The least element of [e :: q] and what is left. *)
Fixpoint pq_extract (e : AStarEntry) (q : list AStarEntry)
  : AStarEntry * list AStarEntry :=
  match q with
  | [] => (e, [])
  | e' :: r =>
      let '(m, rest) := pq_extract e' r in
      if entry_lt m e then (m, e :: rest) else (e, e' :: r)
  end.

Definition pq_get (q : list AStarEntry)
  : option (AStarEntry * list AStarEntry) :=
  match q with
  | [] => None
  | e :: r => Some (pq_extract e r)
  end.

Definition pq_put (e : AStarEntry) (q : list AStarEntry) : list AStarEntry :=
  q ++ [e].

(** Loop variables of [AStarSearch.search]. *)
Record AStarVars : Type := mkAStarVars {
  a_pq : list AStarEntry;
  a_counter : Z;
  a_visited : gset Key;
  a_nodes_explored : Z;
  a_best_state : option GameState;
  a_best_heuristic : option Z;   (* [None] is [float('inf')] *)
  a_best_path : Path;
  a_expanded : list Key
}.

(** Loop variables of [BFSSearch.search]; the queue holds
    [(state, path)]. *)
Record BFSVars : Type := mkBFSVars {
  b_queue : list (GameState * Path);
  b_visited : gset Key;
  b_nodes_explored : Z;
  b_best_path : Path;
  b_expanded : list Key
}.

(** Loop variables of [DFSSearch.search]; the stack holds
    [(state, path, depth)], its top first. *)
Record DFSVars : Type := mkDFSVars {
  d_stack : list (GameState * Path * Z);
  d_visited : gset Key;
  d_nodes_explored : Z;
  d_best_path : Path;
  d_expanded : list Key
}.

Definition astar_max_nodes (difficulty : string) : Z :=
  if bool_decide (difficulty = "easy"%string) then 30000
  else if bool_decide (difficulty = "medium"%string) then 50000
  else 100000.

Definition bfs_max_nodes (difficulty : string) : Z :=
  if bool_decide (difficulty = "easy"%string) then 20000
  else if bool_decide (difficulty = "medium"%string) then 40000
  else 80000.

Definition dfs_max_depth (difficulty : string) : Z :=
  if bool_decide (difficulty = "easy"%string) then 50
  else if bool_decide (difficulty = "medium"%string) then 80
  else 120.

Definition dfs_max_nodes (difficulty : string) : Z :=
  if bool_decide (difficulty = "easy"%string) then 20000
  else if bool_decide (difficulty = "medium"%string) then 40000
  else 80000.

Section Searches.

(** The clock. [elapsed n] is [time.time() - start_time] as read at the top
    of the loop when [n] states have been taken from the frontier;
    [now] is the reading that [move] stores in a cloned state (the searches
    never look at the stored timestamps). *)
Variable elapsed : Z → Z.
Variable now : Z.

(** *** A* *)

(** The body of [for direction in Direction] in the A* loop. *)
Definition astar_try (current_state : GameState) (g_score : Z) (path : Path)
    (acc : list AStarEntry * gset Key * Z) (direction : Direction)
  : option (list AStarEntry * gset Key * Z) :=
  let '(pq, visited, counter) := acc in
  let new_state := clone current_state in
  let '(ok, new_state) := move now direction new_state in
  if ok then
    let state_hash := _get_state_hash new_state in
    if bool_decide (state_hash ∉ visited) then
      let visited := visited ∪ {[state_hash]} in
      let new_g := g_score + 1 in
      new_h ← _heuristic new_state;
      let new_f := new_g + new_h in
      let new_path := path ++ [direction] in
      let counter := counter + 1 in
      Some (pq_put (mkAStarEntry new_f counter new_state new_g new_path) pq,
            visited, counter)
    else Some acc
  else Some acc.

(** The code after the [while] loop. *)
Definition astar_after_loop (exit : SearchExit) (v : AStarVars)
  : Outcome SearchResult :=
  Returned (mkSearchResult exit (path_or_none (a_best_path v)) (a_expanded v)).

(** The [while not pq.empty()] loop; [fuel] bounds the iterations. *)
Fixpoint astar_loop (max_time max_nodes : Z) (fuel : nat) (v : AStarVars)
  : Outcome SearchResult :=
  match fuel with
  | O => OutOfFuel
  | S fuel =>
    match a_pq v with
    | [] => astar_after_loop ExitExhausted v
    | _ :: _ =>
      if bool_decide (max_time < elapsed (a_nodes_explored v)) then
        Returned (mkSearchResult ExitTimeout (path_or_none (a_best_path v))
                    (a_expanded v))
      else
      match pq_get (a_pq v) with
      | None => Raised
      | Some (entry, pq) =>
        let current_state := e_state entry in
        let g_score := e_g entry in
        let path := e_path entry in
        let nodes_explored := a_nodes_explored v + 1 in
        let expanded := _get_state_hash current_state :: a_expanded v in
        match _heuristic current_state with
        | None => Raised
        | Some current_h =>
          let better :=
            match a_best_heuristic v with
            | None => true
            | Some b => current_h <? b
            end && (0 <? Z.of_nat (length path)) in
          let best_heuristic :=
            if better then Some current_h else a_best_heuristic v in
          let best_state :=
            if better then Some current_state else a_best_state v in
          let best_path := if better then path else a_best_path v in
          if is_solved current_state then
            Returned (mkSearchResult ExitSolved (Some path) expanded)
          else
          match for_each (astar_try current_state g_score path)
                  (pq, a_visited v, a_counter v) Direction_members with
          | None => Raised
          | Some (pq, visited, counter) =>
            let v' := mkAStarVars pq counter visited nodes_explored
                        best_state best_heuristic best_path expanded in
            if bool_decide (max_nodes ≤ nodes_explored) then
              match best_path with
              | _ :: _ =>
                  Returned (mkSearchResult ExitNodeLimit (Some best_path)
                              expanded)
              | [] => astar_after_loop ExitNodeLimit v'
              end
            else astar_loop max_time max_nodes fuel v'
          end
        end
      end
    end
  end.

(** [AStarSearch.search] with the node ceiling as a parameter. The loop
    leaves at the latest when [nodes_explored] reaches [max_nodes], so that
    many iterations are allowed. *)
Definition astar_search_with (max_nodes : Z) (initial_state : GameState)
    (max_time : Z) : Outcome SearchResult :=
  match _heuristic initial_state with
  | None => Raised
  | Some initial_h =>
    let counter := 0 in
    let pq := pq_put (mkAStarEntry initial_h counter initial_state 0 []) [] in
    let visited : gset Key := ∅ ∪ {[_get_state_hash initial_state]} in
    astar_loop max_time max_nodes (Z.to_nat max_nodes)
      (mkAStarVars pq counter visited 0 None None [] [])
  end.

Definition AStarSearch_search (initial_state : GameState) (max_time : Z)
    (difficulty : string) : Outcome SearchResult :=
  astar_search_with (astar_max_nodes difficulty) initial_state max_time.

(** *** BFS *)

(** The body of [for direction in Direction] in the BFS loop. *)
Definition bfs_try (current_state : GameState) (path : Path)
    (acc : list (GameState * Path) * gset Key) (direction : Direction)
  : list (GameState * Path) * gset Key :=
  let '(queue, visited) := acc in
  let new_state := clone current_state in
  let '(ok, new_state) := move now direction new_state in
  if ok then
    let state_hash := _get_state_hash new_state in
    if bool_decide (state_hash ∉ visited) then
      let visited := visited ∪ {[state_hash]} in
      let new_path := path ++ [direction] in
      (queue ++ [(new_state, new_path)], visited)
    else acc
  else acc.

Fixpoint bfs_loop (max_time max_nodes : Z) (fuel : nat) (v : BFSVars)
  : Outcome SearchResult :=
  match fuel with
  | O => OutOfFuel
  | S fuel =>
    match b_queue v with
    | [] => Returned (mkSearchResult ExitExhausted None (b_expanded v))
    | (current_state, path) :: queue =>
      if bool_decide (max_time < elapsed (b_nodes_explored v)) then
        Returned (mkSearchResult ExitTimeout (path_or_none (b_best_path v))
                    (b_expanded v))
      else
      let nodes_explored := b_nodes_explored v + 1 in
      let expanded := _get_state_hash current_state :: b_expanded v in
      let best_path :=
        if bool_decide (length (b_best_path v) < length path)%nat
           && bool_decide (length path < 100)%nat
        then path else b_best_path v in
      if is_solved current_state then
        Returned (mkSearchResult ExitSolved (Some path) expanded)
      else
      let '(queue, visited) :=
        foldl (bfs_try current_state path) (queue, b_visited v)
          Direction_members in
      if bool_decide (max_nodes ≤ nodes_explored) then
        match best_path with
        | _ :: _ =>
            Returned (mkSearchResult ExitNodeLimit (Some best_path) expanded)
        | [] => Returned (mkSearchResult ExitNodeLimit None expanded)
        end
      else bfs_loop max_time max_nodes fuel
             (mkBFSVars queue visited nodes_explored best_path expanded)
    end
  end.

Definition bfs_search_with (max_nodes : Z) (initial_state : GameState)
    (max_time : Z) : Outcome SearchResult :=
  let visited : gset Key := ∅ ∪ {[_get_state_hash initial_state]} in
  bfs_loop max_time max_nodes (Z.to_nat max_nodes)
    (mkBFSVars [(initial_state, [])] visited 0 [] []).

Definition BFSSearch_search (initial_state : GameState) (max_time : Z)
    (difficulty : string) : Outcome SearchResult :=
  bfs_search_with (bfs_max_nodes difficulty) initial_state max_time.

(** *** DFS *)

(** The body of [for direction in Direction] in the DFS loop. *)
Definition dfs_try (current_state : GameState) (path : Path) (depth : Z)
    (acc : list (GameState * Path * Z) * gset Key) (direction : Direction)
  : list (GameState * Path * Z) * gset Key :=
  let '(stack, visited) := acc in
  let new_state := clone current_state in
  let '(ok, new_state) := move now direction new_state in
  if ok then
    let state_hash := _get_state_hash new_state in
    if bool_decide (state_hash ∉ visited) then
      let visited := visited ∪ {[state_hash]} in
      let new_path := path ++ [direction] in
      ((new_state, new_path, depth + 1) :: stack, visited)
    else acc
  else acc.

Fixpoint dfs_loop (max_time max_nodes max_depth : Z) (fuel : nat)
    (v : DFSVars) : Outcome SearchResult :=
  match fuel with
  | O => OutOfFuel
  | S fuel =>
    match d_stack v with
    | [] => Returned (mkSearchResult ExitExhausted None (d_expanded v))
    | (current_state, path, depth) :: stack =>
      if bool_decide (max_time < elapsed (d_nodes_explored v)) then
        Returned (mkSearchResult ExitTimeout (path_or_none (d_best_path v))
                    (d_expanded v))
      else
      let nodes_explored := d_nodes_explored v + 1 in
      let expanded := _get_state_hash current_state :: d_expanded v in
      let best_path :=
        if bool_decide (length (d_best_path v) < length path)%nat
           && bool_decide (length path < 100)%nat
        then path else d_best_path v in
      if is_solved current_state then
        Returned (mkSearchResult ExitSolved (Some path) expanded)
      else if bool_decide (max_depth ≤ depth) then
        (* [continue]: the node ceiling is not looked at *)
        dfs_loop max_time max_nodes max_depth fuel
          (mkDFSVars stack (d_visited v) nodes_explored best_path expanded)
      else
      let '(stack, visited) :=
        foldl (dfs_try current_state path depth) (stack, d_visited v)
          Direction_members in
      if bool_decide (max_nodes ≤ nodes_explored) then
        match best_path with
        | _ :: _ =>
            Returned (mkSearchResult ExitNodeLimit (Some best_path) expanded)
        | [] => Returned (mkSearchResult ExitNodeLimit None expanded)
        end
      else dfs_loop max_time max_nodes max_depth fuel
             (mkDFSVars stack visited nodes_explored best_path expanded)
    end
  end.

(** An iteration either pops without pushing (solved, too deep) or counts
    towards the ceiling and pushes at most four entries: [5 * max_nodes + 2]
    iterations are never used up. *)
Definition dfs_search_with (max_nodes max_depth : Z)
    (initial_state : GameState) (max_time : Z) : Outcome SearchResult :=
  let visited : gset Key := ∅ ∪ {[_get_state_hash initial_state]} in
  dfs_loop max_time max_nodes max_depth (Z.to_nat (5 * max_nodes + 2))
    (mkDFSVars [(initial_state, [], 0)] visited 0 [] []).

Definition DFSSearch_search (initial_state : GameState) (max_time : Z)
    (difficulty : string) : Outcome SearchResult :=
  dfs_search_with (dfs_max_nodes difficulty) (dfs_max_depth difficulty)
    initial_state max_time.

End Searches.

(** ** The greedy fallback *)

(** [min(l, key=...)] on a non-empty list: the first element of least key. *)
Definition py_min_by {A} (key : A → Z) (x : A) (l : list A) : A :=
  foldl (λ best c, if key c <? key best then c else best) x l.

(** [SimpleGreedyFallback.get_next_move]. The list comprehension iterates
    over the set [state.crate_positions], and a Python set promises no
    order of iteration: [crate_order] is the order in which the set yields
    its crates at this call. It matters when two crates are equally near,
    [min] keeping the first of them. *)
Definition SimpleGreedyFallback_get_next_move (crate_order : list Pos)
    (now : Z) (state : GameState) : option Direction :=
  let unsolved_crates := filter (λ c, c ∉ targets state) crate_order in
  match unsolved_crates with
  | [] => None
  | c0 :: rest =>
    let player_pos := player_pos state in
    let nearest_crate := py_min_by (λ c, manhattan c player_pos) c0 rest in
    let dx := nearest_crate.1 - player_pos.1 in
    let dy := nearest_crate.2 - player_pos.2 in
    let moves_to_try :=
      if Z.abs dx <? Z.abs dy then
        [if 0 <? dy then DOWN else UP]
        ++ (if 0 <? dx then [RIGHT] else if dx <? 0 then [LEFT] else [])
      else
        [if 0 <? dx then RIGHT else LEFT]
        ++ (if 0 <? dy then [DOWN] else if dy <? 0 then [UP] else []) in
    let moves_to_try :=
      foldl (λ acc d, if bool_decide (d ∈ acc) then acc else acc ++ [d])
        moves_to_try Direction_members in
    List.find (λ direction, (move now direction (clone state)).1) moves_to_try
  end.

(** ** The controller *)

Inductive SearchAlgorithm : Set := AStarSearch | BFSSearch | DFSSearch.

Record AIController : Type := mkAIController {
  algorithm_name : string;
  difficulty : string;
  search_algorithm : SearchAlgorithm;
  solution_path : Path;
  current_step : Z;
  is_thinking : bool;
  using_fallback : bool
}.

(** [str.lower] on the letters A to Z. *)
Definition ascii_lower (c : ascii) : ascii :=
  let n := nat_of_ascii c in
  if (65 <=? n)%nat && (n <=? 90)%nat then ascii_of_nat (n + 32) else c.

Fixpoint str_lower (s : string) : string :=
  match s with
  | EmptyString => EmptyString
  | String c r => String (ascii_lower c) (str_lower r)
  end.

Definition AIController_init (algorithm difficulty : string) : AIController :=
  let algorithm_name := str_lower algorithm in
  let difficulty := str_lower difficulty in
  let '(search_algorithm, algorithm_name) :=
    if bool_decide (algorithm_name = "astar"%string)
    then (AStarSearch, algorithm_name)
    else if bool_decide (algorithm_name = "bfs"%string)
    then (BFSSearch, algorithm_name)
    else if bool_decide (algorithm_name = "dfs"%string)
    then (DFSSearch, algorithm_name)
    else (AStarSearch, "astar"%string) in
  mkAIController algorithm_name difficulty search_algorithm [] 0 false false.

(** [search_times.get(difficulty, 8.0)], in milliseconds. *)
Definition search_times_get (difficulty : string) : Z :=
  if bool_decide (difficulty = "easy"%string) then 5000
  else if bool_decide (difficulty = "medium"%string) then 8000
  else if bool_decide (difficulty = "hard"%string) then 12000
  else 8000.

(** [self.search_algorithm.search(...)]. *)
Definition search_algorithm_search (elapsed : Z → Z) (now : Z)
    (alg : SearchAlgorithm) (game_state : GameState) (max_time : Z)
    (difficulty : string) : Outcome SearchResult :=
  match alg with
  | AStarSearch => AStarSearch_search elapsed now game_state max_time difficulty
  | BFSSearch => BFSSearch_search elapsed now game_state max_time difficulty
  | DFSSearch => DFSSearch_search elapsed now game_state max_time difficulty
  end.

(** [compute_solution]: the returned Boolean and the controller after the
    call. *)
Definition compute_solution (elapsed : Z → Z) (now : Z) (c : AIController)
    (game_state : GameState) : Outcome (bool * AIController) :=
  if is_thinking c then Returned (true, c) else
  let max_time := search_times_get (difficulty c) in
  match search_algorithm_search elapsed now (search_algorithm c) game_state
          max_time (difficulty c) with
  | Raised => Raised
  | OutOfFuel => OutOfFuel
  | Returned r =>
    match sr_value r with
    | Some (m :: p) =>
        Returned (true, mkAIController (algorithm_name c) (difficulty c)
                          (search_algorithm c) (m :: p) 0 false false)
    | _ =>
        Returned (true, mkAIController (algorithm_name c) (difficulty c)
                          (search_algorithm c) [] 0 false true)
    end
  end.

Definition get_next_move (crate_order : list Pos) (now : Z)
    (c : AIController) (game_state : GameState)
  : Outcome (option Direction * AIController) :=
  if using_fallback c then
    Returned (SimpleGreedyFallback_get_next_move crate_order now game_state,
              c)
  else if bool_decide (current_step c < Z.of_nat (length (solution_path c)))
  then
    match py_index (solution_path c) (current_step c) with
    | None => Raised
    | Some m =>
        Returned (Some m,
                  mkAIController (algorithm_name c) (difficulty c)
                    (search_algorithm c) (solution_path c)
                    (current_step c + 1) (is_thinking c) (using_fallback c))
    end
  else Returned (None, c).

Definition has_solution (c : AIController) : bool :=
  if using_fallback c then true
  else bool_decide (0 < length (solution_path c))%nat
       && bool_decide (current_step c < Z.of_nat (length (solution_path c))).

Definition reset (c : AIController) : AIController :=
  mkAIController (algorithm_name c) (difficulty c) (search_algorithm c)
    [] 0 false false.

(** ** Objects and references

    [GameState.move] works on [self] in place, and a state refers to two
    mutable sets and a mutable grid. The store below has the objects behind
    the references, so that "the state passed in" is an address and what a
    call does to it can be said. *)

Module Heap.

Abbreviation loc := nat.

(** A [GameState] object: scalars and tuples inline, the grid and the two
    sets by reference. *)
Record StateObj : Type := mkStateObj {
  o_player_id : string;
  o_moves : Z;
  o_pushes : Z;
  o_start_time : option Z;
  o_end_time : option Z;
  o_is_playing : bool;
  o_width : Z;
  o_height : Z;
  o_grid : loc;
  o_player_pos : Pos;
  o_targets : loc;
  o_crate_positions : loc;
  o_initial_state : Key
}.

Record Store : Type := mkStore {
  st_states : gmap loc StateObj;
  st_grids : gmap loc Grid;
  st_sets : gmap loc (gset Pos)
}.

(** The state an address denotes. *)
Definition read (σ : Store) (l : loc) : option GameState :=
  o ← st_states σ !! l;
  g ← st_grids σ !! o_grid o;
  ts ← st_sets σ !! o_targets o;
  cs ← st_sets σ !! o_crate_positions o;
  Some (mkGameState (o_player_id o) (o_moves o) (o_pushes o) (o_start_time o)
          (o_end_time o) (o_is_playing o) (o_width o) (o_height o) g
          (o_player_pos o) ts cs (o_initial_state o)).

(** [self.move(direction)] on the object at [l]: the attributes are
    assigned in the object, the crate set is updated in the set object the
    state refers to. [None] when [l] is not a state of the store. *)
Definition move_obj (now : Z) (direction : Direction) (l : loc) (σ : Store)
  : option (bool * Store) :=
  o ← st_states σ !! l;
  s ← read σ l;
  let '(ok, s') := move now direction s in
  let o' := mkStateObj (o_player_id o) (moves s') (pushes s') (start_time s')
              (end_time s') (is_playing s') (o_width o) (o_height o)
              (o_grid o) (player_pos s') (o_targets o) (o_crate_positions o)
              (o_initial_state o) in
  Some (ok, mkStore (<[l := o']> (st_states σ)) (st_grids σ)
              (<[o_crate_positions o := crate_positions s']> (st_sets σ))).

(** [self.clone()]: a new state object with a deep copy of the grid and
    copies of both sets, each at an unused address. *)
Definition clone_obj (l : loc) (σ : Store) : option (loc * Store) :=
  o ← st_states σ !! l;
  s ← read σ l;
  let lg := fresh (dom (st_grids σ)) in
  let grids := <[lg := grid s]> (st_grids σ) in
  let lt := fresh (dom (st_sets σ)) in
  let sets := <[lt := targets s]> (st_sets σ) in
  let lc := fresh (dom sets) in
  let sets := <[lc := crate_positions s]> sets in
  let l' := fresh (dom (st_states σ)) in
  let o' := mkStateObj (o_player_id o) (o_moves o) (o_pushes o)
              (o_start_time o) (o_end_time o) (o_is_playing o) (o_width o)
              (o_height o) lg (o_player_pos o) lt lc (o_initial_state o) in
  Some (l', mkStore (<[l' := o']> (st_states σ)) grids sets).

(** The transition as the searches and the fallback make it:
    [new_state = state.clone()] and then [new_state.move(direction)]. *)
Definition apply_move (now : Z) (direction : Direction) (l : loc) (σ : Store)
  : option (bool * loc * Store) :=
  '(l', σ1) ← clone_obj l σ;
  '(ok, σ2) ← move_obj now direction l' σ1;
  Some (ok, l', σ2).

(** A store holding one state. *)
Definition store_of (s : GameState) : Store :=
  mkStore
    {[ 0%nat := mkStateObj (player_id s) (moves s) (pushes s) (start_time s)
                  (end_time s) (is_playing s) (width s) (height s) 0%nat
                  (player_pos s) 0%nat 1%nat (initial_state s) ]}
    {[ 0%nat := grid s ]}
    {[ 0%nat := targets s; 1%nat := crate_positions s ]}.

End Heap.

(** ** Levels used as examples *)

(** The first easy level of the catalogue. *)
Definition level_easy_1 : list string :=
  ["####"; "# .#"; "#  ###"; "#*@  #"; "#  $ #"; "#  ###"; "####"]%string.

(** ** Vocabulary of the specification *)

(** The cell one step from [p] in direction [d]. *)
Definition step_pos (p : Pos) (d : Direction) : Pos :=
  (p.1 + (Direction_value d).1, p.2 + (Direction_value d).2).

(** The grid is the [height] by [width] rectangle the constructor builds. *)
Definition grid_wf (s : GameState) : Prop :=
  0 ≤ width s ∧ 0 ≤ height s ∧
  length (grid s) = Z.to_nat (height s) ∧
  Forall (λ row, length row = Z.to_nat (width s)) (grid s).

Definition out_of_bounds (s : GameState) (p : Pos) : Prop :=
  ¬ (0 ≤ p.1 < width s ∧ 0 ≤ p.2 < height s).

Definition is_wall (s : GameState) (p : Pos) : Prop :=
  grid_get (grid s) p.1 p.2 = Some WALL.

(** A cell nothing can enter: outside the grid, or a wall. *)
Definition blocked (s : GameState) (p : Pos) : Prop :=
  out_of_bounds s p ∨ is_wall s p.

(** When the specification says that a move fails. *)
Definition move_rejected (s : GameState) (d : Direction) : Prop :=
  let target := step_pos (player_pos s) d in
  let beyond := step_pos target d in
  blocked s target ∨
  (target ∈ crate_positions s ∧
   (blocked s beyond ∨ beyond ∈ crate_positions s)).

(** The cell at [p] exists and is not a wall. *)
Definition cell_free (g : Grid) (p : Pos) : Prop :=
  ∃ t, grid_get g p.1 p.2 = Some t ∧ t ≠ WALL.

(** The symbols of a level definition, by what they put on the board. *)
Definition is_crate_char (ch : ascii) : bool :=
  bool_decide (ch = "$"%char) || bool_decide (ch = "*"%char).

Definition is_target_char (ch : ascii) : bool :=
  bool_decide (ch = "."%char) || bool_decide (ch = "*"%char)
  || bool_decide (ch = "+"%char).

Definition is_player_char (ch : ascii) : bool :=
  bool_decide (ch = "@"%char) || bool_decide (ch = "+"%char).

Fixpoint count_row (P : ascii → bool) (row : list ascii) : nat :=
  match row with
  | [] => 0
  | ch :: rest => ((if P ch then 1 else 0) + count_row P rest)%nat
  end.

(** How many symbols of a level definition satisfy [P]. *)
Fixpoint count_level (P : ascii → bool) (level : list string) : nat :=
  match level with
  | [] => 0
  | row :: rest =>
      (count_row P (list_ascii_of_string row) + count_level P rest)%nat
  end.

(** [p] is a cell that the parser has passed when it stands at column [x]
    of row [y]. *)
Definition parsed_before (p : Pos) (x y : nat) : Prop :=
  0 ≤ p.1 ∧ 0 ≤ p.2 ∧
  (p.2 < Z.of_nat y ∨ (p.2 = Z.of_nat y ∧ p.1 < Z.of_nat x)).

(** What holds of the state under construction when the parser stands at
    column [x] of row [y] of a [w] by [h] grid, having met [nc] crate
    symbols, [nt] target symbols and [np] player symbols. *)
Definition parse_inv (w h : nat) (s : GameState) (x y nc nt np : nat)
  : Prop :=
  length (grid s) = h ∧
  Forall (λ row, length row = w) (grid s) ∧
  (∀ p, p ∈ crate_positions s →
        parsed_before p x y ∧ cell_free (grid s) p) ∧
  (∀ p, p ∈ targets s → parsed_before p x y) ∧
  size (crate_positions s) = nc ∧
  size (targets s) = nt ∧
  match np with
  | O => player_pos s = (0, 0)
  | S _ =>
      parsed_before (player_pos s) x y ∧ cell_free (grid s) (player_pos s)
  end.

(** The fields the parser never assigns. *)
Definition same_scalars (s s' : GameState) : Prop :=
  player_id s' = player_id s ∧ moves s' = moves s ∧ pushes s' = pushes s ∧
  start_time s' = start_time s ∧ end_time s' = end_time s ∧
  is_playing s' = is_playing s ∧ width s' = width s ∧
  height s' = height s ∧ initial_state s' = initial_state s.

(** States the program can hold: [reachable s0 s] when [s] is what [s0] has
    become after some calls of [move], accepted or rejected. *)
Inductive reachable (s0 : GameState) : GameState → Prop :=
  | reachable_refl : reachable s0 s0
  | reachable_move (now : Z) (d : Direction) (s : GameState) :
      reachable s0 s → reachable s0 (move now d s).2.

(** Some level definition loads, and [s] is reachable from what it loads
    to. *)
Definition constructed (s : GameState) : Prop :=
  ∃ level pid s0, GameState_init level pid = inr s0 ∧ reachable s0 s.

(** What the constructor and [move] keep true of every state. *)
Definition state_ok (s : GameState) : Prop :=
  grid_wf s ∧
  (∀ c, c ∈ crate_positions s →
        _in_bounds s c = true ∧ cell_free (grid s) c) ∧
  size (crate_positions s) = size (targets s) ∧
  (1 ≤ size (targets s))%nat.

(** A crate at [c] is in a corner: blocked on its left or its right, and
    blocked above or below. *)
Definition corner_deadlocked (s : GameState) (c : Pos) : Prop :=
  (blocked s (c.1 - 1, c.2) ∨ blocked s (c.1 + 1, c.2)) ∧
  (blocked s (c.1, c.2 - 1) ∨ blocked s (c.1, c.2 + 1)).

#[global] Instance blocked_dec (s : GameState) (p : Pos) :
  Decision (blocked s p).
Proof. unfold blocked, out_of_bounds, is_wall. apply _. Defined.

#[global] Instance corner_deadlocked_dec (s : GameState) (c : Pos) :
  Decision (corner_deadlocked s c).
Proof. unfold corner_deadlocked. apply _. Defined.

Definition deadlock_penalty (s : GameState) (c : Pos) : Z :=
  if decide (corner_deadlocked s c) then 500 else 0.

(** [m] is the Manhattan distance from [c] to a nearest target. *)
Definition nearest_target_distance (s : GameState) (c : Pos) (m : Z) : Prop :=
  (∃ t, t ∈ targets s ∧ manhattan c t = m) ∧
  (∀ t, t ∈ targets s → m ≤ manhattan c t).

(** The sum of [f] over a set of positions. *)
Definition sum_over (X : gset Pos) (f : Pos → Z) : Z :=
  foldr (λ c acc, f c + acc) 0 (elements X).

(** Purity of [move] the way the specification words it: the state passed
    in is the same after the call as before. *)
Definition move_pure_as_specified : Prop :=
  ∀ (now : Z) (d : Direction) (l : Heap.loc) (σ σ' : Heap.Store) (ok : bool),
    Heap.move_obj now d l σ = Some (ok, σ') →
    Heap.read σ' l = Heap.read σ l.

(** The canonical key of a queue entry of the A* search. *)
Definition entry_key (e : AStarEntry) : Key := _get_state_hash (e_state e).

(** What the A* loop keeps true of its frontier [pq], of the keys
    [expanded] of the states it has taken from the frontier, and of its
    visited set: the states are well formed, no key is twice in the frontier
    or both in the frontier and expanded, and all of them are visited. *)
Definition astar_inv (pq : list AStarEntry) (expanded : list Key)
    (visited : gset Key) : Prop :=
  Forall (λ e, state_ok (e_state e)) pq ∧
  NoDup ((entry_key <$> pq) ++ expanded) ∧
  (∀ k, k ∈ (entry_key <$> pq) ++ expanded → k ∈ visited).

(** The controllers a caller can hold: a new one, and what the methods
    make of one when they return. *)
Inductive controller_state : AIController → Prop :=
  | controller_new (algorithm difficulty : string) :
      controller_state (AIController_init algorithm difficulty)
  | controller_computed (elapsed : Z → Z) (now : Z) (c c' : AIController)
      (s : GameState) (b : bool) :
      controller_state c →
      compute_solution elapsed now c s = Returned (b, c') →
      controller_state c'
  | controller_moved (crate_order : list Pos) (now : Z)
      (c c' : AIController) (s : GameState) (m : option Direction) :
      controller_state c →
      get_next_move crate_order now c s = Returned (m, c') →
      controller_state c'
  | controller_reset (c : AIController) :
      controller_state c → controller_state (reset c).

(** ** Vocabulary for paths *)

(** The state after the moves of [p], each made with clock reading [now];
    a rejected move leaves position and crates as they were. *)
Definition run_path (now : Z) (p : Path) (s : GameState) : GameState :=
  foldl (λ s d, (move now d s).2) s p.

(** Every move of [p] is accepted when [p] is played from [s]. *)
Fixpoint accepted_path (now : Z) (p : Path) (s : GameState) : Prop :=
  match p with
  | [] => True
  | d :: r => (move now d s).1 = true ∧ accepted_path now r (move now d s).2
  end.

(** Any sequence of calls of [move], each with its own clock reading,
    accepted or not. *)
Definition play_moves (q : list (Z * Direction)) (s : GameState)
  : GameState :=
  foldl (λ s m, (move m.1 m.2 s).2) s q.

(** Two states on the same board. *)
Definition same_board (s s' : GameState) : Prop :=
  grid s = grid s' ∧ width s = width s' ∧ height s = height s' ∧
  targets s = targets s'.

(** All paths of length [n], and all paths of length at most [m]. *)
Fixpoint paths_of_length (n : nat) : list Path :=
  match n with
  | O => [[]]
  | S n => d ← Direction_members; (λ p, d :: p) <$> paths_of_length n
  end.

Fixpoint paths_upto (m : nat) : list Path :=
  match m with
  | O => paths_of_length 0
  | S m => paths_upto m ++ paths_of_length (S m)
  end.

(** ** What the BFS loop keeps true

    [E] lists the states taken from the queue so far, each as its key and
    the path the queue held for it. *)

(** The key of a queue entry of the BFS. *)
Definition bfs_key (e : GameState * Path) : Key := _get_state_hash e.1.

(** Key [k] has been met on a path of at most [m] moves: it is among the
    expanded, or waits in the queue. *)
Definition bfs_reached (E : list (Key * Path)) (Q : list (GameState * Path))
    (k : Key) (m : nat) : Prop :=
  (∃ x, x ∈ E ∧ x.1 = k ∧ (length x.2 ≤ m)%nat) ∨
  (∃ e, e ∈ Q ∧ bfs_key e = k ∧ (length e.2 ≤ m)%nat).

Record bfs_inv (now : Z) (s0 : GameState) (n : nat) (E : list (Key * Path))
    (v : BFSVars) : Prop := mk_bfs_inv {
  (* a queue entry is the state its path leads to, all moves accepted *)
  inv_queue :
    Forall (λ e, e.1 = run_path now e.2 s0 ∧ accepted_path now e.2 s0)
      (b_queue v);
  (* the queue holds paths of length [n], then paths of length [n + 1] *)
  inv_levels :
    ∃ Q1 Q2, b_queue v = Q1 ++ Q2 ∧
             Forall (λ e, length e.2 = n) Q1 ∧
             Forall (λ e, length e.2 = S n) Q2;
  (* an expanded state is not solved, and its path is no longer than [n] *)
  inv_expanded :
    Forall (λ x, x.1 = _get_state_hash (run_path now x.2 s0) ∧
                 (length x.2 ≤ n)%nat ∧ x.1.2 ≠ targets s0) E;
  (* whatever a move makes of an expanded state has been met, one move
     later at most *)
  inv_closed :
    ∀ x t d s, x ∈ E → same_board s s0 → _get_state_hash s = x.1 →
      bfs_reached E (b_queue v) (_get_state_hash (move t d s).2)
        (S (length x.2));
  (* the visited set is the keys expanded or queued, none of them twice *)
  inv_visited :
    ∀ k, k ∈ b_visited v ↔ k ∈ E.*1 ∨ k ∈ bfs_key <$> b_queue v;
  inv_nodup : NoDup (E.*1 ++ (bfs_key <$> b_queue v));
  inv_root : bfs_reached E (b_queue v) (_get_state_hash s0) 0;
  inv_count : b_nodes_explored v = Z.of_nat (length E)
}.

(** The invariants of the data model the way the specification lists them,
    for every state reachable from a constructed one. *)
Definition invariants_as_specified : Prop :=
  ∀ (level : list string) (pid : string) (s0 s : GameState),
    GameState_init level pid = inr s0 → reachable s0 s →
    (∀ c, c ∈ crate_positions s → ¬ is_wall s c) ∧
    ¬ is_wall s (player_pos s) ∧
    size (crate_positions s) = size (targets s).

(** ** Small levels and the states they load to *)

(** A corridor with the player, one crate and one target. *)
Definition level_corridor : list string := ["#####"; "#@$.#"; "#####"]%string.

Definition state_corridor : GameState :=
  mkGameState "ai" 0 0 None None false 5 3
    [[WALL; WALL; WALL; WALL; WALL];
     [WALL; EMPTY; EMPTY; TARGET; WALL];
     [WALL; WALL; WALL; WALL; WALL]]
    (1, 1) {[ (3, 1) ]} {[ (2, 1) ]} ((1, 1), {[ (2, 1) ]}).

(** A level without a player symbol whose first cell is a wall. *)
Definition level_no_player : list string := ["#.$"]%string.

Definition state_no_player : GameState :=
  mkGameState "ai" 0 0 None None false 3 1 [[WALL; TARGET; EMPTY]]
    (0, 0) {[ (1, 0) ]} {[ (2, 0) ]} ((0, 0), {[ (2, 0) ]}).

(** A constructed state that is solved from the start. *)
Definition level_solved : list string := ["#####"; "#@* #"; "#####"]%string.

Definition state_solved : GameState :=
  mkGameState "ai" 0 0 None None false 5 3
    [[WALL; WALL; WALL; WALL; WALL];
     [WALL; EMPTY; TARGET; EMPTY; WALL];
     [WALL; WALL; WALL; WALL; WALL]]
    (1, 1) {[ (2, 1) ]} {[ (2, 1) ]} ((1, 1), {[ (2, 1) ]}).

(** ** More of the engine: the timer, the catalogue, the game *)

(** [get_time_elapsed]: [now] is the reading of [time.time()]. A start time
    that is [None] or [0.0] counts as not started, an end time that is
    [None] or [0.0] as not ended. *)
Definition get_time_elapsed (now : Z) (s : GameState) : Z :=
  match start_time s with
  | None => 0
  | Some st =>
    if negb (time_truthy (Some st)) then 0
    else match end_time s with
         | Some et => if time_truthy (Some et) then et - st else now - st
         | None => now - st
         end
  end.

(** How many moves of a sequence are accepted. *)
Fixpoint accepted_count (q : list (Z * Direction)) (s : GameState) : nat :=
  match q with
  | [] => 0
  | m :: r =>
      ((if (move m.1 m.2 s).1 then 1 else 0)
       + accepted_count r (move m.1 m.2 s).2)%nat
  end.

(** How many moves of a sequence push a crate. *)
Fixpoint push_count (q : list (Z * Direction)) (s : GameState) : nat :=
  match q with
  | [] => 0
  | m :: r =>
      ((if (move m.1 m.2 s).1
           && bool_decide (step_pos (player_pos s) m.2 ∈ crate_positions s)
        then 1 else 0)
       + push_count r (move m.1 m.2 s).2)%nat
  end.

(** ** Vocabulary for the results of the searches *)

#[global] Instance SearchExit_eq_dec : EqDecision SearchExit.
Proof. solve_decision. Defined.

(** A frontier entry is the state its path leads to from [s0], every move
    of the path accepted. *)
Definition path_ok (now : Z) (s0 : GameState) (s : GameState) (p : Path)
  : Prop :=
  s = run_path now p s0 ∧ accepted_path now p s0.

(** What a caller can rely on in the value a search returns: a path is made
    of moves that are accepted one after the other from the initial state;
    through the solved exit it ends in a solved state, through the other
    exits it is not empty; no path is never the answer of the solved
    exit. *)
Definition result_sound (now : Z) (s0 : GameState) (r : SearchResult)
  : Prop :=
  match sr_value r with
  | Some p =>
      accepted_path now p s0 ∧
      (if decide (sr_exit r = ExitSolved)
       then is_solved (run_path now p s0) = true
       else p ≠ [])
  | None => sr_exit r ≠ ExitSolved
  end.

(** ** Vocabulary for the controller *)

(** Calls of [get_next_move] in a row, one for each element of [ss]: the
    order in which the crate set iterates and the game state that the
    caller passes at that call. The answers in order, and the controller
    after the last call. *)
Fixpoint poll_moves (now : Z) (ss : list (list Pos * GameState))
    (c : AIController) : Outcome (list (option Direction) * AIController) :=
  match ss with
  | [] => Returned ([], c)
  | s :: ss =>
    match get_next_move s.1 now c s.2 with
    | Returned (m, c') =>
      match poll_moves now ss c' with
      | Returned (ms, c'') => Returned (m :: ms, c'')
      | Raised => Raised
      | OutOfFuel => OutOfFuel
      end
    | Raised => Raised
    | OutOfFuel => OutOfFuel
    end
  end.

(** ** The catalogue of levels *)

Definition level_easy_2 : list string :=
  ["######"; "#    #"; "# #@ #"; "# $* #"; "# .* #"; "#    #";
   "######"]%string.

Definition level_easy_3 : list string :=
  ["  ####"; "###  ####"; "#     $ #"; "# #  #$ #"; "# . .#@ #";
   "#########"]%string.

Definition level_medium_1 : list string :=
  ["########"; "#      #"; "# .**$@#"; "#      #"; "#####  #";
   "    ####"]%string.

Definition level_medium_2 : list string :=
  [" #######"; " #     #"; " # .$. #"; "## $@$ #"; "#  .$. #"; "#      #";
   "########"]%string.

Definition level_medium_3 : list string :=
  ["###### #####"; "#    ###   #"; "# $$     #@#"; "# $ #...   #";
   "#   ########"; "#####"]%string.

Definition level_hard_1 : list string :=
  ["#######"; "#     #"; "# . . #"; "# $.$ #"; "# .$  #"; "# $.$ #";
   "#  @  #"; "#######"]%string.

Definition level_hard_2 : list string :=
  ["  ######"; "  # ..@#"; "  # $$ #"; "  ## ###"; "   # #"; "   # #";
   "#### #"; "#    ##"; "# #   #"; "#   # #"; "###   #"; "  #####"]%string.

Definition level_hard_3 : list string :=
  ["#####"; "#.  ##"; "#@$$ #"; "##   #"; " ##  #"; "  ##.#";
   "   ###"]%string.

(** The dictionary [LEVELS]. *)
Definition LEVELS : gmap string (list (list string)) :=
  {[ "easy" := [level_easy_1; level_easy_2; level_easy_3];
     "medium" := [level_medium_1; level_medium_2; level_medium_3];
     "hard" := [level_hard_1; level_hard_2; level_hard_3] ]}%string.

(** The [try] block of [get_level]; [None] stands for an exception
    ([KeyError] from the dictionary, [IndexError] from the list). *)
Definition get_level_try (difficulty : string) (level_index : Z)
  : option (list string) :=
  let difficulty := str_lower difficulty in
  let difficulty :=
    if bool_decide (difficulty ∉ dom LEVELS) then "medium"%string
    else difficulty in
  levels ← LEVELS !! difficulty;
  let level_index :=
    if bool_decide (Z.of_nat (length levels) ≤ level_index) then 0
    else level_index in
  py_index levels level_index.

(** [get_level]: the handler answers with [LEVELS["medium"][0]]; [None] is
    an exception that leaves the handler. *)
Definition get_level (difficulty : string) (level_index : Z)
  : option (list string) :=
  match get_level_try difficulty level_index with
  | Some level => Some level
  | None => levels ← LEVELS !! "medium"%string; py_index levels 0
  end.

(** ** The game of two boards *)

Record SokobanGame : Type := mkSokobanGame {
  human_state : GameState;
  ai_state : GameState
}.

(** [SokobanGame.__init__]: the handler prints and re-raises. *)
Definition SokobanGame_init (level_data : list string)
  : InitError + SokobanGame :=
  match GameState_init level_data "human" with
  | inl e => inl e
  | inr h =>
    match GameState_init level_data "ai" with
    | inl e => inl e
    | inr a => inr (mkSokobanGame h a)
    end
  end.

Definition move_human (now : Z) (direction : Direction) (g : SokobanGame)
  : bool * SokobanGame :=
  let '(ok, s) := move now direction (human_state g) in
  (ok, mkSokobanGame s (ai_state g)).

Definition move_ai (now : Z) (direction : Direction) (g : SokobanGame)
  : bool * SokobanGame :=
  let '(ok, s) := move now direction (ai_state g) in
  (ok, mkSokobanGame (human_state g) s).

(** [SokobanGame.reset]: the two attributes are assigned one after the
    other; an exception is re-raised with the game as it is at that
    point. *)
Definition SokobanGame_reset (level_data : list string) (g : SokobanGame)
  : option InitError * SokobanGame :=
  match GameState_init level_data "human" with
  | inl e => (Some e, g)
  | inr h =>
    let g := mkSokobanGame h (ai_state g) in
    match GameState_init level_data "ai" with
    | inl e => (Some e, g)
    | inr a => (None, mkSokobanGame (human_state g) a)
    end
  end.

(** The state [s] with another player id. *)
Definition with_player_id (pid : string) (s : GameState) : GameState :=
  mkGameState pid (moves s) (pushes s) (start_time s) (end_time s)
    (is_playing s) (width s) (height s) (grid s) (player_pos s) (targets s)
    (crate_positions s) (initial_state s).

(** ** Solutions of the catalogue

    One sequence of moves for each level of [LEVELS], to be replayed by
    [move]. *)

Definition solution_easy_1 : Path :=
  [DOWN; LEFT; UP; RIGHT; RIGHT; RIGHT; DOWN; LEFT; UP; LEFT; LEFT; DOWN;
   DOWN; RIGHT; UP; LEFT; UP; RIGHT; UP; UP; LEFT; DOWN; RIGHT; DOWN;
   DOWN; RIGHT; RIGHT; UP; LEFT; DOWN; LEFT; UP; UP].

Definition solution_easy_2 : Path :=
  [RIGHT; DOWN; DOWN; LEFT; RIGHT; UP; UP; LEFT; DOWN; UP; UP; LEFT; LEFT;
   DOWN; DOWN; RIGHT].

Definition solution_easy_3 : Path :=
  [RIGHT; UP; UP; LEFT; LEFT; LEFT; UP; LEFT; DOWN; RIGHT; RIGHT; RIGHT;
   RIGHT; DOWN; DOWN; LEFT; UP; RIGHT; UP; LEFT; LEFT; LEFT; DOWN; DOWN;
   LEFT; LEFT; LEFT; UP; UP; RIGHT; RIGHT; DOWN; RIGHT; DOWN; LEFT; UP;
   UP; UP; RIGHT; DOWN; DOWN].

Definition solution_medium_1 : Path :=
  [UP; LEFT; LEFT; DOWN; LEFT; DOWN; RIGHT; UP; UP; RIGHT; RIGHT; DOWN;
   LEFT; LEFT; RIGHT; RIGHT; DOWN; DOWN; LEFT; UP; RIGHT; UP; LEFT].

Definition solution_medium_2 : Path :=
  [LEFT; UP; RIGHT; LEFT; LEFT; DOWN; RIGHT; DOWN; RIGHT; DOWN; RIGHT;
   RIGHT; UP; UP; LEFT; LEFT; DOWN; LEFT; UP; DOWN; DOWN; LEFT; LEFT; UP;
   RIGHT].

Definition solution_medium_3 : Path :=
  [UP; LEFT; LEFT; DOWN; LEFT; LEFT; LEFT; LEFT; UP; LEFT; DOWN; UP; LEFT;
   LEFT; DOWN; RIGHT; RIGHT; RIGHT; RIGHT; RIGHT; RIGHT; DOWN; RIGHT;
   RIGHT; RIGHT; UP; UP; LEFT; LEFT; DOWN; UP; RIGHT; RIGHT; DOWN; DOWN;
   LEFT; LEFT; LEFT; LEFT; UP; LEFT; LEFT; LEFT; LEFT; LEFT; DOWN; DOWN;
   RIGHT; UP; LEFT; UP; RIGHT; RIGHT; RIGHT; RIGHT; RIGHT; RIGHT; DOWN;
   RIGHT; RIGHT; RIGHT; UP; UP; LEFT; LEFT; DOWN; UP; RIGHT; RIGHT; DOWN;
   DOWN; LEFT; LEFT; LEFT; UP; LEFT; LEFT; LEFT; LEFT; LEFT; DOWN; DOWN;
   RIGHT; UP; LEFT; UP; RIGHT; RIGHT; RIGHT; RIGHT; RIGHT; DOWN; RIGHT;
   RIGHT; RIGHT; UP; UP; LEFT; LEFT; DOWN; UP; RIGHT; RIGHT; DOWN; DOWN;
   LEFT; LEFT].

Definition solution_hard_1 : Path :=
  [UP; UP; LEFT; UP; DOWN; RIGHT; RIGHT; UP; DOWN; RIGHT; DOWN; LEFT;
   DOWN; LEFT; LEFT; UP].

Definition solution_hard_2 : Path :=
  [LEFT; LEFT; DOWN; DOWN; DOWN; DOWN; DOWN; DOWN; LEFT; DOWN; DOWN; DOWN;
   RIGHT; RIGHT; UP; UP; LEFT; UP; UP; UP; UP; UP; UP; UP; RIGHT; RIGHT;
   DOWN; LEFT; UP; LEFT; DOWN; DOWN; DOWN; DOWN; DOWN; DOWN; LEFT; LEFT;
   LEFT; DOWN; DOWN; RIGHT; RIGHT; UP; DOWN; LEFT; LEFT; UP; UP; RIGHT;
   RIGHT; DOWN; DOWN; DOWN; RIGHT; RIGHT; UP; UP; LEFT; UP; UP; UP; UP;
   UP; UP; LEFT; UP; RIGHT; DOWN; DOWN; DOWN; DOWN; DOWN; DOWN; DOWN;
   RIGHT; DOWN; DOWN; LEFT; LEFT; UP; UP; DOWN; LEFT; LEFT; UP; UP; RIGHT;
   RIGHT; DOWN; RIGHT; UP; UP; UP; UP; UP; UP].

Definition solution_hard_3 : Path :=
  [UP; RIGHT; RIGHT; DOWN; UP; LEFT; LEFT; DOWN; RIGHT; DOWN; RIGHT; LEFT;
   UP; UP; RIGHT; DOWN; RIGHT; DOWN; DOWN; LEFT; UP; RIGHT; UP; LEFT;
   DOWN; LEFT; UP; RIGHT; UP; LEFT].

Definition catalogue : list (list string * Path) :=
  [(level_easy_1, solution_easy_1); (level_easy_2, solution_easy_2);
   (level_easy_3, solution_easy_3); (level_medium_1, solution_medium_1);
   (level_medium_2, solution_medium_2); (level_medium_3, solution_medium_3);
   (level_hard_1, solution_hard_1); (level_hard_2, solution_hard_2);
   (level_hard_3, solution_hard_3)].

(** The moves of [p] are accepted one after the other from [s], and leave
    the puzzle solved. *)
Definition solves (now : Z) (p : Path) (s : GameState) : Prop :=
  accepted_path now p s ∧ is_solved (run_path now p s) = true.

#[global] Instance accepted_path_dec (now : Z) (p : Path) :
  ∀ s, Decision (accepted_path now p s).
Proof. induction p as [|d r IH]; intros s; simpl; apply _. Defined.

#[global] Instance solves_dec (now : Z) (p : Path) (s : GameState) :
  Decision (solves now p s).
Proof. unfold solves. apply _. Defined.

(** The level [lp.1] loads on both boards, starts unsolved, and the path
    [lp.2] solves it on either board. *)
Definition level_solved_by (lp : list string * Path) : Prop :=
  match SokobanGame_init lp.1 with
  | inr g =>
      is_solved (human_state g) = false ∧ is_solved (ai_state g) = false ∧
      solves 0 lp.2 (human_state g) ∧ solves 0 lp.2 (ai_state g)
  | inl _ => False
  end.

#[global] Instance level_solved_by_dec (lp : list string * Path) :
  Decision (level_solved_by lp).
Proof. unfold level_solved_by. destruct (SokobanGame_init lp.1); apply _. Defined.

(** The key of an entry of the DFS stack. *)
Definition dfs_key (e : GameState * Path * Z) : Key := _get_state_hash e.1.1.

(** ** The board a level definition describes *)

(** The symbol at cell [p] of a level definition, if the definition has
    one there. *)
Definition level_char (level : list string) (p : Pos) : option ascii :=
  if bool_decide (0 ≤ p.1 ∧ 0 ≤ p.2) then
    row ← level !! Z.to_nat p.2; list_ascii_of_string row !! Z.to_nat p.1
  else None.

(** What a symbol leaves in the grid: a wall or a target; every other
    symbol, and the padding of a short row, is empty floor. *)
Definition terrain (ch : option ascii) : Tile :=
  match ch with
  | Some ch =>
      if bool_decide (ch = "#"%char) then WALL
      else if is_target_char ch then TARGET
      else EMPTY
  | None => EMPTY
  end.

(** [p] comes no later than [q] in reading order. *)
Definition reading_le (p q : Pos) : Prop :=
  p.2 < q.2 ∨ (p.2 = q.2 ∧ p.1 ≤ q.1).

(** Where the parser leaves the player, having passed the cells before
    column [x] of row [y]: at [(0, 0)] when none of them has a player
    symbol, at the last of them otherwise. *)
Definition player_placed (L : Pos → option ascii) (s : GameState)
    (x y : nat) : Prop :=
  (player_pos s = (0, 0) ∧
   ∀ p ch, parsed_before p x y → L p = Some ch → is_player_char ch = false)
  ∨
  (parsed_before (player_pos s) x y ∧
   (∃ ch, L (player_pos s) = Some ch ∧ is_player_char ch = true) ∧
   ∀ p ch, parsed_before p x y → L p = Some ch → is_player_char ch = true →
           reading_le p (player_pos s)).

(** The state under construction when the parser stands at column [x] of
    row [y] of a [w] by [h] grid whose symbols are [L]: the cells it has
    passed hold their terrain, the others are still empty, and the sets
    hold the cells passed that have a target or a crate symbol. *)
Definition board_inv (L : Pos → option ascii) (w h : nat) (s : GameState)
    (x y : nat) : Prop :=
  (∀ p, 0 ≤ p.1 < Z.of_nat w → 0 ≤ p.2 < Z.of_nat h →
        parsed_before p x y →
        grid_get (grid s) p.1 p.2 = Some (terrain (L p))) ∧
  (∀ p, 0 ≤ p.1 < Z.of_nat w → 0 ≤ p.2 < Z.of_nat h →
        ¬ parsed_before p x y →
        grid_get (grid s) p.1 p.2 = Some EMPTY) ∧
  (∀ p, p ∈ targets s ↔
        parsed_before p x y ∧
        ∃ ch, L p = Some ch ∧ is_target_char ch = true) ∧
  (∀ p, p ∈ crate_positions s ↔
        parsed_before p x y ∧
        ∃ ch, L p = Some ch ∧ is_crate_char ch = true) ∧
  player_placed L s x y.

(** ** The time budget of a search *)

(** The clock was within the budget at each of the first [n] readings. *)
Definition within_budget (elapsed : Z → Z) (max_time : Z) (n : nat) : Prop :=
  ∀ k : nat, (k < n)%nat → elapsed (Z.of_nat k) ≤ max_time.

(** Every state of [r] was expanded within the budget, and a timeout was
    declared on a reading beyond it. *)
Definition on_budget (elapsed : Z → Z) (max_time : Z) (r : SearchResult)
  : Prop :=
  within_budget elapsed max_time (length (sr_expanded r)) ∧
  (sr_exit r = ExitTimeout →
   max_time < elapsed (Z.of_nat (length (sr_expanded r)))).

(** * Properties *)

Example level_easy_1_loads :
  (λ s, (player_pos s, elements (crate_positions s), width s, height s))
    <$> (match GameState_init level_easy_1 "ai" with
         | inr s => Some s | inl _ => None end)
  = Some ((2, 3), [(1, 3); (3, 4)], 6, 7).
Proof. vm_compute. reflexivity. Qed.


(** ** Reading the grid *)

Lemma py_index_nat {A} (l : list A) (i : Z) :
  0 ≤ i → py_index l i = l !! Z.to_nat i.
Proof. intros Hi. unfold py_index. by rewrite bool_decide_eq_true_2. Qed.

Lemma grid_get_nat (g : Grid) (x y : Z) :
  0 ≤ x → 0 ≤ y →
  grid_get g x y = (g !! Z.to_nat y) ≫= (λ row, row !! Z.to_nat x).
Proof.
  intros Hx Hy. unfold grid_get. rewrite py_index_nat by done.
  destruct (g !! Z.to_nat y) as [row|]; simpl; [|done].
  by rewrite py_index_nat.
Qed.

Lemma in_bounds_iff (s : GameState) (p : Pos) :
  _in_bounds s p = true ↔ 0 ≤ p.1 < width s ∧ 0 ≤ p.2 < height s.
Proof.
  destruct p as [x y]. unfold _in_bounds. simpl.
  rewrite !andb_true_iff, !Z.leb_le, !Z.ltb_lt. lia.
Qed.

Lemma in_bounds_false_iff (s : GameState) (p : Pos) :
  _in_bounds s p = false ↔ out_of_bounds s p.
Proof.
  unfold out_of_bounds. rewrite <- in_bounds_iff.
  destruct (_in_bounds s p); naive_solver.
Qed.

Lemma grid_get_in_bounds (s : GameState) (p : Pos) :
  grid_wf s → _in_bounds s p = true →
  ∃ t, grid_get (grid s) p.1 p.2 = Some t.
Proof.
  intros (Hw & Hh & Hlen & Hrows) Hb. apply in_bounds_iff in Hb.
  destruct Hb as [Hx Hy].
  rewrite grid_get_nat by lia.
  destruct (lookup_lt_is_Some_2 (grid s) (Z.to_nat p.2)) as [row Hrow];
    [lia|].
  rewrite Hrow. simpl.
  assert (Hin : length row = Z.to_nat (width s))
    by (eapply (Forall_lookup_1 _ _ _ _ Hrows); eauto).
  destruct (lookup_lt_is_Some_2 row (Z.to_nat p.1)) as [t Ht]; [lia|].
  eauto.
Qed.

(** ** What [move] assigns *)

Lemma move_commit_fields (now : Z) (p : Pos) (s : GameState) :
  let s' := move_commit now p s in
  grid s' = grid s ∧ width s' = width s ∧ height s' = height s ∧
  targets s' = targets s ∧ player_id s' = player_id s ∧
  initial_state s' = initial_state s ∧
  crate_positions s' = crate_positions s ∧ pushes s' = pushes s ∧
  player_pos s' = p ∧ moves s' = moves s + 1 ∧
  is_playing s' = is_playing s ∧ start_time s' = start_time s.
Proof. unfold move_commit. destruct (_ && _); simpl; done. Qed.

(** [move_checks] either leaves the state alone and answers [False], or
    commits a step, after relocating a crate or not, and answers [True]. *)
Lemma move_checks_shape (now : Z) (d : Direction) (s : GameState) :
  move_checks now d s = (false, s) ∨
  (∃ p, move_checks now d s = (true, move_commit now p s)) ∨
  (∃ p cs, move_checks now d s
           = (true, move_commit now p
                      (set_pushes (pushes s + 1)
                         (set_crate_positions cs s)))).
Proof.
  unfold move_checks. destruct (Direction_value d) as [dx dy].
  destruct (negb _); [by left|].
  destruct (grid_get _ _ _) as [t|]; [|by left].
  destruct (bool_decide (t = WALL)); [by left|].
  destruct (bool_decide (_ ∈ _)); [|right; left; eauto].
  destruct (negb _); [by left|].
  destruct (grid_get _ _ _) as [t'|]; [|by left].
  destruct (bool_decide (t' = WALL)); [by left|].
  destruct (bool_decide (_ ∈ _)); [by left|].
  right. right. eauto.
Qed.

(** The board (grid, dimensions, targets) and the identity of a state are
    never assigned by [move]. *)
Lemma move_static (now : Z) (d : Direction) (s : GameState) :
  let s' := (move now d s).2 in
  grid s' = grid s ∧ width s' = width s ∧ height s' = height s ∧
  targets s' = targets s ∧ player_id s' = player_id s ∧
  initial_state s' = initial_state s.
Proof.
  unfold move.
  set (s1 := if negb (is_playing s) then start_playing now s else s).
  assert (H1 : grid s1 = grid s ∧ width s1 = width s ∧ height s1 = height s ∧
               targets s1 = targets s ∧ player_id s1 = player_id s ∧
               initial_state s1 = initial_state s).
  { unfold s1, start_playing. destruct (is_playing s); simpl; done. }
  clearbody s1. destruct H1 as (<- & <- & <- & <- & <- & <-).
  destruct (move_checks_shape now d s1) as [-> | [[p ->] | (p & cs & ->)]];
    simpl; [done| |].
  - destruct (move_commit_fields now p s1) as (? & ? & ? & ? & ? & ? & _).
    done.
  - destruct (move_commit_fields now p
                (set_pushes (pushes s1 + 1) (set_crate_positions cs s1)))
      as (? & ? & ? & ? & ? & ? & _).
    done.
Qed.

(** A rejected move leaves position, crates and both counters alone. *)
Lemma move_rejected_frame (now : Z) (d : Direction) (s : GameState) :
  (move now d s).1 = false →
  let s' := (move now d s).2 in
  player_pos s' = player_pos s ∧ crate_positions s' = crate_positions s ∧
  moves s' = moves s ∧ pushes s' = pushes s ∧ end_time s' = end_time s.
Proof.
  unfold move.
  set (s1 := if negb (is_playing s) then start_playing now s else s).
  assert (H1 : player_pos s1 = player_pos s ∧
               crate_positions s1 = crate_positions s ∧
               moves s1 = moves s ∧ pushes s1 = pushes s ∧
               end_time s1 = end_time s).
  { unfold s1, start_playing. destruct (is_playing s); simpl; done. }
  clearbody s1. destruct H1 as (<- & <- & <- & <- & <-).
  destruct (move_checks_shape now d s1) as [-> | [[p ->] | (p & cs & ->)]];
    simpl; done.
Qed.

(** A rejected move on a state that is already playing changes nothing. *)
Lemma move_rejected_playing (now : Z) (d : Direction) (s : GameState) :
  is_playing s = true → (move now d s).1 = false → (move now d s).2 = s.
Proof.
  intros Hp. unfold move. rewrite Hp. simpl.
  destruct (move_checks_shape now d s) as [-> | [[p ->] | (p & cs & ->)]];
    simpl; done.
Qed.

Lemma grid_wf_move (now : Z) (d : Direction) (s : GameState) :
  grid_wf s → grid_wf (move now d s).2.
Proof.
  intros Hwf. destruct (move_static now d s) as (Hg & Hw & Hh & _).
  unfold grid_wf. rewrite Hg, Hw, Hh. exact Hwf.
Qed.

(** [move] is [move_checks] on a state that agrees with the receiver on
    everything but the playing flag and the start time. *)
Lemma move_unfold (now : Z) (d : Direction) (s : GameState) :
  ∃ s1, move now d s = move_checks now d s1 ∧
    grid s1 = grid s ∧ width s1 = width s ∧ height s1 = height s ∧
    player_pos s1 = player_pos s ∧ crate_positions s1 = crate_positions s ∧
    targets s1 = targets s ∧ moves s1 = moves s ∧ pushes s1 = pushes s.
Proof.
  unfold move. eexists. split; [reflexivity|].
  unfold start_playing. destruct (is_playing s); simpl; done.
Qed.

Lemma in_bounds_ext (s1 s : GameState) (p : Pos) :
  width s1 = width s → height s1 = height s →
  _in_bounds s1 p = _in_bounds s p.
Proof. intros Hw Hh. destruct p. unfold _in_bounds. by rewrite Hw, Hh. Qed.

(** The three ways a call of [move] can go: rejected, a plain step, a
    push. Each comes with the tests that decided it and the fields it
    assigned. *)
Lemma move_cases (now : Z) (d : Direction) (s : GameState) :
  let target := step_pos (player_pos s) d in
  let beyond := step_pos target d in
  let ok := (move now d s).1 in
  let s' := (move now d s).2 in
  (ok = false ∧
   player_pos s' = player_pos s ∧ crate_positions s' = crate_positions s ∧
   moves s' = moves s ∧ pushes s' = pushes s ∧
   (_in_bounds s target = false ∨
    grid_get (grid s) target.1 target.2 = None ∨
    grid_get (grid s) target.1 target.2 = Some WALL ∨
    (target ∈ crate_positions s ∧
     (_in_bounds s beyond = false ∨
      grid_get (grid s) beyond.1 beyond.2 = None ∨
      grid_get (grid s) beyond.1 beyond.2 = Some WALL ∨
      beyond ∈ crate_positions s))))
  ∨
  (ok = true ∧ _in_bounds s target = true ∧
   (∃ t, grid_get (grid s) target.1 target.2 = Some t ∧ t ≠ WALL) ∧
   (target ∉ crate_positions s) ∧
   player_pos s' = target ∧ crate_positions s' = crate_positions s ∧
   moves s' = moves s + 1 ∧ pushes s' = pushes s)
  ∨
  (ok = true ∧ _in_bounds s target = true ∧
   (∃ t, grid_get (grid s) target.1 target.2 = Some t ∧ t ≠ WALL) ∧
   target ∈ crate_positions s ∧ _in_bounds s beyond = true ∧
   (∃ t, grid_get (grid s) beyond.1 beyond.2 = Some t ∧ t ≠ WALL) ∧
   (beyond ∉ crate_positions s) ∧
   player_pos s' = target ∧
   crate_positions s' = crate_positions s ∖ {[target]} ∪ {[beyond]} ∧
   moves s' = moves s + 1 ∧ pushes s' = pushes s + 1).
Proof.
  intros target beyond ok s'. subst ok s'.
  destruct (move_unfold now d s)
    as (s1 & -> & Hg & Hw & Hh & Hp & Hc & Ht & Hm & Hpu).
  remember (move_checks now d s1) as r eqn:Hr.
  unfold move_checks in Hr.
  destruct (Direction_value d) as [dx dy] eqn:Hd.
  assert (Etarget : ((player_pos s1).1 + dx, (player_pos s1).2 + dy) = target).
  { subst target. unfold step_pos. by rewrite Hd, Hp. }
  assert (Ebeyond : ((player_pos s1).1 + dx + dx, (player_pos s1).2 + dy + dy)
                    = beyond).
  { subst beyond. rewrite <- Etarget. unfold step_pos. by rewrite Hd. }
  assert (Et1 : (player_pos s1).1 + dx = target.1) by (by rewrite <- Etarget).
  assert (Et2 : (player_pos s1).2 + dy = target.2) by (by rewrite <- Etarget).
  assert (Eb1 : (player_pos s1).1 + dx + dx = beyond.1)
    by (by rewrite <- Ebeyond).
  assert (Eb2 : (player_pos s1).2 + dy + dy = beyond.2)
    by (by rewrite <- Ebeyond).
  rewrite ?Ebeyond, ?Etarget, ?Eb1, ?Eb2, ?Et1, ?Et2 in Hr.
  rewrite !(in_bounds_ext s1 s) in Hr by done. rewrite Hg, Hc in Hr.
  clearbody target beyond.
  destruct (_in_bounds s target) eqn:Hb1; simpl in Hr;
    [|subst r; simpl; left; rewrite Hp, Hc, Hm, Hpu; tauto].
  destruct (grid_get (grid s) target.1 target.2) as [t|] eqn:Hg1;
    [|subst r; simpl; left; rewrite Hp, Hc, Hm, Hpu; tauto].
  destruct (bool_decide_reflect (t = WALL)) as [->|Hnw];
    [subst r; simpl; left; rewrite Hp, Hc, Hm, Hpu; tauto|].
  destruct (bool_decide_reflect (target ∈ crate_positions s)) as [Hin|Hnin].
  - destruct (_in_bounds s beyond) eqn:Hb2; simpl in Hr;
      [|subst r; simpl; left; rewrite Hp, Hc, Hm, Hpu; tauto].
    destruct (grid_get (grid s) beyond.1 beyond.2) as [t'|] eqn:Hg2;
      [|subst r; simpl; left; rewrite Hp, Hc, Hm, Hpu; tauto].
    destruct (bool_decide_reflect (t' = WALL)) as [->|Hnw'];
      [subst r; simpl; left; rewrite Hp, Hc, Hm, Hpu; tauto|].
    destruct (bool_decide_reflect (beyond ∈ crate_positions s)) as [Hin'|Hnin'];
      [subst r; simpl; left; rewrite Hp, Hc, Hm, Hpu; tauto|].
    subst r. right. right. unfold move_commit. simpl.
    rewrite ?Hc, ?Hm, ?Hpu.
    repeat split; eauto; by destruct (_ && _).
  - subst r. right. left. unfold move_commit. simpl.
    rewrite ?Hm.
    repeat split; eauto; destruct (_ && _); simpl; done.
Qed.

(** C3. [move] is rejected exactly when the player's target cell is outside
    the grid, a wall, or holds a crate whose cell beyond is outside the
    grid, a wall, or holds another crate. When it succeeds the player stands
    on the target cell and [moves] has grown by one; if the target cell held
    a crate, that crate is now on the cell beyond and [pushes] has grown by
    one, otherwise crates and [pushes] are as before. *)
Theorem move_spec (now : Z) (d : Direction) (s : GameState) :
  grid_wf s →
  let target := step_pos (player_pos s) d in
  let beyond := step_pos target d in
  let ok := (move now d s).1 in
  let s' := (move now d s).2 in
  (ok = false ↔ move_rejected s d) ∧
  (ok = true →
     player_pos s' = target ∧ moves s' = moves s + 1 ∧
     (target ∈ crate_positions s →
        crate_positions s' = crate_positions s ∖ {[target]} ∪ {[beyond]} ∧
        pushes s' = pushes s + 1) ∧
     (target ∉ crate_positions s →
        crate_positions s' = crate_positions s ∧ pushes s' = pushes s)).
Proof.
  intros Hwf target beyond ok s'.
  assert (Hget : ∀ p, _in_bounds s p = true →
                 grid_get (grid s) p.1 p.2 ≠ None).
  { intros p Hp. destruct (grid_get_in_bounds s p Hwf Hp) as [t ->]. done. }
  assert (Hoob : ∀ p, _in_bounds s p = true → ¬ out_of_bounds s p).
  { intros p Hp Ho. apply in_bounds_false_iff in Ho. congruence. }
  pose proof (move_cases now d s) as Hcases. cbv zeta in Hcases.
  fold target beyond ok s' in Hcases.
  unfold move_rejected, blocked, is_wall. fold target. fold beyond.
  destruct Hcases as [(Hok & Hpos & Hcr & Hmv & Hpu & Hwhy)
    | [(Hok & Hb & (t & Hg & Hnw) & Hnin & Hpos & Hcr & Hmv & Hpu)
      | (Hok & Hb & (t & Hg & Hnw) & Hin & Hb' & (t' & Hg' & Hnw') & Hnin'
           & Hpos & Hcr & Hmv & Hpu)]].
  - split; [|congruence]. split; [intros _|done].
    destruct Hwhy as [Ho | [Hn | [Hw | (Hin & Hwhy)]]].
    + left. left. by apply in_bounds_false_iff.
    + left. destruct (_in_bounds s target) eqn:Hb.
      * by apply Hget in Hb.
      * left. by apply in_bounds_false_iff.
    + left. by right.
    + right. split; [done|].
      destruct Hwhy as [Ho | [Hn | [Hw | Hin']]].
      * left. left. by apply in_bounds_false_iff.
      * left. destruct (_in_bounds s beyond) eqn:Hb.
        -- by apply Hget in Hb.
        -- left. by apply in_bounds_false_iff.
      * left. by right.
      * by right.
  - split.
    + split; [congruence|]. intros [[Ho | Hw] | [Hin _]].
      * by apply Hoob in Hb.
      * congruence.
      * done.
    + intros _. repeat split; try done.
  - split.
    + split; [congruence|].
      intros [[Ho | Hw] | [_ [[Ho | Hw] | Hin']]];
        try (by apply Hoob in Hb); try (by apply Hoob in Hb');
        try congruence; done.
    + intros _. repeat split; try done.
Qed.

(** ** Writing the grid *)

Lemma grid_set_Some (g : Grid) (x y : nat) (t : Tile) (w : nat) :
  Forall (λ row, length row = w) g → (y < length g)%nat → (x < w)%nat →
  ∃ row, g !! y = Some row ∧
         grid_set g x y t = Some (<[y := <[x := t]> row]> g).
Proof.
  intros Hrows Hy Hx. unfold grid_set.
  destruct (lookup_lt_is_Some_2 g y Hy) as [row Hrow].
  exists row. split; [done|]. rewrite Hrow. simpl.
  rewrite (Forall_lookup_1 _ _ _ _ Hrows Hrow).
  by rewrite bool_decide_eq_true_2.
Qed.

Lemma grid_insert_shape (g : Grid) (x y : nat) (t : Tile) (row : list Tile)
    (w : nat) :
  Forall (λ row, length row = w) g → g !! y = Some row →
  length (<[y := <[x := t]> row]> g) = length g ∧
  Forall (λ row, length row = w) (<[y := <[x := t]> row]> g).
Proof.
  intros Hrows Hrow. split; [apply length_insert|].
  apply Forall_insert; [done|]. rewrite length_insert.
  by apply (Forall_lookup_1 _ _ _ _ Hrows Hrow).
Qed.

Lemma grid_get_insert_eq (g : Grid) (x y : nat) (t : Tile) (row : list Tile) :
  g !! y = Some row → (x < length row)%nat →
  grid_get (<[y := <[x := t]> row]> g) (Z.of_nat x) (Z.of_nat y) = Some t.
Proof.
  intros Hrow Hx. rewrite grid_get_nat by lia. rewrite !Nat2Z.id.
  rewrite list_lookup_insert_eq by (by eapply lookup_lt_Some).
  simpl. by rewrite list_lookup_insert_eq.
Qed.

Lemma grid_get_insert_ne (g : Grid) (x y : nat) (t : Tile) (row : list Tile)
    (p : Pos) :
  g !! y = Some row → 0 ≤ p.1 → 0 ≤ p.2 →
  p ≠ (Z.of_nat x, Z.of_nat y) →
  grid_get (<[y := <[x := t]> row]> g) p.1 p.2 = grid_get g p.1 p.2.
Proof.
  intros Hrow H1 H2 Hne. destruct p as [px py]. simpl in *.
  rewrite !grid_get_nat by lia.
  destruct (decide (Z.to_nat py = y)) as [Ey|Ny].
  - subst y. rewrite list_lookup_insert_eq by (by eapply lookup_lt_Some).
    rewrite Hrow. simpl. apply list_lookup_insert_ne.
    intros Ex. apply Hne. f_equal; lia.
  - by rewrite list_lookup_insert_ne.
Qed.

Lemma parsed_before_ne (p : Pos) (x y : nat) :
  parsed_before p x y → p ≠ (Z.of_nat x, Z.of_nat y).
Proof. intros (_ & _ & H) ->. simpl in H. lia. Qed.

Lemma parsed_before_next (p : Pos) (x y : nat) :
  parsed_before p x y → parsed_before p (S x) y.
Proof. unfold parsed_before. lia. Qed.

Lemma parsed_before_here (x y : nat) :
  parsed_before (Z.of_nat x, Z.of_nat y) (S x) y.
Proof. unfold parsed_before. simpl. lia. Qed.

Lemma parsed_before_newline (p : Pos) (x y : nat) :
  parsed_before p x y → parsed_before p 0 (S y).
Proof. unfold parsed_before. lia. Qed.

Lemma cell_free_insert_ne (g : Grid) (x y : nat) (t : Tile) (row : list Tile)
    (p : Pos) :
  g !! y = Some row → parsed_before p x y → cell_free g p →
  cell_free (<[y := <[x := t]> row]> g) p.
Proof.
  intros Hrow Hb (t' & Hg & Hnw). exists t'. split; [|done].
  rewrite grid_get_insert_ne; try done; try apply Hb.
  by apply parsed_before_ne.
Qed.

Lemma cell_free_insert_eq (g : Grid) (x y : nat) (t : Tile) (row : list Tile) :
  g !! y = Some row → (x < length row)%nat → t ≠ WALL →
  cell_free (<[y := <[x := t]> row]> g) (Z.of_nat x, Z.of_nat y).
Proof.
  intros Hrow Hx Hnw. exists t. split; [|done]. simpl.
  by apply grid_get_insert_eq.
Qed.

(** ** The parser *)

(** One cell of the level: the grid gets tile [t] at [(x, y)], and the
    position joins the crates ([addc]), the targets ([addt]), or becomes the
    player's ([setp]). *)
Lemma parse_inv_step (w h : nat) (s : GameState) (x y nc nt np : nat)
    (row : list Tile) (t : Tile) (addc addt setp : bool) :
  parse_inv w h s x y nc nt np →
  grid s !! y = Some row → (x < w)%nat →
  (addc = true → t ≠ WALL) → (setp = true → t ≠ WALL) →
  let p : Pos := (Z.of_nat x, Z.of_nat y) in
  parse_inv w h
    (mkGameState (player_id s) (moves s) (pushes s) (start_time s)
       (end_time s) (is_playing s) (width s) (height s)
       (<[y := <[x := t]> row]> (grid s))
       (if setp then p else player_pos s)
       (if addt then targets s ∪ {[p]} else targets s)
       (if addc then crate_positions s ∪ {[p]} else crate_positions s)
       (initial_state s))
    (S x) y (nc + (if addc then 1 else 0)) (nt + (if addt then 1 else 0))
    (np + (if setp then 1 else 0)).
Proof.
  intros (Hlen & Hrows & Hcr & Htg & Hnc & Hnt & Hpl) Hrow Hx Hc Hp p.
  assert (Hxr : (x < length row)%nat)
    by (by rewrite (Forall_lookup_1 _ _ _ _ Hrows Hrow)).
  destruct (grid_insert_shape (grid s) x y t row w Hrows Hrow) as [Hl' Hr'].
  assert (Hpc : p ∉ crate_positions s).
  { intros Hin. apply Hcr in Hin as [Hb _].
    by apply parsed_before_ne in Hb. }
  assert (Hpt : p ∉ targets s).
  { intros Hin. apply Htg in Hin. by apply parsed_before_ne in Hin. }
  unfold parse_inv. simpl.
  split; [congruence|]. split; [done|].
  split; [|split; [|split; [|split]]].
  - intros q Hq.
    assert (Hq' : q ∈ crate_positions s ∨ (addc = true ∧ q = p)).
    { destruct addc; [|by left].
      apply elem_of_union in Hq as [Hq|Hq%elem_of_singleton]; auto. }
    destruct Hq' as [Hq'|[Ha ->]].
    + apply Hcr in Hq' as [Hb Hf]. split; [by apply parsed_before_next|].
      by apply cell_free_insert_ne.
    + split; [apply parsed_before_here|].
      apply cell_free_insert_eq; auto.
  - intros q Hq.
    assert (Hq' : q ∈ targets s ∨ q = p).
    { destruct addt; [|by left].
      apply elem_of_union in Hq as [Hq|Hq%elem_of_singleton]; auto. }
    destruct Hq' as [Hq'| ->].
    + apply parsed_before_next. by apply Htg.
    + apply parsed_before_here.
  - destruct addc; [|lia].
    rewrite size_union by (by apply disjoint_singleton_r).
    rewrite size_singleton. lia.
  - destruct addt; [|lia].
    rewrite size_union by (by apply disjoint_singleton_r).
    rewrite size_singleton. lia.
  - destruct setp.
    + rewrite Nat.add_1_r. split; [apply parsed_before_here|].
      apply cell_free_insert_eq; auto.
    + rewrite Nat.add_0_r. destruct np; [done|].
      destruct Hpl as [Hb Hf]. split; [by apply parsed_before_next|].
      by apply cell_free_insert_ne.
Qed.

Lemma parse_cell_inv (w h : nat) (s : GameState) (x y nc nt np : nat)
    (ch : ascii) :
  parse_inv w h s x y nc nt np → (y < h)%nat → (x < w)%nat →
  ∃ s', parse_cell x y ch s = Some s' ∧
    parse_inv w h s' (S x) y
      (nc + (if is_crate_char ch then 1 else 0))
      (nt + (if is_target_char ch then 1 else 0))
      (np + (if is_player_char ch then 1 else 0)) ∧
    same_scalars s s'.
Proof.
  intros Hinv Hy Hx.
  assert (Hinv' := Hinv). destruct Hinv' as (Hlen & Hrows & _).
  assert (Hset : ∀ t, ∃ row, grid s !! y = Some row ∧
            grid_set (grid s) x y t = Some (<[y := <[x := t]> row]> (grid s))).
  { intros t. apply (grid_set_Some _ _ _ _ w); [done|lia|done]. }
  clear Hlen Hrows.
  unfold parse_cell, tile_map, is_crate_char, is_target_char, is_player_char.
  repeat case_bool_decide; subst; try discriminate; simpl orb; cbv iota.
  - destruct (Hset WALL) as (row & Hrow & ->). simpl. eexists.
    split; [reflexivity|]. split; [|done].
    apply (parse_inv_step w h s x y nc nt np row WALL false false false);
      done.
  - destruct (Hset EMPTY) as (row & Hrow & ->). simpl. eexists.
    split; [reflexivity|]. split; [|done].
    apply (parse_inv_step w h s x y nc nt np row EMPTY false false false);
      done.
  - destruct (Hset TARGET) as (row & Hrow & ->). simpl. eexists.
    split; [reflexivity|]. split; [|done].
    apply (parse_inv_step w h s x y nc nt np row TARGET false true false);
      done.
  - destruct (Hset EMPTY) as (row & Hrow & ->). simpl. eexists.
    split; [reflexivity|]. split; [|done].
    apply (parse_inv_step w h s x y nc nt np row EMPTY true false false);
      done.
  - destruct (Hset TARGET) as (row & Hrow & ->). simpl. eexists.
    split; [reflexivity|]. split; [|done].
    apply (parse_inv_step w h s x y nc nt np row TARGET true true false);
      done.
  - simpl. destruct (Hset EMPTY) as (row & Hrow & ->). simpl. eexists.
    split; [reflexivity|]. split; [|done].
    apply (parse_inv_step w h s x y nc nt np row EMPTY false false true);
      done.
  - simpl. destruct (Hset TARGET) as (row & Hrow & ->). simpl. eexists.
    split; [reflexivity|]. split; [|done].
    apply (parse_inv_step w h s x y nc nt np row TARGET false true true);
      done.
  - destruct (Hset EMPTY) as (row & Hrow & ->). simpl. eexists.
    split; [reflexivity|]. split; [|done].
    apply (parse_inv_step w h s x y nc nt np row EMPTY false false false);
      done.
Qed.

Lemma same_scalars_refl (s : GameState) : same_scalars s s.
Proof. by unfold same_scalars. Qed.

Lemma same_scalars_trans (s1 s2 s3 : GameState) :
  same_scalars s1 s2 → same_scalars s2 s3 → same_scalars s1 s3.
Proof. unfold same_scalars. intros H1 H2. intuition congruence. Qed.

Lemma parse_row_inv (w h y : nat) (row : list ascii) :
  ∀ (x : nat) (s : GameState) (nc nt np : nat),
  parse_inv w h s x y nc nt np → (y < h)%nat → (x + length row ≤ w)%nat →
  ∃ s', parse_row y x row s = Some s' ∧
    parse_inv w h s' (x + length row) y
      (nc + count_row is_crate_char row)
      (nt + count_row is_target_char row)
      (np + count_row is_player_char row) ∧
    same_scalars s s'.
Proof.
  induction row as [|ch rest IH]; intros x s nc nt np Hinv Hy Hx.
  - exists s. simpl. rewrite !Nat.add_0_r. split; [done|].
    split; [done|apply same_scalars_refl].
  - simpl in Hx. simpl parse_row.
    destruct (parse_cell_inv w h s x y nc nt np ch Hinv Hy)
      as (s1 & -> & Hinv1 & Hsc1); [lia|].
    simpl. destruct (IH (S x) s1 _ _ _ Hinv1 Hy) as (s' & Hs' & Hinv' & Hsc');
      [lia|].
    exists s'. split; [done|]. split; [|by eapply same_scalars_trans].
    simpl length. simpl count_row.
    replace (x + S (length rest))%nat with (S x + length rest)%nat by lia.
    by rewrite !Nat.add_assoc.
Qed.

Lemma parse_inv_newline (w h : nat) (s : GameState) (x y nc nt np : nat) :
  parse_inv w h s x y nc nt np → parse_inv w h s 0 (S y) nc nt np.
Proof.
  intros (Hlen & Hrows & Hcr & Htg & Hnc & Hnt & Hpl).
  split; [done|]. split; [done|].
  split; [|split; [|split; [done|split; [done|]]]].
  - intros p Hp. apply Hcr in Hp as [Hb Hf].
    split; [by apply parsed_before_newline with x|done].
  - intros p Hp. apply parsed_before_newline with x. by apply Htg.
  - destruct np; [done|]. destruct Hpl as [Hb Hf].
    split; [by apply parsed_before_newline with x|done].
Qed.

Lemma length_list_ascii_of_string (row : string) :
  length (list_ascii_of_string row) = String.length row.
Proof. induction row as [|c r IH]; simpl; congruence. Qed.

Lemma parse_rows_inv (w h : nat) (rows : list string) :
  ∀ (y : nat) (s : GameState) (nc nt np : nat),
  parse_inv w h s 0 y nc nt np → (y + length rows ≤ h)%nat →
  Forall (λ row, String.length row ≤ w)%nat rows →
  ∃ s', parse_rows y rows s = Some s' ∧
    parse_inv w h s' 0 (y + length rows)
      (nc + count_level is_crate_char rows)
      (nt + count_level is_target_char rows)
      (np + count_level is_player_char rows) ∧
    same_scalars s s'.
Proof.
  induction rows as [|row rest IH]; intros y s nc nt np Hinv Hy Hw.
  - exists s. simpl. rewrite !Nat.add_0_r. split; [done|].
    split; [done|apply same_scalars_refl].
  - simpl in Hy. apply Forall_cons in Hw as [Hrow Hw]. simpl parse_rows.
    destruct (parse_row_inv w h y (list_ascii_of_string row) 0 s nc nt np Hinv)
      as (s1 & -> & Hinv1 & Hsc1); [lia| |].
    { simpl. by rewrite length_list_ascii_of_string. }
    simpl. apply parse_inv_newline in Hinv1.
    destruct (IH (S y) s1 _ _ _ Hinv1) as (s' & Hs' & Hinv' & Hsc');
      [lia|done|].
    exists s'. split; [done|]. split; [|by eapply same_scalars_trans].
    simpl length. simpl count_level.
    replace (y + S (length rest))%nat with (S y + length rest)%nat by lia.
    by rewrite !Nat.add_assoc.
Qed.

(** ** The constructor *)

Lemma foldl_max_ge (r : list nat) :
  ∀ x, (x ≤ foldl Nat.max x r)%nat ∧
       Forall (λ n, n ≤ foldl Nat.max x r)%nat r.
Proof.
  induction r as [|a r IH]; intros x; simpl; [by split|].
  destruct (IH (Nat.max x a)) as [H1 H2]. split; [lia|].
  constructor; [lia|done].
Qed.

Lemma py_max_bound (l : list nat) (m : nat) :
  py_max l = Some m → Forall (λ n, n ≤ m)%nat l.
Proof.
  destruct l as [|x r]; [done|]. simpl. intros [= <-].
  destruct (foldl_max_ge r x). by constructor.
Qed.

(** On a level with at least one row the parser cannot fail, and the
    constructor's answer is decided by the three size tests on the state
    after parsing. *)
Lemma GameState_init_unfold (level : list string) (pid : string) :
  level ≠ [] →
  let nc := count_level is_crate_char level in
  let nt := count_level is_target_char level in
  let np := count_level is_player_char level in
  ∃ (w : nat) (s1 : GameState),
    parse_inv w (length level) s1 0 (length level) nc nt np ∧
    width s1 = Z.of_nat w ∧ height s1 = Z.of_nat (length level) ∧
    moves s1 = 0 ∧ pushes s1 = 0 ∧ is_playing s1 = false ∧
    GameState_init level pid =
      if bool_decide (nt = 0%nat) then inl ValueError_no_targets
      else if bool_decide (nc = 0%nat) then inl ValueError_no_crates
      else if bool_decide (nc ≠ nt) then inl (ValueError_mismatch nc nt)
      else inr (set_initial_state (_get_state_hash s1) s1).
Proof.
  intros Hne nc nt np. unfold GameState_init.
  destruct (py_max (String.length <$> level)) as [w|] eqn:Hmax.
  2:{ destruct level; [done|discriminate]. }
  apply py_max_bound in Hmax. rewrite Forall_fmap in Hmax.
  set (s0 := mkGameState pid 0 0 None None false (Z.of_nat w)
               (Z.of_nat (length level))
               (replicate (length level) (replicate w EMPTY)) (0, 0) ∅ ∅
               ((0, 0), ∅)).
  assert (Hinv0 : parse_inv w (length level) s0 0 0 0 0 0).
  { unfold parse_inv, s0. cbn [grid crate_positions targets player_pos].
    rewrite length_replicate.
    split; [done|]. split.
    { apply Forall_replicate. apply length_replicate. }
    split; [intros p Hp; by apply not_elem_of_empty in Hp|].
    split; [intros p Hp; by apply not_elem_of_empty in Hp|].
    split; [apply size_empty|]. split; [apply size_empty|done]. }
  destruct (parse_rows_inv w (length level) level 0 s0 0 0 0 Hinv0)
    as (s1 & Hparse & Hinv1 & Hsc); [simpl; lia|done|].
  simpl in Hinv1. fold nc nt np in Hinv1.
  unfold _parse_level. rewrite Hparse.
  exists w, s1. destruct Hsc as (_ & Hm & Hp & _ & _ & Hpl & Hw & Hh & _).
  split; [done|]. repeat (split; [done|]).
  destruct Hinv1 as (_ & _ & _ & _ & Hnc & Hnt & _).
  simpl. by rewrite Hnc, Hnt.
Qed.

(** A level with matching, non-zero numbers of crate and target symbols
    loads. *)
Lemma GameState_init_loads (level : list string) (pid : string) :
  count_level is_crate_char level = count_level is_target_char level →
  (1 ≤ count_level is_crate_char level)%nat →
  ∃ s, GameState_init level pid = inr s.
Proof.
  intros Hcount Hpos. destruct level as [|row rest]; [simpl in Hpos; lia|].
  destruct (GameState_init_unfold (row :: rest) pid)
    as (w & s1 & _ & _ & _ & _ & _ & _ & ->); [done|].
  rewrite bool_decide_eq_false_2 by lia.
  rewrite bool_decide_eq_false_2 by lia.
  rewrite bool_decide_eq_false_2 by (intros H; by apply H).
  eauto.
Qed.

(** C8. Construction succeeds if and only if the level has as many crate
    symbols as target symbols and at least one of each; in every other case
    the constructor raises a [ValueError] and hands no state to its
    caller. *)
Theorem GameState_init_spec (level : list string) (pid : string) :
  let nc := count_level is_crate_char level in
  let nt := count_level is_target_char level in
  ((∃ s, GameState_init level pid = inr s) ↔ (nc = nt ∧ (1 ≤ nc)%nat)) ∧
  (¬ (nc = nt ∧ (1 ≤ nc)%nat) →
   ∃ e, GameState_init level pid = inl e ∧ e ≠ IndexError_parse).
Proof.
  intros nc nt. destruct level as [|row rest].
  - simpl. split.
    + split; [intros [s Hs]; discriminate|]. subst nc. simpl. lia.
    + intros _. eexists. split; [reflexivity|done].
  - destruct (GameState_init_unfold (row :: rest) pid) as (w & s1 & _ & _ & _ & _ & _ & _ & ->);
      [done|].
    fold nc nt.
    repeat case_bool_decide.
    + split; [split; [intros [s Hs]; discriminate|lia]|].
      intros _. eexists. split; [reflexivity|done].
    + split; [split; [intros [s Hs]; discriminate|lia]|].
      intros _. eexists. split; [reflexivity|done].
    + split; [split; [intros [s Hs]; discriminate|lia]|].
      intros _. eexists. split; [reflexivity|done].
    + split; [split; [intros _; lia|eauto]|]. intros Hn. lia.
Qed.

(** What is known of a state the constructor returned. *)
Lemma GameState_init_inr (level : list string) (pid : string) (s : GameState) :
  GameState_init level pid = inr s →
  let nc := count_level is_crate_char level in
  let nt := count_level is_target_char level in
  let np := count_level is_player_char level in
  ∃ w : nat,
    parse_inv w (length level) s 0 (length level) nc nt np ∧
    width s = Z.of_nat w ∧ height s = Z.of_nat (length level) ∧
    moves s = 0 ∧ pushes s = 0 ∧ is_playing s = false ∧
    nc = nt ∧ (1 ≤ nc)%nat.
Proof.
  intros Hinit nc nt np.
  destruct level as [|row rest]; [discriminate|].
  destruct (GameState_init_unfold (row :: rest) pid)
    as (w & s1 & Hinv & Hw & Hh & Hm & Hp & Hpl & E); [done|].
  rewrite Hinit in E. fold nc nt np in Hinv, E.
  repeat case_bool_decide; try discriminate.
  injection E as ->. exists w.
  split; [exact Hinv|]. simpl. repeat (split; [done|]). lia.
Qed.

Lemma state_corridor_loads :
  GameState_init level_corridor "ai" = inr state_corridor.
Proof. vm_compute. reflexivity. Qed.

Lemma state_no_player_loads :
  GameState_init level_no_player "ai" = inr state_no_player.
Proof. vm_compute. reflexivity. Qed.

(** C10. A level without any player symbol and with valid crate and target
    counts loads, and the player stands at [(0, 0)]; that cell can be a
    wall, as it is for the level ["#.$"]. *)
Theorem GameState_init_default_player :
  (∀ (level : list string) (pid : string),
     count_level is_player_char level = 0%nat →
     count_level is_crate_char level = count_level is_target_char level →
     (1 ≤ count_level is_crate_char level)%nat →
     ∃ s, GameState_init level pid = inr s ∧ player_pos s = (0, 0)) ∧
  (∃ s, GameState_init level_no_player "ai" = inr s ∧
        count_level is_player_char level_no_player = 0%nat ∧
        player_pos s = (0, 0) ∧ is_wall s (0, 0)).
Proof.
  split.
  - intros level pid Hnp Hcount Hpos.
    destruct (GameState_init_loads level pid Hcount Hpos) as [s Hs].
    exists s. split; [done|].
    destruct (GameState_init_inr level pid s Hs)
      as (w & (_ & _ & _ & _ & _ & _ & Hpl) & _).
    by rewrite Hnp in Hpl.
  - exists state_no_player. split; [apply state_no_player_loads|].
    repeat split.
Qed.

Lemma GameState_init_default_player_witness :
  ∃ s, GameState_init level_no_player "ai" = inr s ∧ player_pos s = (0, 0).
Proof.
  apply (proj1 GameState_init_default_player level_no_player "ai");
    vm_compute; [reflexivity|reflexivity|lia].
Defined.

(** ** Invariants of the states *)

Lemma grid_get_Some_in_bounds (s : GameState) (p : Pos) (t : Tile) :
  grid_wf s → 0 ≤ p.1 → 0 ≤ p.2 →
  grid_get (grid s) p.1 p.2 = Some t → _in_bounds s p = true.
Proof.
  intros (Hw & Hh & Hlen & Hrows) H1 H2 Hget.
  rewrite grid_get_nat in Hget by done.
  destruct (grid s !! Z.to_nat p.2) as [row|] eqn:Hrow; [|done].
  simpl in Hget. apply lookup_lt_Some in Hget.
  rewrite (Forall_lookup_1 _ _ _ _ Hrows Hrow) in Hget.
  apply lookup_lt_Some in Hrow.
  apply in_bounds_iff. lia.
Qed.

Lemma cell_free_not_wall (s : GameState) (p : Pos) :
  cell_free (grid s) p → ¬ is_wall s p.
Proof. intros (t & Hg & Hnw) Hw. unfold is_wall in Hw. congruence. Qed.

Lemma parse_inv_grid_wf (w h : nat) (s : GameState) (x y nc nt np : nat) :
  parse_inv w h s x y nc nt np →
  width s = Z.of_nat w → height s = Z.of_nat h → grid_wf s.
Proof.
  intros (Hlen & Hrows & _) Hw Hh. unfold grid_wf.
  rewrite Hw, Hh, !Nat2Z.id. repeat split; try lia; done.
Qed.

Lemma GameState_init_ok (level : list string) (pid : string) (s : GameState) :
  GameState_init level pid = inr s → state_ok s.
Proof.
  intros Hinit.
  destruct (GameState_init_inr level pid s Hinit)
    as (w & Hinv & Hw & Hh & _ & _ & _ & Hcount & Hpos).
  assert (Hwf : grid_wf s) by (by eapply parse_inv_grid_wf).
  destruct Hinv as (_ & _ & Hcr & _ & Hnc & Hnt & _).
  split; [done|]. split; [|lia].
  intros c Hc. apply Hcr in Hc as [(H1 & H2 & _) Hf]. split; [|done].
  destruct Hf as (t & Hg & _). by eapply grid_get_Some_in_bounds.
Qed.

Lemma size_relocate (X : gset Pos) (a b : Pos) :
  a ∈ X → b ∉ X → size (X ∖ {[a]} ∪ {[b]}) = size X.
Proof.
  intros Ha Hb.
  rewrite size_union
    by (apply disjoint_singleton_r; by intros [? _]%elem_of_difference).
  rewrite size_difference by (by apply singleton_subseteq_l).
  rewrite !size_singleton.
  assert (size X ≠ 0%nat).
  { intros H0. apply size_empty_inv in H0. by apply H0 in Ha. }
  lia.
Qed.

Lemma move_ok (now : Z) (d : Direction) (s : GameState) :
  state_ok s → state_ok (move now d s).2.
Proof.
  intros (Hwf & Hcr & Hsz & Hnt).
  destruct (move_static now d s) as (Hg & Hw & Hh & Ht & _).
  assert (Hwf' : grid_wf (move now d s).2) by (by apply grid_wf_move).
  assert (Hib : ∀ p, _in_bounds (move now d s).2 p = _in_bounds s p)
    by (intros p; by apply in_bounds_ext).
  unfold state_ok. rewrite Ht, Hg. split; [done|].
  destruct (move_cases now d s) as [(_ & _ & Hc & _)
    | [(_ & _ & _ & _ & _ & Hc & _)
      | (_ & Hb & Hf & Hin & Hb' & Hf' & Hnin' & _ & Hc & _)]].
  - rewrite Hc. split; [|done]. intros c Hin. rewrite Hib. by apply Hcr.
  - rewrite Hc. split; [|done]. intros c Hin. rewrite Hib. by apply Hcr.
  - rewrite Hc. split.
    + intros c [[Hc1 _]%elem_of_difference | ->%elem_of_singleton]%elem_of_union;
        rewrite Hib; [by apply Hcr|done].
    + by rewrite size_relocate.
Qed.

Lemma reachable_ok (s0 s : GameState) :
  state_ok s0 → reachable s0 s → state_ok s.
Proof. intros H0 Hr. induction Hr; [done|by apply move_ok]. Qed.

Lemma constructed_ok (s : GameState) : constructed s → state_ok s.
Proof.
  intros (level & pid & s0 & Hinit & Hr).
  eapply reachable_ok; [|done]. by eapply GameState_init_ok.
Qed.

Lemma reachable_static (s0 s : GameState) :
  reachable s0 s →
  grid s = grid s0 ∧ width s = width s0 ∧ height s = height s0 ∧
  targets s = targets s0.
Proof.
  intros Hr. induction Hr as [|now d s Hr (Hg & Hw & Hh & Ht)]; [done|].
  destruct (move_static now d s) as (Hg' & Hw' & Hh' & Ht' & _).
  repeat split; congruence.
Qed.

(** Once the player stands on a free cell, it always does. *)
Lemma move_player_free (now : Z) (d : Direction) (s : GameState) :
  cell_free (grid s) (player_pos s) →
  cell_free (grid (move now d s).2) (player_pos (move now d s).2).
Proof.
  intros Hf. destruct (move_static now d s) as (Hg & _). rewrite Hg.
  destruct (move_cases now d s) as [(_ & Hp & _)
    | [(_ & _ & Hf' & _ & Hp & _) | (_ & _ & Hf' & _ & _ & _ & _ & Hp & _)]];
    rewrite Hp; done.
Qed.

(** The invariants as the specification lists them fail: a level without a
    player symbol loads with the player on the wall at [(0, 0)]. *)
Lemma invariants_as_specified_fail : ¬ invariants_as_specified.
Proof.
  intros H.
  destruct (H level_no_player "ai"%string state_no_player state_no_player
              state_no_player_loads (reachable_refl _)) as (_ & Hp & _).
  apply Hp. reflexivity.
Qed.

(** C6, amended. For every state reachable by calls of [move] (accepted or
    rejected) from a state the constructor returned: no crate is on a wall,
    there are as many crates as targets, and the targets are those of the
    initial state; the player is not on a wall provided the level
    definition contains a player symbol. *)
Theorem state_invariants (level : list string) (pid : string)
    (s0 s : GameState) :
  GameState_init level pid = inr s0 → reachable s0 s →
  (∀ c, c ∈ crate_positions s → ¬ is_wall s c) ∧
  size (crate_positions s) = size (targets s) ∧
  targets s = targets s0 ∧
  ((1 ≤ count_level is_player_char level)%nat → ¬ is_wall s (player_pos s)).
Proof.
  intros Hinit Hr.
  assert (Hok : state_ok s).
  { eapply reachable_ok; [|done]. by eapply GameState_init_ok. }
  destruct Hok as (_ & Hcr & Hsz & _).
  split; [|split; [done|split]].
  - intros c Hc. apply cell_free_not_wall. by apply Hcr.
  - by apply reachable_static.
  - intros Hnp. apply cell_free_not_wall.
    assert (H0 : cell_free (grid s0) (player_pos s0)).
    { destruct (GameState_init_inr level pid s0 Hinit)
        as (w & (_ & _ & _ & _ & _ & _ & Hpl) & _).
      destruct (count_level is_player_char level); [lia|]. by destruct Hpl. }
    clear Hinit Hcr Hsz. induction Hr; [done|]. by apply move_player_free.
Qed.

Lemma state_corridor_wf : grid_wf state_corridor.
Proof.
  unfold grid_wf. simpl. repeat split; try lia. repeat constructor.
Qed.

Lemma state_invariants_witness :
  (∀ c, c ∈ crate_positions (move 0 RIGHT state_corridor).2 →
        ¬ is_wall (move 0 RIGHT state_corridor).2 c) ∧
  size (crate_positions (move 0 RIGHT state_corridor).2)
  = size (targets (move 0 RIGHT state_corridor).2) ∧
  targets (move 0 RIGHT state_corridor).2 = targets state_corridor ∧
  ((1 ≤ count_level is_player_char level_corridor)%nat →
   ¬ is_wall (move 0 RIGHT state_corridor).2
       (player_pos (move 0 RIGHT state_corridor).2)).
Proof.
  apply (state_invariants level_corridor "ai" state_corridor
           (move 0 RIGHT state_corridor).2).
  - vm_compute. reflexivity.
  - apply reachable_move. apply reachable_refl.
Defined.

Lemma move_spec_witness :
  let s := state_corridor in
  let target := step_pos (player_pos s) RIGHT in
  let beyond := step_pos target RIGHT in
  let ok := (move 0 RIGHT s).1 in
  let s' := (move 0 RIGHT s).2 in
  (ok = false ↔ move_rejected s RIGHT) ∧
  (ok = true →
     player_pos s' = target ∧ moves s' = moves s + 1 ∧
     (target ∈ crate_positions s →
        crate_positions s' = crate_positions s ∖ {[target]} ∪ {[beyond]} ∧
        pushes s' = pushes s + 1) ∧
     (target ∉ crate_positions s →
        crate_positions s' = crate_positions s ∧ pushes s' = pushes s)).
Proof.
  apply (move_spec 0 RIGHT state_corridor). apply state_corridor_wf.
Defined.

(** ** The heuristic *)

Lemma foldl_min_spec (r : list Z) :
  ∀ x, (foldl Z.min x r = x ∨ foldl Z.min x r ∈ r) ∧
       foldl Z.min x r ≤ x ∧ Forall (λ v, foldl Z.min x r ≤ v) r.
Proof.
  induction r as [|a r IH]; intros x; simpl.
  - split; [by left|]. split; [lia|constructor].
  - destruct (IH (Z.min x a)) as (Hin & Hle & Hall). split; [|split].
    + destruct Hin as [Hm|Hm].
      * destruct (Z.min_spec x a) as [[_ E]|[_ E]].
        -- left. by rewrite Hm.
        -- right. rewrite Hm, E. apply list_elem_of_here.
      * right. by apply list_elem_of_further.
    + lia.
    + constructor; [lia|done].
Qed.

Lemma py_min_spec (l : list Z) (m : Z) :
  py_min l = Some m → m ∈ l ∧ ∀ v, v ∈ l → m ≤ v.
Proof.
  destruct l as [|x r]; [done|]. simpl. intros [= <-].
  destruct (foldl_min_spec r x) as (Hin & Hle & Hall). split.
  - destruct Hin as [->|Hin]; [apply list_elem_of_here|].
    by apply list_elem_of_further.
  - intros v [->|Hv]%elem_of_cons; [done|].
    by apply (proj1 (Forall_forall _ _) Hall).
Qed.

Lemma py_min_is_Some (l : list Z) : l ≠ [] → is_Some (py_min l).
Proof. destruct l; [done|]. simpl. eauto. Qed.

(** A loop that adds [f crate] for every crate. *)
Lemma for_each_sum (body : Z → Pos → option Z) (f : Pos → Z) (l : list Pos) :
  (∀ total c, c ∈ l → body total c = Some (total + f c)) →
  ∀ total, for_each body total l
           = Some (total + foldr (λ c acc, f c + acc) 0 l).
Proof.
  induction l as [|c r IH]; intros Hbody total; simpl.
  - f_equal. lia.
  - rewrite Hbody by apply list_elem_of_here. simpl.
    rewrite IH by (intros t c' Hc'; apply Hbody; by apply list_elem_of_further).
    f_equal. lia.
Qed.

Lemma foldr_sum_add (f g : Pos → Z) (l : list Pos) :
  foldr (λ c acc, f c + acc) 0 l + foldr (λ c acc, g c + acc) 0 l
  = foldr (λ c acc, (f c + g c) + acc) 0 l.
Proof. induction l as [|c r IH]; simpl; lia. Qed.

Lemma foldr_sum_perm (f : Pos → Z) (l l' : list Pos) :
  l ≡ₚ l' →
  foldr (λ c acc, f c + acc) 0 l = foldr (λ c acc, f c + acc) 0 l'.
Proof. induction 1; simpl; lia. Qed.

Lemma unsolved_elements (s : GameState) :
  filter (λ c, c ∉ targets s) (elements (crate_positions s))
  ≡ₚ elements (crate_positions s ∖ targets s).
Proof.
  apply NoDup_Permutation.
  - apply NoDup_filter, NoDup_elements.
  - apply NoDup_elements.
  - intros c. rewrite list_elem_of_filter, !elem_of_elements.
    rewrite elem_of_difference. tauto.
Qed.

Lemma wall_or_edge_spec (s : GameState) (edge : bool) (gx gy : Z) :
  grid_wf s → (edge = true ↔ out_of_bounds s (gx, gy)) →
  wall_or_edge s edge gx gy = Some (bool_decide (blocked s (gx, gy))).
Proof.
  intros Hwf Hedge. unfold wall_or_edge. destruct edge.
  - f_equal. symmetry. apply bool_decide_eq_true_2. left. by apply Hedge.
  - assert (Hb : _in_bounds s (gx, gy) = true).
    { destruct (_in_bounds s (gx, gy)) eqn:Hb; [done|].
      apply in_bounds_false_iff, Hedge in Hb. done. }
    assert (Hno : ¬ out_of_bounds s (gx, gy)).
    { intros Ho. apply Hedge in Ho. done. }
    destruct (grid_get_in_bounds s (gx, gy) Hwf Hb) as [t Ht]. simpl in Ht.
    rewrite Ht. simpl. f_equal. apply bool_decide_ext.
    unfold blocked, is_wall. simpl. rewrite Ht.
    split.
    + intros Hv. right. f_equal. by destruct t.
    + intros [Ho|[= ->]]; done.
Qed.

Lemma _is_corner_deadlock_spec (s : GameState) (c : Pos) :
  grid_wf s → _in_bounds s c = true →
  _is_corner_deadlock s c = Some (bool_decide (corner_deadlocked s c)).
Proof.
  intros Hwf Hb. apply in_bounds_iff in Hb. destruct c as [x y].
  simpl in Hb. unfold _is_corner_deadlock.
  rewrite (wall_or_edge_spec s _ (x - 1) y Hwf).
  2:{ rewrite bool_decide_eq_true. unfold out_of_bounds. simpl. lia. }
  rewrite (wall_or_edge_spec s _ (x + 1) y Hwf).
  2:{ rewrite bool_decide_eq_true. unfold out_of_bounds. simpl. lia. }
  rewrite (wall_or_edge_spec s _ x (y - 1) Hwf).
  2:{ rewrite bool_decide_eq_true. unfold out_of_bounds. simpl. lia. }
  rewrite (wall_or_edge_spec s _ x (y + 1) Hwf).
  2:{ rewrite bool_decide_eq_true. unfold out_of_bounds. simpl. lia. }
  cbn [mbind option_bind].
  assert (E : bool_decide (corner_deadlocked s (x, y))
              = (bool_decide (blocked s (x - 1, y))
                 || bool_decide (blocked s (x + 1, y)))
                && (bool_decide (blocked s (x, y - 1))
                    || bool_decide (blocked s (x, y + 1)))).
  { rewrite <- !bool_decide_or, <- bool_decide_and.
    apply bool_decide_ext. reflexivity. }
  rewrite E. by destruct (_ && _).
Qed.

(** The heuristic as two sums over the list of unsolved crates, put
    together: least distance to a target plus corner penalty, per crate. *)
Lemma _heuristic_sum (s : GameState) :
  grid_wf s →
  (∀ c, c ∈ crate_positions s → _in_bounds s c = true) →
  targets s ≠ ∅ →
  _heuristic s
  = Some (if is_solved s then 0
          else foldr (λ c acc,
                 (default 0 (py_min ((λ t, manhattan c t)
                                       <$> elements (targets s)))
                  + deadlock_penalty s c) + acc) 0
                 (filter (λ c, c ∉ targets s)
                    (elements (crate_positions s)))).
Proof.
  intros Hwf Hcr Hne.
  assert (Hmin : ∀ c, is_Some (py_min ((λ t, manhattan c t)
                                         <$> elements (targets s)))).
  { intros c. apply py_min_is_Some. intros E.
    apply fmap_nil_inv in E. by apply elements_empty_inv, leibniz_equiv in E. }
  unfold _heuristic. destruct (is_solved s); [done|].
  set (unsolved := filter (λ c, c ∉ targets s) (elements (crate_positions s))).
  case_bool_decide as Hnil; [by rewrite Hnil|].
  rewrite (for_each_sum _
             (λ c, default 0 (py_min ((λ t, manhattan c t)
                                        <$> elements (targets s))))).
  2:{ intros total c _. destruct (Hmin c) as [m Hm]. by rewrite Hm. }
  simpl.
  rewrite (for_each_sum _ (deadlock_penalty s)).
  2:{ intros total c Hc. rewrite _is_corner_deadlock_spec; [|done|].
      - simpl. unfold deadlock_penalty. f_equal.
        destruct (decide (corner_deadlocked s c)) as [Hd|Hd].
        + by rewrite bool_decide_eq_true_2.
        + rewrite bool_decide_eq_false_2 by done. lia.
      - apply Hcr. unfold unsolved in Hc.
        apply list_elem_of_filter in Hc as [_ Hc].
        by apply elem_of_elements in Hc. }
  simpl. f_equal. by rewrite Z.add_0_l, foldr_sum_add.
Qed.

(** C7. [_heuristic] returns 0 on a solved state; on any other state it
    returns the sum, over the crates that are on no target, of the Manhattan
    distance to a nearest target plus 500 when the crate is in a corner
    (blocked by a wall or the edge of the grid on its left or right, and
    above or below). *)
Theorem _heuristic_spec (s : GameState) :
  grid_wf s →
  (∀ c, c ∈ crate_positions s → _in_bounds s c = true) →
  targets s ≠ ∅ →
  ∃ dist : Pos → Z,
    (∀ c, nearest_target_distance s c (dist c)) ∧
    _heuristic s
    = Some (if is_solved s then 0
            else sum_over (crate_positions s ∖ targets s)
                   (λ c, dist c + deadlock_penalty s c)).
Proof.
  intros Hwf Hcr Hne.
  exists (λ c, default 0 (py_min ((λ t, manhattan c t)
                                    <$> elements (targets s)))).
  split.
  - intros c.
    destruct (py_min_is_Some ((λ t, manhattan c t) <$> elements (targets s)))
      as [m Hm].
    { intros E. apply fmap_nil_inv in E.
      by apply elements_empty_inv, leibniz_equiv in E. }
    rewrite Hm. simpl. apply py_min_spec in Hm as [Hin Hle]. split.
    + apply list_elem_of_fmap in Hin as (t & -> & Ht).
      exists t. by rewrite <- elem_of_elements.
    + intros t Ht. apply Hle. apply list_elem_of_fmap.
      exists t. by rewrite elem_of_elements.
  - rewrite (_heuristic_sum s Hwf Hcr Hne). destruct (is_solved s); [done|].
    f_equal. unfold sum_over. apply foldr_sum_perm, unsolved_elements.
Qed.

Lemma _heuristic_spec_witness :
  ∃ dist : Pos → Z,
    (∀ c, nearest_target_distance state_corridor c (dist c)) ∧
    _heuristic state_corridor
    = Some (if is_solved state_corridor then 0
            else sum_over (crate_positions state_corridor
                           ∖ targets state_corridor)
                   (λ c, dist c + deadlock_penalty state_corridor c)).
Proof.
  apply (_heuristic_spec state_corridor).
  - apply state_corridor_wf.
  - intros c Hc. change (c ∈ ({[ (2, 1) ]} : gset Pos)) in Hc.
    apply elem_of_singleton in Hc as ->. reflexivity.
  - intros E. assert (H : (3, 1) ∈ targets state_corridor)
      by (change ((3, 1) ∈ ({[ (3, 1) ]} : gset Pos));
          by apply elem_of_singleton).
    rewrite E in H. by apply not_elem_of_empty in H.
Defined.

Example _heuristic_corridor : _heuristic state_corridor = Some 1.
Proof. vm_compute. reflexivity. Qed.

Example _heuristic_no_player : _heuristic state_no_player = Some 501.
Proof. vm_compute. reflexivity. Qed.

(** ** Mutation and copies *)

Lemma clone_eq (s : GameState) : clone s = s.
Proof. by destruct s. Qed.

Lemma lookup_fresh_ne {A} (m : gmap nat A) (k : nat) :
  is_Some (m !! k) → k ≠ fresh (dom m).
Proof. intros H ->. apply elem_of_dom in H. by apply is_fresh in H. Qed.

(** What [read] needs of the store. *)
Lemma read_Some (σ : Heap.Store) (l : Heap.loc) (s : GameState) :
  Heap.read σ l = Some s →
  ∃ o, Heap.st_states σ !! l = Some o ∧
       Heap.st_grids σ !! Heap.o_grid o = Some (grid s) ∧
       Heap.st_sets σ !! Heap.o_targets o = Some (targets s) ∧
       Heap.st_sets σ !! Heap.o_crate_positions o = Some (crate_positions s) ∧
       s = mkGameState (Heap.o_player_id o) (Heap.o_moves o) (Heap.o_pushes o)
             (Heap.o_start_time o) (Heap.o_end_time o) (Heap.o_is_playing o)
             (Heap.o_width o) (Heap.o_height o) (grid s) (Heap.o_player_pos o)
             (targets s) (crate_positions s) (Heap.o_initial_state o).
Proof.
  unfold Heap.read. intros H.
  destruct (Heap.st_states σ !! l) as [o|] eqn:Ho; [|done].
  simpl in H.
  destruct (Heap.st_grids σ !! Heap.o_grid o) as [g|] eqn:Hg; [|done].
  simpl in H.
  destruct (Heap.st_sets σ !! Heap.o_targets o) as [ts|] eqn:Ht;
    [|discriminate].
  simpl in H.
  destruct (Heap.st_sets σ !! Heap.o_crate_positions o) as [cs|] eqn:Hc;
    [|discriminate].
  simpl in H. injection H as <-. exists o. simpl. done.
Qed.

(** Two stores that agree on the objects a state is made of denote the same
    state. *)
Lemma read_agree (σ σ' : Heap.Store) (l : Heap.loc) (s : GameState) :
  Heap.read σ l = Some s →
  (∀ o, Heap.st_states σ !! l = Some o →
        Heap.st_states σ' !! l = Some o ∧
        Heap.st_grids σ' !! Heap.o_grid o = Heap.st_grids σ !! Heap.o_grid o ∧
        Heap.st_sets σ' !! Heap.o_targets o
        = Heap.st_sets σ !! Heap.o_targets o ∧
        Heap.st_sets σ' !! Heap.o_crate_positions o
        = Heap.st_sets σ !! Heap.o_crate_positions o) →
  Heap.read σ' l = Some s.
Proof.
  intros Hr Hag. destruct (read_Some σ l s Hr) as (o & Ho & _).
  destruct (Hag o Ho) as (Ho' & Eg & Et & Ec).
  unfold Heap.read in *. rewrite Ho in Hr. rewrite Ho'. simpl in *.
  by rewrite Eg, Et, Ec.
Qed.

(** The transition of the searches: the clone is moved, every state that
    was in the store before is the same after. *)
Lemma apply_move_frame (now : Z) (d : Direction) (l : Heap.loc)
    (σ : Heap.Store) (s : GameState) :
  Heap.read σ l = Some s →
  ∃ l' σ',
    Heap.apply_move now d l σ = Some ((move now d s).1, l', σ') ∧
    Heap.read σ' l' = Some (move now d s).2 ∧
    Heap.read σ l' = None ∧
    (∀ l0 s0, Heap.read σ l0 = Some s0 → Heap.read σ' l0 = Some s0).
Proof.
  intros Hr. destruct (read_Some σ l s Hr) as (o & Ho & Hg & Ht & Hc & Es).
  unfold Heap.apply_move, Heap.clone_obj. rewrite Ho, Hr. simpl.
  set (lg := fresh (dom (Heap.st_grids σ))).
  set (lt := fresh (dom (Heap.st_sets σ))).
  set (sets1 := <[lt := targets s]> (Heap.st_sets σ)).
  set (lc := fresh (dom sets1)).
  set (l' := fresh (dom (Heap.st_states σ))).
  assert (Hltc : lt ≠ lc).
  { apply lookup_fresh_ne. unfold sets1. rewrite lookup_insert_eq. eauto. }
  set (o1 := Heap.mkStateObj _ _ _ _ _ _ _ _ lg _ lt lc _).
  set (σ1 := Heap.mkStore _ _ _).
  assert (Hr1 : Heap.read σ1 l' = Some s).
  { unfold Heap.read, σ1. simpl. rewrite lookup_insert_eq. simpl.
    rewrite lookup_insert_eq. simpl.
    rewrite lookup_insert_ne by done. unfold sets1.
    rewrite lookup_insert_eq. simpl. rewrite lookup_insert_eq. simpl.
    by rewrite Es at 4. }
  unfold Heap.move_obj. rewrite Hr1.
  assert (Ho1 : Heap.st_states σ1 !! l' = Some o1)
    by (unfold σ1; simpl; apply lookup_insert_eq).
  rewrite Ho1. simpl.
  destruct (move_static now d s) as (Eg & Ew & Eh & Et & Ep & Ei).
  destruct (move now d s) as [ok s2]. simpl in *.
  eexists l', _. split; [reflexivity|].
  assert (Hold : ∀ l0 s0, Heap.read σ l0 = Some s0 →
            ∃ o0, Heap.st_states σ !! l0 = Some o0 ∧ l0 ≠ l' ∧
                  Heap.o_grid o0 ≠ lg ∧ Heap.o_targets o0 ≠ lt ∧
                  Heap.o_targets o0 ≠ lc ∧ Heap.o_crate_positions o0 ≠ lt ∧
                  Heap.o_crate_positions o0 ≠ lc).
  { intros l0 s0 Hr0.
    destruct (read_Some σ l0 s0 Hr0) as (o0 & Ho0 & Hg0 & Ht0 & Hc0 & _).
    exists o0. split; [done|].
    split; [apply lookup_fresh_ne; eauto|].
    split; [apply lookup_fresh_ne; eauto|].
    split; [apply lookup_fresh_ne; eauto|].
    split.
    { apply lookup_fresh_ne. unfold sets1.
      destruct (decide (lt = Heap.o_targets o0)) as [<-|Hn].
      - rewrite lookup_insert_eq. eauto.
      - rewrite lookup_insert_ne by done. eauto. }
    split; [apply lookup_fresh_ne; eauto|].
    apply lookup_fresh_ne. unfold sets1.
    destruct (decide (lt = Heap.o_crate_positions o0)) as [<-|Hn].
    - rewrite lookup_insert_eq. eauto.
    - rewrite lookup_insert_ne by done. eauto. }
  split; [|split].
  - unfold Heap.read. simpl. rewrite lookup_insert_eq. simpl.
    rewrite lookup_insert_eq. simpl.
    rewrite lookup_insert_ne by done.
    rewrite lookup_insert_ne by done. unfold sets1.
    rewrite lookup_insert_eq. simpl. rewrite lookup_insert_eq. simpl.
    f_equal. destruct s2. simpl in *. subst.
    rewrite Es. simpl. reflexivity.
  - destruct (Heap.read σ l') as [s'|] eqn:Hr'; [|done].
    destruct (Hold l' s' Hr') as (_ & _ & Hne & _). done.
  - intros l0 s0 Hr0.
    destruct (Hold l0 s0 Hr0) as (o0 & Ho0 & Hn1 & Hn2 & Hn3 & Hn4 & Hn5 & Hn6).
    apply (read_agree σ); [done|].
    intros o0' Ho0'. rewrite Ho0 in Ho0'. injection Ho0' as <-. simpl.
    rewrite !lookup_insert_ne by done. unfold sets1.
    rewrite !lookup_insert_ne by done. done.
Qed.

(** [move] works on its receiver: after an accepted move the object passed
    in denotes another state than before. *)
Lemma move_pure_as_specified_fails : ¬ move_pure_as_specified.
Proof.
  intros H.
  destruct (Heap.move_obj 0 RIGHT 0%nat (Heap.store_of state_corridor))
    as [[ok σ']|] eqn:E; [|vm_compute in E; discriminate].
  specialize (H 0 RIGHT 0%nat _ _ _ E).
  vm_compute in E. injection E as <- <-.
  vm_compute in H. discriminate.
Qed.

(** A rejected call of [move] is not without effect either: the first call
    on a state sets the playing flag and the start time. *)
Example move_rejected_sets_playing :
  (move 7 UP state_corridor).1 = false ∧
  is_playing (move 7 UP state_corridor).2 = true ∧
  start_time (move 7 UP state_corridor).2 = Some 7 ∧
  (move 7 UP state_corridor).2 ≠ state_corridor.
Proof. vm_compute. repeat split; discriminate. Qed.

(** C2, amended. [move] itself assigns to its receiver. The transition the
    searches and the fallback make, a clone followed by [move] on the clone,
    does not touch the state passed in: every state of the store, the one
    passed in among them, is the same afterwards; the Boolean and the new
    state are those of [move] on the value passed in, so a second call with
    the same state, direction and clock reading gives the same Boolean and an
    equal new state. [move] called directly and rejected leaves position,
    crates and both counters as they were, and the whole state when it was
    already playing. *)
Theorem apply_move_pure (now : Z) (d : Direction) (l : Heap.loc)
    (σ : Heap.Store) (s : GameState) :
  Heap.read σ l = Some s →
  (∃ l1 σ1 l2 σ2,
     Heap.apply_move now d l σ = Some ((move now d s).1, l1, σ1) ∧
     Heap.apply_move now d l σ1 = Some ((move now d s).1, l2, σ2) ∧
     Heap.read σ1 l = Some s ∧ Heap.read σ2 l = Some s ∧
     Heap.read σ1 l1 = Some (move now d s).2 ∧
     Heap.read σ2 l2 = Some (move now d s).2 ∧
     (∀ l0 s0, Heap.read σ l0 = Some s0 → Heap.read σ1 l0 = Some s0)) ∧
  ((move now d s).1 = false →
     player_pos (move now d s).2 = player_pos s ∧
     crate_positions (move now d s).2 = crate_positions s ∧
     moves (move now d s).2 = moves s ∧
     pushes (move now d s).2 = pushes s ∧
     (is_playing s = true → (move now d s).2 = s)).
Proof.
  intros Hr. split.
  - destruct (apply_move_frame now d l σ s Hr) as (l1 & σ1 & E1 & R1 & _ & F1).
    assert (Hr1 : Heap.read σ1 l = Some s) by (by apply F1).
    destruct (apply_move_frame now d l σ1 s Hr1)
      as (l2 & σ2 & E2 & R2 & _ & F2).
    exists l1, σ1, l2, σ2. repeat split; try done. by apply F2.
  - intros Hrej.
    destruct (move_rejected_frame now d s Hrej) as (Hp & Hc & Hm & Hpu & _).
    repeat split; try done.
    intros Hpl. by apply move_rejected_playing.
Qed.

Lemma apply_move_pure_witness :
  (∃ l1 σ1 l2 σ2,
     Heap.apply_move 0 RIGHT 0%nat (Heap.store_of state_corridor)
     = Some ((move 0 RIGHT state_corridor).1, l1, σ1) ∧
     Heap.apply_move 0 RIGHT 0%nat σ1
     = Some ((move 0 RIGHT state_corridor).1, l2, σ2) ∧
     Heap.read σ1 0%nat = Some state_corridor ∧
     Heap.read σ2 0%nat = Some state_corridor ∧
     Heap.read σ1 l1 = Some (move 0 RIGHT state_corridor).2 ∧
     Heap.read σ2 l2 = Some (move 0 RIGHT state_corridor).2 ∧
     (∀ l0 s0, Heap.read (Heap.store_of state_corridor) l0 = Some s0 →
               Heap.read σ1 l0 = Some s0)) ∧
  ((move 0 RIGHT state_corridor).1 = false →
     player_pos (move 0 RIGHT state_corridor).2 = player_pos state_corridor ∧
     crate_positions (move 0 RIGHT state_corridor).2
     = crate_positions state_corridor ∧
     moves (move 0 RIGHT state_corridor).2 = moves state_corridor ∧
     pushes (move 0 RIGHT state_corridor).2 = pushes state_corridor ∧
     (is_playing state_corridor = true →
      (move 0 RIGHT state_corridor).2 = state_corridor)).
Proof.
  apply (apply_move_pure 0 RIGHT 0%nat (Heap.store_of state_corridor)
           state_corridor).
  vm_compute. reflexivity.
Defined.

(** ** The A* search *)

Lemma for_each_inv {A B} (body : B → A → option B) (I : B → Prop)
    (l : list A) :
  (∀ acc a, I acc → ∃ acc', body acc a = Some acc' ∧ I acc') →
  ∀ acc, I acc → ∃ acc', for_each body acc l = Some acc' ∧ I acc'.
Proof.
  intros Hbody. induction l as [|a r IH]; intros acc Hacc; simpl; [eauto|].
  destruct (Hbody acc a Hacc) as (acc1 & -> & H1). simpl. by apply IH.
Qed.

Lemma pq_extract_perm (q : list AStarEntry) :
  ∀ e m rest, pq_extract e q = (m, rest) → m :: rest ≡ₚ e :: q.
Proof.
  induction q as [|e' r IH]; intros e m rest; simpl.
  - by intros [= <- <-].
  - destruct (pq_extract e' r) as [m' rest'] eqn:E.
    specialize (IH e' m' rest' E).
    destruct (entry_lt m' e); intros [= <- <-]; [|done].
    rewrite <- IH. apply Permutation_swap.
Qed.

(** Every state the program builds has a heuristic value. *)
Lemma _heuristic_is_Some (s : GameState) :
  state_ok s → is_Some (_heuristic s).
Proof.
  intros (Hwf & Hcr & Hsz & Hnt).
  rewrite (_heuristic_sum s); eauto.
  - intros c Hc. by apply Hcr.
  - intros E. rewrite E, size_empty in Hnt. lia.
Qed.

#[local] Opaque Direction_members.
#[local] Arguments for_each : simpl never.

Section AStar.

Variable elapsed : Z → Z.
Variable now : Z.

Lemma astar_try_inv (cur : GameState) (g : Z) (path : Path)
    (expanded : list Key) (d : Direction)
    (acc : list AStarEntry * gset Key * Z) :
  state_ok cur →
  astar_inv acc.1.1 expanded acc.1.2 →
  ∃ acc', astar_try now cur g path acc d = Some acc' ∧
          astar_inv acc'.1.1 expanded acc'.1.2.
Proof.
  intros Hcur Hinv. destruct acc as [[pq visited] counter]. simpl in Hinv.
  unfold astar_try. rewrite clone_eq.
  pose proof (move_ok now d cur Hcur) as Hok'.
  destruct (move now d cur) as [ok new_state]. simpl in Hok'.
  destruct ok; [|eauto].
  case_bool_decide as Hvis; [|eauto].
  destruct (_heuristic_is_Some new_state Hok') as [h ->]. simpl.
  eexists. split; [reflexivity|]. simpl.
  destruct Hinv as (Hst & Hnd & Hsub).
  unfold pq_put. split; [|split].
  - apply Forall_app. split; [done|]. by constructor.
  - rewrite fmap_app. simpl. rewrite <- (assoc_L (++)). simpl.
    apply NoDup_app. apply NoDup_app in Hnd as (Hnd1 & Hnd2 & Hnd3).
    split; [done|]. split.
    + intros k Hk [->|Hk']%elem_of_cons.
      * apply Hvis, Hsub, elem_of_app. by left.
      * by apply (Hnd2 k).
    + apply NoDup_cons. split; [|done].
      intros Hin. apply Hvis, Hsub, elem_of_app. by right.
  - intros k Hk. rewrite fmap_app in Hk. simpl in Hk.
    apply elem_of_union.
    apply elem_of_app in Hk as [[Hk|Hk]%elem_of_app|Hk].
    + left. apply Hsub, elem_of_app. by left.
    + right. apply elem_of_singleton.
      by apply list_elem_of_singleton in Hk.
    + left. apply Hsub, elem_of_app. by right.
Qed.

(** The A* loop returns, whatever the clock says, as long as the allowance
    covers what is left of the node ceiling; the keys it expanded are
    pairwise distinct. *)
Lemma astar_loop_total (max_time max_nodes : Z) (fuel : nat) :
  ∀ v : AStarVars,
  astar_inv (a_pq v) (a_expanded v) (a_visited v) →
  max_nodes - a_nodes_explored v ≤ Z.of_nat fuel → (1 ≤ fuel)%nat →
  ∃ r, astar_loop elapsed now max_time max_nodes fuel v = Returned r ∧
       NoDup (sr_expanded r).
Proof.
  induction fuel as [|fuel IH]; intros v Hinv Hfuel Hpos; [lia|].
  assert (Hexp : NoDup (a_expanded v)).
  { destruct Hinv as (_ & Hnd & _). by apply NoDup_app in Hnd as (_ & _ & ?). }
  simpl. destruct (a_pq v) as [|e0 q] eqn:Hpq.
  { unfold astar_after_loop. eauto. }
  case_bool_decide as Htime; [eauto|].
  unfold pq_get.
  destruct (pq_extract e0 q) as [entry pq] eqn:Hext.
  apply pq_extract_perm in Hext.
  destruct Hinv as (Hst & Hnd & Hsub).
  rewrite <- Hext in Hst, Hnd.
  assert (Hsub' : ∀ k, k ∈ (entry_key <$> entry :: pq) ++ a_expanded v →
                       k ∈ a_visited v).
  { intros k Hk. apply Hsub. by rewrite <- Hext. }
  clear Hsub. rename Hsub' into Hsub. simpl in Hnd, Hsub.
  apply Forall_cons in Hst as [Hentry Hst].
  destruct (_heuristic_is_Some _ Hentry) as [h ->].
  assert (Hnd' : NoDup ((entry_key <$> pq)
                        ++ _get_state_hash (e_state entry) :: a_expanded v)).
  { eapply NoDup_Permutation_proper; [|exact Hnd].
    symmetry. apply Permutation_middle. }
  assert (Hexp' : NoDup (_get_state_hash (e_state entry) :: a_expanded v)).
  { by apply NoDup_app in Hnd' as (_ & _ & ?). }
  destruct (is_solved (e_state entry)); [eauto|].
  destruct (for_each_inv (astar_try now (e_state entry) (e_g entry)
                            (e_path entry))
              (λ acc, astar_inv acc.1.1
                        (_get_state_hash (e_state entry) :: a_expanded v)
                        acc.1.2)
              Direction_members) with (acc := (pq, a_visited v, a_counter v))
    as ([[pq' visited'] counter'] & -> & Hinv').
  { intros acc d Hacc. by apply astar_try_inv. }
  { simpl. split; [done|]. split; [done|].
    intros k Hk. apply Hsub.
    apply elem_of_app in Hk as [Hk|[->|Hk]%elem_of_cons].
    - apply elem_of_cons. right. apply elem_of_app. by left.
    - apply elem_of_cons. by left.
    - apply elem_of_cons. right. apply elem_of_app. by right. }
  simpl in Hinv'.
  case_bool_decide as Hlimit.
  { unfold astar_after_loop. simpl.
    match goal with |- context [match ?b with [] => _ | _ :: _ => _ end] =>
      destruct b end; eauto. }
  apply IH; simpl; [done|lia|lia].
Qed.

(** The invariant holds when the loop is entered. *)
Lemma astar_inv_initial (initial_state : GameState) (h : Z) :
  state_ok initial_state →
  astar_inv (pq_put (mkAStarEntry h 0 initial_state 0 []) []) []
    (∅ ∪ {[_get_state_hash initial_state]}).
Proof.
  intros Hok. unfold pq_put. simpl.
  split; [constructor; [exact Hok|constructor]|]. split.
  - apply NoDup_singleton.
  - intros k Hk%list_elem_of_singleton. subst k.
    apply elem_of_union. right. by apply elem_of_singleton.
Qed.

Lemma astar_max_nodes_pos (difficulty : string) :
  (1 ≤ Z.to_nat (astar_max_nodes difficulty))%nat.
Proof. unfold astar_max_nodes. repeat case_bool_decide; lia. Qed.

(** The A* search returns on every state the program builds. *)
Lemma AStarSearch_search_total (initial_state : GameState) (max_time : Z)
    (difficulty : string) :
  state_ok initial_state →
  ∃ r, AStarSearch_search elapsed now initial_state max_time difficulty
       = Returned r.
Proof.
  intros Hok. unfold AStarSearch_search, astar_search_with.
  destruct (_heuristic_is_Some _ Hok) as [h ->].
  destruct (astar_loop_total max_time (astar_max_nodes difficulty)
              (Z.to_nat (astar_max_nodes difficulty))
              (mkAStarVars (pq_put (mkAStarEntry h 0 initial_state 0 []) [])
                 0 (∅ ∪ {[_get_state_hash initial_state]}) 0 None None [] []))
    as (r & Hr & _); [by apply astar_inv_initial|simpl; lia
                     |apply astar_max_nodes_pos|eauto].
Qed.

(** C4. Within one call of the A* search no canonical key is expanded
    twice: the call returns, and the keys of the states it took from the
    priority queue, in the order it took them, are pairwise distinct. *)
Theorem AStarSearch_expands_once (initial_state : GameState) (max_time : Z)
    (difficulty : string) :
  state_ok initial_state →
  ∃ r, AStarSearch_search elapsed now initial_state max_time difficulty
       = Returned r ∧
       NoDup (sr_expanded r).
Proof.
  intros Hok. unfold AStarSearch_search, astar_search_with.
  destruct (_heuristic_is_Some _ Hok) as [h ->].
  apply astar_loop_total.
  - by apply astar_inv_initial.
  - simpl. lia.
  - apply astar_max_nodes_pos.
Qed.

End AStar.

Lemma AStarSearch_expands_once_witness :
  ∃ r, AStarSearch_search (λ _, 0) 0 state_corridor 5000 "easy" = Returned r ∧
       NoDup (sr_expanded r).
Proof.
  apply (AStarSearch_expands_once (λ _, 0) 0 state_corridor 5000 "easy").
  apply (GameState_init_ok level_corridor "ai"). vm_compute. reflexivity.
Defined.

(** ** BFS and DFS always return *)

Section Total.

Variable elapsed : Z → Z.
Variable now : Z.

Lemma bfs_loop_total (max_time max_nodes : Z) (fuel : nat) :
  ∀ v : BFSVars,
  max_nodes - b_nodes_explored v ≤ Z.of_nat fuel → (1 ≤ fuel)%nat →
  ∃ r, bfs_loop elapsed now max_time max_nodes fuel v = Returned r.
Proof.
  induction fuel as [|fuel IH]; intros v Hfuel Hpos; [lia|].
  simpl. destruct (b_queue v) as [|[current_state path] queue]; [eauto|].
  case_bool_decide; [eauto|].
  destruct (is_solved current_state); [eauto|].
  destruct (foldl (bfs_try now current_state path) _ _) as [queue' visited'].
  case_bool_decide.
  { match goal with |- context [match ?b with [] => _ | _ :: _ => _ end] =>
      destruct b end; eauto. }
  apply IH; simpl; lia.
Qed.

Lemma BFSSearch_search_total (initial_state : GameState) (max_time : Z)
    (difficulty : string) :
  ∃ r, BFSSearch_search elapsed now initial_state max_time difficulty
       = Returned r.
Proof.
  unfold BFSSearch_search, bfs_search_with. apply bfs_loop_total; simpl.
  - lia.
  - unfold bfs_max_nodes. repeat case_bool_decide; lia.
Qed.

Lemma dfs_try_length (cur : GameState) (path : Path) (depth : Z)
    (dirs : list Direction) :
  ∀ acc, (length (foldl (dfs_try now cur path depth) acc dirs).1
          ≤ length acc.1 + length dirs)%nat.
Proof.
  induction dirs as [|d dirs IH]; intros acc; simpl; [lia|].
  etransitivity; [apply IH|].
  destruct acc as [stack visited]. unfold dfs_try.
  destruct (move now d (clone cur)) as [[] new_state]; simpl; [|lia].
  case_bool_decide; simpl; lia.
Qed.

Lemma dfs_loop_total (max_time max_nodes max_depth : Z) (fuel : nat) :
  ∀ v : DFSVars,
  Z.of_nat (length (d_stack v))
  + 5 * Z.max 0 (max_nodes - d_nodes_explored v) < Z.of_nat fuel →
  ∃ r, dfs_loop elapsed now max_time max_nodes max_depth fuel v = Returned r.
Proof.
  induction fuel as [|fuel IH]; intros v Hfuel; [lia|].
  simpl. destruct (d_stack v) as [|[[current_state path] depth] stack]; [eauto|].
  simpl in Hfuel.
  case_bool_decide; [eauto|].
  destruct (is_solved current_state); [eauto|].
  case_bool_decide.
  { apply IH. simpl. lia. }
  pose proof (dfs_try_length current_state path depth Direction_members
                (stack, d_visited v)) as Hlen.
  destruct (foldl (dfs_try now current_state path depth) _ _)
    as [stack' visited'].
  simpl in Hlen.
  case_bool_decide.
  { match goal with |- context [match ?b with [] => _ | _ :: _ => _ end] =>
      destruct b end; eauto. }
  apply IH. simpl. change (length Direction_members) with 4%nat in Hlen. lia.
Qed.

Lemma DFSSearch_search_total (initial_state : GameState) (max_time : Z)
    (difficulty : string) :
  ∃ r, DFSSearch_search elapsed now initial_state max_time difficulty
       = Returned r.
Proof.
  unfold DFSSearch_search, dfs_search_with. apply dfs_loop_total. simpl.
  unfold dfs_max_nodes. repeat case_bool_decide; lia.
Qed.

End Total.

(** ** The controller *)

(** Between two calls the controller is never in the middle of a search. *)
Lemma controller_state_idle (c : AIController) :
  controller_state c → is_thinking c = false.
Proof.
  induction 1 as [alg diff | elapsed now c c' s b Hc IH Hcomp
                  | order now c c' s m Hc IH Hnext | c Hc IH].
  - unfold AIController_init. repeat case_bool_decide; reflexivity.
  - unfold compute_solution in Hcomp. rewrite IH in Hcomp.
    destruct (search_algorithm_search _ _ _ _ _ _) as [r| |]; try discriminate.
    destruct (sr_value r) as [[|m p]|]; injection Hcomp as <- <-; reflexivity.
  - unfold get_next_move in Hnext.
    destruct (using_fallback c).
    + by injection Hnext as <- <-.
    + case_bool_decide.
      * destruct (py_index _ _); [|discriminate].
        by injection Hnext as <- <-.
      * by injection Hnext as <- <-.
  - reflexivity.
Qed.

(** Each of the three searches returns on every state the program builds. *)
Lemma search_algorithm_search_total (elapsed : Z → Z) (now : Z)
    (alg : SearchAlgorithm) (s : GameState) (max_time : Z)
    (difficulty : string) :
  state_ok s →
  ∃ r, search_algorithm_search elapsed now alg s max_time difficulty
       = Returned r.
Proof.
  intros Hok. destruct alg; simpl.
  - by apply AStarSearch_search_total.
  - apply BFSSearch_search_total.
  - apply DFSSearch_search_total.
Qed.

(** C1. On every state the program can build, [compute_solution] returns
    [True]. It leaves the controller with a non-empty path and the cursor at
    zero, or in fallback mode; [has_solution] is then true. *)
Theorem compute_solution_never_fails (elapsed : Z → Z) (now : Z)
    (c : AIController) (s : GameState) :
  controller_state c → constructed s →
  ∃ c', compute_solution elapsed now c s = Returned (true, c') ∧
        ((solution_path c' ≠ [] ∧ current_step c' = 0) ∨
         using_fallback c' = true) ∧
        has_solution c' = true.
Proof.
  intros Hc Hs. apply controller_state_idle in Hc. apply constructed_ok in Hs.
  unfold compute_solution. rewrite Hc.
  destruct (search_algorithm_search_total elapsed now (search_algorithm c) s
              (search_times_get (difficulty c)) (difficulty c) Hs) as [r ->].
  destruct (sr_value r) as [[|m p]|]; eexists; (split; [reflexivity|]).
  - split; [by right|reflexivity].
  - split; [by left|reflexivity].
  - split; [by right|reflexivity].
Qed.

Lemma state_corridor_constructed : constructed state_corridor.
Proof.
  exists level_corridor, "ai"%string, state_corridor.
  split; [vm_compute; reflexivity|apply reachable_refl].
Qed.

Lemma compute_solution_never_fails_witness :
  ∃ c', compute_solution (λ _, 0) 0 (AIController_init "bfs" "easy")
          state_corridor = Returned (true, c') ∧
        ((solution_path c' ≠ [] ∧ current_step c' = 0) ∨
         using_fallback c' = true) ∧
        has_solution c' = true.
Proof.
  apply (compute_solution_never_fails (λ _, 0) 0
           (AIController_init "bfs" "easy") state_corridor).
  - apply controller_new.
  - exists level_corridor, "ai"%string, state_corridor.
    split; [vm_compute; reflexivity|apply reachable_refl].
Defined.

Example compute_solution_corridor :
  compute_solution (λ _, 0) 0 (AIController_init "bfs" "easy") state_corridor
  = Returned (true, mkAIController "bfs" "easy" BFSSearch [RIGHT] 0 false false).
Proof. vm_compute. reflexivity. Qed.

(** ** A state that is already solved *)

Lemma filter_not_in_nil (X : gset Pos) (l : list Pos) :
  (∀ c, c ∈ l → c ∈ X) → filter (λ c, c ∉ X) l = [].
Proof.
  induction l as [|c r IH]; intros Hin; [done|].
  rewrite filter_cons_False.
  - apply IH. intros c' Hc'. apply Hin. by apply list_elem_of_further.
  - intros Hn. apply Hn, Hin. apply list_elem_of_here.
Qed.

(** With nothing left to push the fallback has no move. *)
Lemma SimpleGreedyFallback_solved (crate_order : list Pos) (now : Z)
    (s : GameState) :
  is_solved s = true → crate_order ≡ₚ elements (crate_positions s) →
  SimpleGreedyFallback_get_next_move crate_order now s = None.
Proof.
  intros Hs Hperm. apply bool_decide_eq_true in Hs.
  unfold SimpleGreedyFallback_get_next_move.
  rewrite filter_not_in_nil; [done|].
  intros c Hc. rewrite Hperm in Hc. apply elem_of_elements in Hc.
  by rewrite <- Hs.
Qed.

Section Solved.

Variable elapsed : Z → Z.
Variable now : Z.

(** On a solved state each search stops in its first iteration, with the
    empty path or, when the clock has already run out, with nothing. *)
Lemma search_solved (alg : SearchAlgorithm) (s : GameState) (max_time : Z)
    (difficulty : string) :
  state_ok s → is_solved s = true →
  ∃ r, search_algorithm_search elapsed now alg s max_time difficulty
       = Returned r ∧
       (sr_value r = Some [] ∨ sr_value r = None).
Proof.
  intros Hok Hsolved. destruct alg; simpl.
  - unfold AStarSearch_search, astar_search_with.
    destruct (_heuristic_is_Some s Hok) as [h Hh]. rewrite Hh.
    destruct (Z.to_nat (astar_max_nodes difficulty)) as [|fuel] eqn:Hfuel.
    { unfold astar_max_nodes in Hfuel. repeat case_bool_decide; lia. }
    simpl. case_bool_decide; [eauto|].
    rewrite Hh, Hsolved. eauto.
  - unfold BFSSearch_search, bfs_search_with.
    destruct (Z.to_nat (bfs_max_nodes difficulty)) as [|fuel] eqn:Hfuel.
    { unfold bfs_max_nodes in Hfuel. repeat case_bool_decide; lia. }
    simpl. case_bool_decide; [eauto|].
    rewrite Hsolved. eauto.
  - unfold DFSSearch_search, dfs_search_with.
    destruct (Z.to_nat (5 * dfs_max_nodes difficulty + 2)) as [|fuel] eqn:Hfuel.
    { unfold dfs_max_nodes in Hfuel. repeat case_bool_decide; lia. }
    simpl. case_bool_decide; [eauto|].
    rewrite Hsolved. eauto.
Qed.

(** C9. When [compute_solution] is called on a state that is already
    solved, the search yields the empty path or none, and the controller goes
    into fallback mode: from then on [has_solution] is true, while
    [get_next_move], asked about a solved state, answers [None] and leaves
    the controller as it is, so on every call and in whatever order the
    crate set iterates. *)
Theorem compute_solution_on_solved (c : AIController) (s : GameState) :
  controller_state c → constructed s → is_solved s = true →
  ∃ c', compute_solution elapsed now c s = Returned (true, c') ∧
        using_fallback c' = true ∧ solution_path c' = [] ∧
        has_solution c' = true ∧
        ∀ crate_order now' s',
          is_solved s' = true →
          crate_order ≡ₚ elements (crate_positions s') →
          get_next_move crate_order now' c' s' = Returned (None, c').
Proof.
  intros Hc Hs Hsolved.
  apply controller_state_idle in Hc. apply constructed_ok in Hs.
  unfold compute_solution. rewrite Hc.
  destruct (search_solved (search_algorithm c) s
              (search_times_get (difficulty c)) (difficulty c) Hs Hsolved)
    as (r & -> & [Hv|Hv]); rewrite Hv; eexists;
    (split; [reflexivity|]); repeat (split; [reflexivity|]);
    intros crate_order now' s' Hs' Hperm; unfold get_next_move; simpl;
    by rewrite SimpleGreedyFallback_solved.
Qed.

End Solved.

Lemma state_solved_constructed : constructed state_solved.
Proof.
  exists level_solved, "ai"%string, state_solved.
  split; [vm_compute; reflexivity|apply reachable_refl].
Qed.

Lemma compute_solution_on_solved_witness :
  ∃ c', compute_solution (λ _, 0) 0 (AIController_init "astar" "medium")
          state_solved = Returned (true, c') ∧
        using_fallback c' = true ∧ solution_path c' = [] ∧
        has_solution c' = true ∧
        ∀ crate_order now' s',
          is_solved s' = true →
          crate_order ≡ₚ elements (crate_positions s') →
          get_next_move crate_order now' c' s' = Returned (None, c').
Proof.
  apply (compute_solution_on_solved (λ _, 0) 0
           (AIController_init "astar" "medium") state_solved).
  - apply controller_new.
  - exists level_solved, "ai"%string, state_solved.
    split; [vm_compute; reflexivity|apply reachable_refl].
  - vm_compute. reflexivity.
Defined.

(** ** Paths and keys *)

Lemma same_board_refl (s : GameState) : same_board s s.
Proof. by unfold same_board. Qed.

Lemma same_board_move (now : Z) (d : Direction) (s s0 : GameState) :
  same_board s s0 → same_board (move now d s).2 s0.
Proof.
  intros (Hg & Hw & Hh & Ht).
  destruct (move_static now d s) as (Eg & Ew & Eh & Et & _).
  unfold same_board. by rewrite Eg, Ew, Eh, Et.
Qed.

Lemma same_board_run (now : Z) (p : Path) :
  ∀ s s0, same_board s s0 → same_board (run_path now p s) s0.
Proof.
  induction p as [|d r IH]; intros s s0 H; [done|].
  simpl. apply IH. by apply same_board_move.
Qed.

Lemma same_board_play (q : list (Z * Direction)) :
  ∀ s s0, same_board s s0 → same_board (play_moves q s) s0.
Proof.
  induction q as [|m r IH]; intros s s0 H; [done|].
  simpl. apply IH. by apply same_board_move.
Qed.

(** Whether a move is accepted, and the key it leads to, depend on the
    board and on the key of the state only: not on the clock, the counters
    or the timestamps. *)
Lemma move_key_det (t1 t2 : Z) (d : Direction) (s1 s2 : GameState) :
  same_board s1 s2 → _get_state_hash s1 = _get_state_hash s2 →
  (move t1 d s1).1 = (move t2 d s2).1 ∧
  _get_state_hash (move t1 d s1).2 = _get_state_hash (move t2 d s2).2.
Proof.
  intros (Hg & Hw & Hh & _) Hkey. unfold _get_state_hash in *.
  injection Hkey as Hp Hc.
  assert (Hib : ∀ p, _in_bounds s1 p = _in_bounds s2 p)
    by (intros p; by apply in_bounds_ext).
  pose proof (move_cases t1 d s1) as H1.
  pose proof (move_cases t2 d s2) as H2. cbv zeta in H1, H2.
  rewrite <- Hp, <- Hc, <- Hg in H2. rewrite <- !Hib in H2.
  set (target := step_pos (player_pos s1) d) in *.
  set (beyond := step_pos target d) in *.
  destruct H1 as [(-> & -> & -> & _ & _ & R1)
    | [(-> & B1 & (u1 & G1 & W1) & N1 & -> & -> & _)
      | (-> & B1 & (u1 & G1 & W1) & I1 & B1' & (u1' & G1' & W1') & N1'
           & -> & -> & _)]];
  destruct H2 as [(-> & -> & -> & _ & _ & R2)
    | [(-> & B2 & (u2 & G2 & W2) & N2 & -> & -> & _)
      | (-> & B2 & (u2 & G2 & W2) & I2 & B2' & (u2' & G2' & W2') & N2'
           & -> & -> & _)]];
  try done; exfalso;
  repeat match goal with
  | H : _ ∨ _ |- _ => destruct H
  | H : _ ∧ _ |- _ => destruct H
  end; congruence.
Qed.

Lemma run_path_snoc (now : Z) (p : Path) (d : Direction) (s : GameState) :
  run_path now (p ++ [d]) s = (move now d (run_path now p s)).2.
Proof. unfold run_path. by rewrite foldl_app. Qed.

Lemma play_moves_snoc (q : list (Z * Direction)) (m : Z * Direction)
    (s : GameState) :
  play_moves (q ++ [m]) s = (move m.1 m.2 (play_moves q s)).2.
Proof. unfold play_moves. by rewrite foldl_app. Qed.

Lemma accepted_path_snoc (now : Z) (p : Path) (d : Direction) :
  ∀ s, accepted_path now p s → (move now d (run_path now p s)).1 = true →
       accepted_path now (p ++ [d]) s.
Proof.
  induction p as [|d' r IH]; intros s Hacc Hok; simpl in *; [done|].
  destruct Hacc as [H1 H2]. split; [done|]. by apply IH.
Qed.

Lemma move_rejected_key (now : Z) (d : Direction) (s : GameState) :
  (move now d s).1 = false →
  _get_state_hash (move now d s).2 = _get_state_hash s.
Proof.
  intros H. destruct (move_rejected_frame now d s H) as (Hp & Hc & _).
  unfold _get_state_hash. by rewrite Hp, Hc.
Qed.

(** ** Counting paths *)

#[local] Transparent Direction_members.

Lemma elem_of_Direction_members (d : Direction) : d ∈ Direction_members.
Proof. apply list_elem_of_In. destruct d; simpl; tauto. Qed.

Lemma elem_of_paths_of_length (p : Path) : p ∈ paths_of_length (length p).
Proof.
  induction p as [|d r IH]; [apply list_elem_of_here|].
  change (d :: r ∈ Direction_members
                   ≫= λ d, (λ p, d :: p) <$> paths_of_length (length r)).
  apply list_elem_of_bind. exists d. split.
  - apply list_elem_of_fmap. eauto.
  - apply elem_of_Direction_members.
Qed.

Lemma paths_upto_mono (m k : nat) (p : Path) :
  p ∈ paths_upto m → p ∈ paths_upto (m + k).
Proof.
  intros H. induction k as [|k IH].
  - by rewrite Nat.add_0_r.
  - rewrite Nat.add_succ_r. simpl paths_upto. apply elem_of_app. by left.
Qed.

Lemma elem_of_paths_upto (m : nat) (p : Path) :
  (length p ≤ m)%nat → p ∈ paths_upto m.
Proof.
  intros H. replace m with (length p + (m - length p))%nat by lia.
  apply paths_upto_mono. destruct p as [|d r].
  - apply list_elem_of_here.
  - change (d :: r ∈ paths_upto (length r)
                     ++ paths_of_length (length (d :: r))).
    apply elem_of_app. right. apply elem_of_paths_of_length.
Qed.

Lemma length_paths_of_length (n : nat) :
  length (paths_of_length n) = (4 ^ n)%nat.
Proof.
  induction n as [|n IH]; [done|].
  change (paths_of_length (S n))
    with (Direction_members ≫= λ d, (λ p, d :: p) <$> paths_of_length n).
  change Direction_members with [UP; DOWN; LEFT; RIGHT].
  simpl mbind. rewrite !length_app, !length_fmap, IH. simpl. lia.
Qed.

Lemma length_paths_upto (m : nat) :
  (length (paths_upto m) < 4 ^ S m)%nat.
Proof.
  induction m as [|m IH]; [simpl; lia|].
  change (paths_upto (S m)) with (paths_upto m ++ paths_of_length (S m)).
  rewrite length_app, length_paths_of_length.
  change (4 ^ S (S m))%nat with (4 * 4 ^ S m)%nat. lia.
Qed.

#[local] Opaque Direction_members.

(** Distinct keys, each the key of its path: no more of them than there are
    paths. *)
Lemma expanded_count (now : Z) (s0 : GameState) (m : nat)
    (E : list (Key * Path)) :
  NoDup E.*1 →
  Forall (λ x, x.1 = _get_state_hash (run_path now x.2 s0) ∧
               (length x.2 ≤ m)%nat) E →
  (length E ≤ length (paths_upto m))%nat.
Proof.
  intros Hnd Hall.
  assert (Ekeys : E.*1 = (λ p, _get_state_hash (run_path now p s0)) <$> E.*2).
  { clear Hnd. induction Hall as [|x E [Hx _] _ IH]; [done|].
    rewrite !fmap_cons. f_equal; [exact Hx|exact IH]. }
  rewrite Ekeys in Hnd. apply NoDup_fmap_1 in Hnd.
  rewrite <- (length_fmap snd E).
  apply submseteq_length, NoDup_submseteq; [done|].
  intros p Hp. apply elem_of_paths_upto.
  apply list_elem_of_fmap in Hp as (x & -> & Hx).
  by apply (proj1 (Forall_forall _ _) Hall x Hx).
Qed.

(** ** The BFS *)

Section BFS.

Variable elapsed : Z → Z.
Variable now : Z.
Variable s0 : GameState.

Lemma bfs_try_eq (cur : GameState) (path : Path)
    (Q : list (GameState * Path)) (V : gset Key) (d : Direction) :
  bfs_try now cur path (Q, V) d
  = if (move now d cur).1
    then if bool_decide (_get_state_hash (move now d cur).2 ∉ V)
         then (Q ++ [((move now d cur).2, path ++ [d])],
               V ∪ {[_get_state_hash (move now d cur).2]})
         else (Q, V)
    else (Q, V).
Proof. unfold bfs_try. rewrite clone_eq. by destruct (move now d cur) as [[] ?]. Qed.

(** The loop over the four directions: the queue grows at its end by the
    accepted moves to keys not yet visited, and afterwards the key behind
    every accepted move is visited. *)
Lemma bfs_try_fold (cur : GameState) (path : Path) :
  cur = run_path now path s0 → accepted_path now path s0 →
  ∀ (dirs : list Direction) (Q : list (GameState * Path)) (V : gset Key),
  ∃ new,
    (foldl (bfs_try now cur path) (Q, V) dirs).1 = Q ++ new ∧
    Forall (λ e, (e.1 = run_path now e.2 s0 ∧ accepted_path now e.2 s0) ∧
                 length e.2 = S (length path)) new ∧
    (∀ k, k ∈ (foldl (bfs_try now cur path) (Q, V) dirs).2
          ↔ k ∈ V ∨ k ∈ bfs_key <$> new) ∧
    NoDup (bfs_key <$> new) ∧
    (∀ k, k ∈ bfs_key <$> new → k ∉ V) ∧
    (∀ d, d ∈ dirs → (move now d cur).1 = true →
          _get_state_hash (move now d cur).2
          ∈ (foldl (bfs_try now cur path) (Q, V) dirs).2).
Proof.
  intros Hcur Hacc. induction dirs as [|d dirs IH]; intros Q V.
  { exists []. simpl. rewrite app_nil_r.
    split; [done|]. split; [constructor|]. split.
    { intros k. split; [by left|]. intros [?|Hk]; [done|].
      by apply elem_of_nil in Hk. }
    split; [constructor|]. split.
    { intros k Hk. by apply elem_of_nil in Hk. }
    intros d Hd. by apply elem_of_nil in Hd. }
  change (foldl (bfs_try now cur path) (Q, V) (d :: dirs))
    with (foldl (bfs_try now cur path) (bfs_try now cur path (Q, V) d) dirs).
  rewrite bfs_try_eq.
  set (ns := (move now d cur).2).
  destruct (move now d cur).1 eqn:Hm.
  2:{ destruct (IH Q V) as (new & H1 & H2 & H3 & H4 & H5 & H6).
      exists new. repeat (split; [done|]).
      intros d' [->|Hd']%elem_of_cons Hok.
      - rewrite Hm in Hok. discriminate.
      - by apply H6. }
  case_bool_decide as Hvis.
  2:{ destruct (IH Q V) as (new & H1 & H2 & H3 & H4 & H5 & H6).
      exists new. repeat (split; [done|]).
      intros d' [->|Hd']%elem_of_cons Hok.
      - apply H3. by left.
      - by apply H6. }
  destruct (IH (Q ++ [(ns, path ++ [d])]) (V ∪ {[_get_state_hash ns]}))
    as (new & H1 & H2 & H3 & H4 & H5 & H6).
  exists ((ns, path ++ [d]) :: new).
  split; [by rewrite H1, <- (assoc_L (++))|].
  split.
  { constructor; [|done]. simpl. split; [split|].
    - unfold ns. by rewrite run_path_snoc, <- Hcur.
    - apply accepted_path_snoc; [done|]. by rewrite <- Hcur, Hm.
    - rewrite length_app. simpl. lia. }
  split.
  { intros k. rewrite H3, fmap_cons, elem_of_cons, elem_of_union,
      elem_of_singleton. unfold bfs_key at 2. simpl. tauto. }
  split.
  { rewrite fmap_cons. apply NoDup_cons. split; [|done].
    intros Hin. apply H5 in Hin. apply Hin, elem_of_union. right.
    by apply elem_of_singleton. }
  split.
  { intros k. rewrite fmap_cons, elem_of_cons. intros [->|Hk].
    - done.
    - apply H5 in Hk. intros HV. apply Hk, elem_of_union. by left. }
  intros d' [->|Hd']%elem_of_cons Hok.
  - apply H3. left. apply elem_of_union. right. by apply elem_of_singleton.
  - by apply H6.
Qed.

(** Read at its head, the queue has paths no shorter than the first, and
    the invariant holds with the length of the first path for [n]. *)
Lemma bfs_inv_head (n : nat) (E : list (Key * Path)) (v : BFSVars)
    (cur : GameState) (path : Path) (queue : list (GameState * Path)) :
  bfs_inv now s0 n E v → b_queue v = (cur, path) :: queue →
  bfs_inv now s0 (length path) E v ∧
  ∃ Q1 Q2, queue = Q1 ++ Q2 ∧
           Forall (λ e, length e.2 = length path) Q1 ∧
           Forall (λ e, length e.2 = S (length path)) Q2.
Proof.
  intros [Hq (Q1 & Q2 & HQ & F1 & F2) He Hc Hv Hnd Hr Hn] Hqueue.
  rewrite Hqueue in HQ. destruct Q1 as [|e Q1].
  - simpl in HQ. subst Q2. apply Forall_cons in F2 as [Hlen F2].
    simpl in Hlen. rewrite Hlen. split.
    + split; try done.
      * exists ((cur, path) :: queue), []. rewrite app_nil_r.
        split; [done|]. split; [|constructor].
        constructor; [exact Hlen|exact F2].
      * eapply Forall_impl; [exact He|]. simpl.
        intros x (? & ? & ?). repeat split; try done. lia.
    + exists queue, []. rewrite app_nil_r. split; [done|].
      split; [exact F2|constructor].
  - injection HQ as <- ->. apply Forall_cons in F1 as [Hlen F1].
    simpl in Hlen. subst n. split; [|eauto].
    split; try done. exists ((cur, path) :: Q1), Q2.
    split; [done|]. split; [|done]. by constructor.
Qed.

(** A sequence of moves shorter than every path in the queue leads to an
    expanded key. *)
Lemma bfs_short_expanded (n : nat) (E : list (Key * Path)) (v : BFSVars) :
  bfs_inv now s0 n E v →
  ∀ q : list (Z * Direction),
  (∀ e, e ∈ b_queue v → (length q < length e.2)%nat) →
  ∃ x, x ∈ E ∧ x.1 = _get_state_hash (play_moves q s0) ∧
       (length x.2 ≤ length q)%nat.
Proof.
  intros Hinv q. induction q as [|m q IH] using rev_ind; intros Hlt.
  - destruct (inv_root _ _ _ _ _ Hinv) as [(x & Hx & Hk & Hl)|(e & He & _ & Hl)].
    + exists x. simpl. done.
    + apply Hlt in He. simpl in He. lia.
  - rewrite length_app in *. simpl in *.
    destruct IH as (x & Hx & Hk & Hl).
    { intros e He. apply Hlt in He. lia. }
    rewrite play_moves_snoc.
    destruct (inv_closed _ _ _ _ _ Hinv x m.1 m.2 (play_moves q s0) Hx)
      as [(x' & Hx' & Hk' & Hl')|(e & He & _ & Hl')].
    + apply same_board_play, same_board_refl.
    + done.
    + exists x'. split; [done|]. split; [done|]. lia.
    + apply Hlt in He. lia.
Qed.

(** While a solution of [length q] moves exists, the queue holds a path of
    that length at most. *)
Lemma bfs_solvable_queue (n : nat) (E : list (Key * Path)) (v : BFSVars)
    (q : list (Z * Direction)) :
  bfs_inv now s0 n E v → is_solved (play_moves q s0) = true →
  ∃ e, e ∈ b_queue v ∧ (length e.2 ≤ length q)%nat.
Proof.
  intros Hinv Hsolved.
  destruct (decide (Exists (λ e, length e.2 ≤ length q)%nat (b_queue v)))
    as [Hex|Hnex].
  { apply Exists_exists in Hex. exact Hex. }
  exfalso. apply not_Exists_Forall in Hnex; [|intros e; apply _].
  destruct (bfs_short_expanded n E v Hinv q) as (x & Hx & Hk & _).
  { intros e He. apply (proj1 (Forall_forall _ _) Hnex) in He.
    simpl in He. lia. }
  pose proof (inv_expanded _ _ _ _ _ Hinv) as Hexp.
  apply (proj1 (Forall_forall _ _) Hexp) in Hx as (_ & _ & Hns).
  apply Hns. rewrite Hk. simpl.
  apply bool_decide_eq_true in Hsolved. rewrite Hsolved.
  apply (same_board_play q s0 s0 (same_board_refl s0)).
Qed.

Lemma bfs_reached_mono (E : list (Key * Path)) (cur : GameState)
    (path : Path) (queue new : list (GameState * Path)) (k : Key) (m : nat) :
  bfs_reached E ((cur, path) :: queue) k m →
  bfs_reached ((_get_state_hash cur, path) :: E) (queue ++ new) k m.
Proof.
  intros [(x & Hx & Hk & Hl)|(e & He & Hk & Hl)].
  - left. exists x. split; [by apply list_elem_of_further|done].
  - apply elem_of_cons in He as [->|He].
    + left. exists (_get_state_hash cur, path).
      split; [apply list_elem_of_here|done].
    + right. exists e. split; [|done]. apply elem_of_app. by left.
Qed.

(** One iteration on an unsolved head keeps the invariant. *)
Lemma bfs_inv_step (E : list (Key * Path)) (v : BFSVars)
    (cur : GameState) (path : Path) (queue : list (GameState * Path))
    (best : Path) (ex : list Key) :
  bfs_inv now s0 (length path) E v → b_queue v = (cur, path) :: queue →
  is_solved cur = false →
  bfs_inv now s0 (length path) ((_get_state_hash cur, path) :: E)
    (mkBFSVars
       (foldl (bfs_try now cur path) (queue, b_visited v) Direction_members).1
       (foldl (bfs_try now cur path) (queue, b_visited v) Direction_members).2
       (b_nodes_explored v + 1) best ex).
Proof.
  intros Hinv Hqueue Hunsolved.
  destruct (bfs_inv_head _ _ _ _ _ _ Hinv Hqueue)
    as (_ & Q1 & Q2 & HQ & F1 & F2).
  destruct Hinv as [Hq _ He Hc Hv Hnd Hr Hn].
  rewrite Hqueue in *. apply Forall_cons in Hq as [[Hcur Hacc] Hq].
  simpl in Hcur, Hacc.
  destruct (bfs_try_fold cur path Hcur Hacc Direction_members queue
              (b_visited v)) as (new & E1 & Hnew & HV & Hndn & Hfresh & Hall).
  set (r := foldl (bfs_try now cur path) (queue, b_visited v)
              Direction_members) in *.
  assert (Hboard : same_board cur s0).
  { rewrite Hcur. apply same_board_run, same_board_refl. }
  split; cbn [b_queue b_visited b_nodes_explored]; rewrite ?E1.
  - apply Forall_app. split; [done|].
    eapply Forall_impl; [exact Hnew|]. by intros e [? _].
  - exists Q1, (Q2 ++ new). split; [by rewrite HQ, (assoc_L (++))|].
    split; [done|]. apply Forall_app. split; [done|].
    eapply Forall_impl; [exact Hnew|]. by intros e [_ ?].
  - constructor; [|done]. simpl. split; [by rewrite <- Hcur|].
    split; [lia|]. intros Heq.
    assert (is_solved cur = true); [|congruence].
    apply bool_decide_eq_true. rewrite Heq. symmetry. apply Hboard.
  - intros x t d s [->|Hx]%elem_of_cons Hb Hk.
    + simpl in Hk. simpl length.
      assert (Hb' : same_board s cur).
      { destruct Hb as (? & ? & ? & ?), Hboard as (? & ? & ? & ?).
        unfold same_board. repeat split; congruence. }
      destruct (move_key_det t now d s cur Hb' Hk) as [Eok Ekey].
      rewrite Ekey. destruct (move now d cur).1 eqn:Hok.
      * pose proof (Hall d (elem_of_Direction_members d) Hok) as Hin.
        apply HV in Hin as [Hin|Hin].
        -- apply Hv in Hin as [Hin|Hin].
           ++ apply list_elem_of_fmap in Hin as (x & Ex & Hx). left.
              exists x. split; [by apply list_elem_of_further|].
              split; [done|].
              apply (proj1 (Forall_forall _ _) He) in Hx as (_ & ? & _). lia.
           ++ rewrite fmap_cons in Hin.
              apply elem_of_cons in Hin as [Hin|Hin].
              ** left. exists (_get_state_hash cur, path).
                 split; [apply list_elem_of_here|]. split; [done|].
                 simpl. lia.
              ** apply list_elem_of_fmap in Hin as (e & Ee & He').
                 right. exists e. split; [apply elem_of_app; by left|].
                 split; [done|]. rewrite HQ in He'.
                 apply elem_of_app in He' as [He'|He'].
                 --- apply (proj1 (Forall_forall _ _) F1) in He'.
                     simpl in He'. lia.
                 --- apply (proj1 (Forall_forall _ _) F2) in He'.
                     simpl in He'. lia.
        -- apply list_elem_of_fmap in Hin as (e & Ee & He').
           right. exists e. split; [apply elem_of_app; by right|].
           split; [done|].
           apply (proj1 (Forall_forall _ _) Hnew) in He' as [_ He'].
           lia.
      * rewrite (move_rejected_key now d cur Hok). left.
        exists (_get_state_hash cur, path).
        split; [apply list_elem_of_here|]. split; [done|]. simpl. lia.
    + apply bfs_reached_mono. by eapply Hc.
  - intros k. rewrite HV, Hv, !fmap_cons, fmap_app, !elem_of_cons,
      elem_of_app. simpl. unfold bfs_key at 1. simpl. tauto.
  - rewrite fmap_cons, fmap_app. cbn [fst].
    assert (Hperm : E.*1 ++ (bfs_key <$> (cur, path) :: queue)
                    ≡ₚ _get_state_hash cur :: E.*1 ++ (bfs_key <$> queue)).
    { rewrite fmap_cons. symmetry. apply Permutation_middle. }
    rewrite Hperm in Hnd.
    rewrite (assoc_L (++)).
    apply NoDup_app. split; [exact Hnd|]. split; [|done].
    intros k Hk Hk'. apply Hfresh in Hk'. apply Hk', Hv.
    rewrite fmap_cons. unfold bfs_key at 2. simpl.
    apply elem_of_app in Hk as [[->|Hk]%elem_of_cons|Hk].
    + right. apply list_elem_of_here.
    + by left.
    + right. by apply list_elem_of_further.
  - by apply bfs_reached_mono.
  - rewrite Hn. simpl length. lia.
Qed.

(** With a clock that never runs out and a node ceiling above the number
    of paths no longer than a known solution, the loop ends on a solved
    state, and no solution is shorter than the path it returns. *)
Lemma bfs_loop_minimal (max_time max_nodes : Z) (q : list (Z * Direction)) :
  (∀ i, elapsed i ≤ max_time) →
  is_solved (play_moves q s0) = true →
  Z.of_nat (length (paths_upto (length q))) < max_nodes →
  ∀ (fuel : nat) (v : BFSVars) (n : nat) (E : list (Key * Path)),
  bfs_inv now s0 n E v →
  max_nodes - b_nodes_explored v ≤ Z.of_nat fuel → (1 ≤ fuel)%nat →
  ∃ p ex,
    bfs_loop elapsed now max_time max_nodes fuel v
    = Returned (mkSearchResult ExitSolved (Some p) ex) ∧
    accepted_path now p s0 ∧
    is_solved (run_path now p s0) = true ∧
    ∀ q', is_solved (play_moves q' s0) = true → (length p ≤ length q')%nat.
Proof.
  intros Hclock Hsolvable Hbudget.
  induction fuel as [|fuel IH]; intros v n E Hinv Hfuel Hpos; [lia|].
  simpl. destruct (b_queue v) as [|[cur path] queue] eqn:Hqueue.
  { destruct (bfs_solvable_queue n E v q Hinv Hsolvable) as (e & He & _).
    rewrite Hqueue in He. by apply elem_of_nil in He. }
  rewrite bool_decide_eq_false_2 by (specialize (Hclock (b_nodes_explored v)); lia).
  destruct (bfs_inv_head n E v cur path queue Hinv Hqueue)
    as (Hinv' & Q1 & Q2 & HQ & F1 & F2).
  assert (Hmin : ∀ e, e ∈ b_queue v → (length path ≤ length e.2)%nat).
  { intros e. rewrite Hqueue. intros [->|He]%elem_of_cons; [done|].
    rewrite HQ in He. apply elem_of_app in He as [He|He].
    - apply (proj1 (Forall_forall _ _) F1) in He. simpl in He. lia.
    - apply (proj1 (Forall_forall _ _) F2) in He. simpl in He. lia. }
  assert (Hshort : ∀ q', is_solved (play_moves q' s0) = true →
                         (length path ≤ length q')%nat).
  { intros q' Hq'.
    destruct (bfs_solvable_queue _ E v q' Hinv' Hq') as (e & He & Hle).
    apply Hmin in He. lia. }
  pose proof (inv_queue _ _ _ _ _ Hinv') as Hq. rewrite Hqueue in Hq.
  apply Forall_cons in Hq as [[Hcur Hacc] _]. simpl in Hcur, Hacc.
  destruct (is_solved cur) eqn:Hsolved.
  { eexists _, _. split; [reflexivity|]. split; [done|].
    split; [by rewrite <- Hcur|done]. }
  pose proof (bfs_inv_step E v cur path queue
    (if bool_decide (length (b_best_path v) < length path)%nat
        && bool_decide (length path < 100)%nat
     then path else b_best_path v)
    (_get_state_hash cur :: b_expanded v) Hinv' Hqueue Hsolved) as Hstep.
  destruct (foldl (bfs_try now cur path) (queue, b_visited v)
              Direction_members) as [queue' visited'].
  simpl in Hstep.
  assert (Hcount : (length ((_get_state_hash cur, path) :: E)
                    ≤ length (paths_upto (length q)))%nat).
  { apply (expanded_count now s0).
    - pose proof (inv_nodup _ _ _ _ _ Hstep) as Hnd.
      by apply NoDup_app in Hnd as (? & _).
    - eapply Forall_impl; [exact (inv_expanded _ _ _ _ _ Hstep)|].
      simpl. intros x (Hx & Hl & _). split; [done|].
      specialize (Hshort q Hsolvable). lia. }
  pose proof (inv_count _ _ _ _ _ Hstep) as Hne. simpl in Hne, Hcount.
  rewrite bool_decide_eq_false_2 by lia.
  eapply IH; [exact Hstep|simpl; lia|lia].
Qed.

(** The invariant holds when the loop is entered. *)
Lemma bfs_inv_initial :
  bfs_inv now s0 0 []
    (mkBFSVars [(s0, [])] (∅ ∪ {[_get_state_hash s0]}) 0 [] []).
Proof.
  split; simpl.
  - constructor; [|constructor]. simpl. done.
  - exists [(s0, [])], []. split; [done|].
    split; [|constructor]. constructor; [done|constructor].
  - constructor.
  - intros x t d s Hx. by apply elem_of_nil in Hx.
  - intros k. rewrite elem_of_union, elem_of_singleton.
    rewrite list_elem_of_singleton. unfold bfs_key. simpl.
    split; [intros [H|H]; [by apply not_elem_of_empty in H|by right]|].
    intros [H|H]; [by apply elem_of_nil in H|by right].
  - apply NoDup_singleton.
  - right. exists (s0, []). split; [apply list_elem_of_here|done].
  - done.
Qed.

(** With a node ceiling of at least [4 ^ (length q + 1)] and a clock that
    never passes the time limit, neither budget is met on a puzzle that [q]
    solves. *)
Lemma bfs_search_with_minimal (max_time max_nodes : Z)
    (q : list (Z * Direction)) :
  is_solved (play_moves q s0) = true →
  (∀ i, elapsed i ≤ max_time) →
  Z.of_nat (4 ^ S (length q)) ≤ max_nodes →
  ∃ p ex,
    bfs_search_with elapsed now max_nodes s0 max_time
    = Returned (mkSearchResult ExitSolved (Some p) ex) ∧
    accepted_path now p s0 ∧
    is_solved (run_path now p s0) = true ∧
    ∀ q', is_solved (play_moves q' s0) = true → (length p ≤ length q')%nat.
Proof.
  intros Hsolvable Hclock Hbudget.
  pose proof (length_paths_upto (length q)) as Hlen.
  assert (0 < 4 ^ S (length q))%nat
    by (apply Nat.neq_0_lt_0, Nat.pow_nonzero; lia).
  unfold bfs_search_with.
  apply (bfs_loop_minimal max_time max_nodes q Hclock Hsolvable) with
    (n := 0%nat) (E := []).
  - lia.
  - apply bfs_inv_initial.
  - simpl. lia.
  - lia.
Qed.



End BFS.

(** With the ceiling of the easy tier, 20000 nodes, neither budget is met
    on the puzzles that six moves solve, if the clock never passes the
    limit. *)
Corollary BFSSearch_search_minimal_easy (elapsed : Z → Z) (now : Z)
    (s0 : GameState) (max_time : Z) (q : list (Z * Direction)) :
  is_solved (play_moves q s0) = true →
  (∀ i, elapsed i ≤ max_time) → (length q ≤ 6)%nat →
  ∃ p ex,
    BFSSearch_search elapsed now s0 max_time "easy"
    = Returned (mkSearchResult ExitSolved (Some p) ex) ∧
    accepted_path now p s0 ∧
    is_solved (run_path now p s0) = true ∧
    ∀ q', is_solved (play_moves q' s0) = true → (length p ≤ length q')%nat.
Proof.
  intros Hsolvable Hclock Hlen.
  unfold BFSSearch_search, bfs_search_with.
  change (bfs_max_nodes "easy") with 20000.
  pose proof (length_paths_upto (length q)) as Hcount.
  assert (Hpow : Z.of_nat (4 ^ S (length q)) ≤ 4 ^ 7).
  { rewrite Nat2Z.inj_pow. apply Z.pow_le_mono_r; lia. }
  apply (bfs_loop_minimal elapsed now s0 max_time 20000 q Hclock Hsolvable)
    with (n := 0%nat) (E := []).
  - assert (4 ^ 7 < 20000) by done. lia.
  - apply bfs_inv_initial.
  - simpl. lia.
  - lia.
Qed.


Example BFSSearch_search_corridor :
  sr_value <$> (match BFSSearch_search (λ _, 0) 0 state_corridor 5000 "easy"
                with Returned r => Some r | _ => None end)
  = Some (Some [RIGHT]).
Proof. vm_compute. reflexivity. Qed.

(** * Further properties of the engine and the agent *)

(** ** Counters and score *)

Lemma move_counters (now : Z) (d : Direction) (s : GameState) :
  moves (move now d s).2
  = moves s + (if (move now d s).1 then 1 else 0) ∧
  pushes (move now d s).2
  = pushes s + (if (move now d s).1
                   && bool_decide (step_pos (player_pos s) d
                                   ∈ crate_positions s)
                then 1 else 0).
Proof.
  destruct (move_cases now d s) as [(-> & _ & _ & -> & -> & _)
    | [(-> & _ & _ & Hnin & _ & _ & -> & ->)
      | (-> & _ & _ & Hin & _ & _ & _ & _ & _ & -> & ->)]]; simpl.
  - lia.
  - rewrite bool_decide_eq_false_2 by done. lia.
  - rewrite bool_decide_eq_true_2 by done. lia.
Qed.

(** X1. Along any sequence of calls of [move], [moves] has grown by the
    number of accepted calls and [pushes] by the number of accepted calls
    that pushed a crate; so the score, [moves + 2 * pushes], has grown by
    one for every plain step and by three for every push. *)
Theorem play_moves_counters (q : list (Z * Direction)) (s : GameState) :
  moves (play_moves q s) = moves s + Z.of_nat (accepted_count q s) ∧
  pushes (play_moves q s) = pushes s + Z.of_nat (push_count q s) ∧
  (push_count q s ≤ accepted_count q s ≤ length q)%nat ∧
  get_score (play_moves q s)
  = get_score s + Z.of_nat (accepted_count q s)
    + 2 * Z.of_nat (push_count q s).
Proof.
  revert s. induction q as [|m r IH]; intros s.
  - simpl. unfold get_score. repeat split; lia.
  - simpl play_moves. simpl accepted_count. simpl push_count. simpl length.
    destruct (IH (move m.1 m.2 s).2) as (Hm & Hp & Hle & Hs).
    destruct (move_counters m.1 m.2 s) as [Em Ep].
    change (foldl (λ s m, (move m.1 m.2 s).2) (move m.1 m.2 s).2 r)
      with (play_moves r (move m.1 m.2 s).2).
    unfold get_score in *.
    destruct (move m.1 m.2 s).1; destruct (bool_decide _); simpl in *;
      repeat split; lia.
Qed.

(** ** The timer *)

(** What [move] does to the three timer fields. *)
Lemma move_timer (now : Z) (d : Direction) (s : GameState) :
  is_playing (move now d s).2 = true ∧
  start_time (move now d s).2
  = (if is_playing s then start_time s else Some now) ∧
  end_time (move now d s).2
  = (if (move now d s).1 && is_solved (move now d s).2
        && negb (time_truthy (end_time s))
     then Some now else end_time s).
Proof.
  unfold move.
  set (s1 := if negb (is_playing s) then start_playing now s else s).
  assert (H1 : is_playing s1 = true ∧
               start_time s1 = (if is_playing s then start_time s
                                else Some now) ∧
               end_time s1 = end_time s).
  { unfold s1, start_playing.
    destruct (is_playing s) eqn:E; simpl; rewrite ?E; done. }
  clearbody s1. destruct H1 as (Hp & Hs & He). rewrite <- Hs, <- He.
  assert (Hcommit : ∀ p s2, is_playing s2 = true →
    is_playing (move_commit now p s2) = true ∧
    start_time (move_commit now p s2) = start_time s2 ∧
    end_time (move_commit now p s2)
    = (if is_solved (move_commit now p s2) && negb (time_truthy (end_time s2))
       then Some now else end_time s2)).
  { intros p s2 Hp2. unfold move_commit.
    set (s' := set_moves (moves (set_player_pos p s2) + 1)
                 (set_player_pos p s2)).
    change (end_time s') with (end_time s2).
    assert (Hsol : ∀ t, is_solved (set_end_time t s') = is_solved s') by done.
    destruct (is_solved s') eqn:Esol;
      destruct (time_truthy (end_time s2)) eqn:Et; simpl;
      rewrite ?Hsol, ?Esol, ?Et; done. }
  destruct (move_checks_shape now d s1) as [-> | [[p ->] | (p & cs & ->)]].
  - simpl. done.
  - simpl fst. simpl snd. by apply Hcommit.
  - simpl fst. simpl snd.
    destruct (Hcommit p (set_pushes (pushes s1 + 1)
                           (set_crate_positions cs s1)) Hp) as (? & ? & ?).
    done.
Qed.

(** X2. The first call of [move] on a state starts its clock, accepted or
    not, and later calls leave the start time alone; the end time is
    stamped by the accepted move that leaves the state solved, unless a
    non-zero end time is there already, and by nothing else. *)
Theorem move_timestamps (now : Z) (d : Direction) (s : GameState) :
  is_playing (move now d s).2 = true ∧
  (is_playing s = false → start_time (move now d s).2 = Some now) ∧
  (is_playing s = true → start_time (move now d s).2 = start_time s) ∧
  ((move now d s).1 = true → is_solved (move now d s).2 = true →
   time_truthy (end_time s) = false →
   end_time (move now d s).2 = Some now) ∧
  ((move now d s).1 = false ∨ is_solved (move now d s).2 = false ∨
   time_truthy (end_time s) = true →
   end_time (move now d s).2 = end_time s).
Proof.
  destruct (move_timer now d s) as (Hp & Hs & He).
  split; [done|]. rewrite Hs, He.
  split; [by intros ->|]. split; [by intros ->|]. split.
  - by intros -> -> ->.
  - intros [-> | [-> | ->]]; [done| |].
    + by rewrite andb_false_r.
    + by rewrite andb_false_r.
Qed.

Lemma move_timestamps_witness :
  end_time (move 9 RIGHT state_corridor).2 = Some 9.
Proof.
  apply (proj1 (proj2 (proj2 (proj2 (move_timestamps 9 RIGHT state_corridor)))));
    vm_compute; reflexivity.
Defined.

(** X3. On a state that is playing and has a non-zero end time, no sequence
    of moves changes the start or the end time: [get_time_elapsed] reports
    the same duration ever after, whatever the clock reads. *)
Theorem get_time_elapsed_frozen (q : list (Z * Direction)) (s : GameState)
    (t t' : Z) :
  is_playing s = true → time_truthy (end_time s) = true →
  start_time (play_moves q s) = start_time s ∧
  end_time (play_moves q s) = end_time s ∧
  get_time_elapsed t (play_moves q s) = get_time_elapsed t' s.
Proof.
  intros Hp He.
  assert (H : start_time (play_moves q s) = start_time s ∧
              end_time (play_moves q s) = end_time s).
  { revert s Hp He. induction q as [|m r IH]; intros s Hp He; [done|].
    change (play_moves (m :: r) s) with (play_moves r (move m.1 m.2 s).2).
    destruct (move_timer m.1 m.2 s) as (Hp' & Hs' & He').
    rewrite Hp in Hs'. rewrite He, andb_false_r in He'.
    destruct (IH (move m.1 m.2 s).2 Hp') as [-> ->]; [by rewrite He'|].
    done. }
  destruct H as [Hs' He']. split; [done|]. split; [done|].
  unfold get_time_elapsed. rewrite Hs', He'.
  destruct (start_time s) as [st|]; [|done].
  destruct (negb _); [done|].
  destruct (end_time s) as [et|]; [|done]. by rewrite He.
Qed.

Lemma get_time_elapsed_frozen_witness :
  start_time (play_moves [(20, LEFT)] (move 9 RIGHT state_corridor).2)
  = start_time (move 9 RIGHT state_corridor).2 ∧
  end_time (play_moves [(20, LEFT)] (move 9 RIGHT state_corridor).2)
  = end_time (move 9 RIGHT state_corridor).2 ∧
  get_time_elapsed 30 (play_moves [(20, LEFT)] (move 9 RIGHT state_corridor).2)
  = get_time_elapsed 40 (move 9 RIGHT state_corridor).2.
Proof.
  apply (get_time_elapsed_frozen [(20, LEFT)] (move 9 RIGHT state_corridor).2
           30 40); vm_compute; reflexivity.
Defined.

(** ** More on the heuristic *)

Lemma foldr_sum_nonneg (f : Pos → Z) (l : list Pos) :
  (∀ c, c ∈ l → 0 ≤ f c) → 0 ≤ foldr (λ c acc, f c + acc) 0 l.
Proof.
  induction l as [|c r IH]; intros H; simpl; [lia|].
  pose proof (H c (list_elem_of_here _ _)).
  pose proof (IH (λ c' Hc', H c' (list_elem_of_further _ _ _ Hc'))). lia.
Qed.

Lemma manhattan_pos (a b : Pos) : a ≠ b → 1 ≤ manhattan a b.
Proof.
  destruct a as [ax ay], b as [bx by']. unfold manhattan. simpl.
  intros Hne. destruct (decide (ax = bx)) as [->|?]; [|lia].
  destruct (decide (ay = by')) as [->|?]; [done|lia].
Qed.

(** X4. On every state the program builds the heuristic is defined and
    not negative, and it is 0 exactly on the solved states. *)
Theorem _heuristic_zero_iff_solved (s : GameState) :
  state_ok s →
  ∃ h, _heuristic s = Some h ∧ 0 ≤ h ∧ (h = 0 ↔ is_solved s = true).
Proof.
  intros (Hwf & Hcr & Hsz & Hnt).
  assert (Hne : targets s ≠ ∅).
  { intros E. rewrite E, size_empty in Hnt. lia. }
  rewrite (_heuristic_sum s Hwf (λ c Hc, proj1 (Hcr c Hc)) Hne).
  eexists. split; [reflexivity|].
  destruct (is_solved s) eqn:Hsolved; [done|].
  set (f := λ c, default 0 (py_min ((λ t, manhattan c t)
                                      <$> elements (targets s)))
                 + deadlock_penalty s c).
  set (unsolved := filter (λ c, c ∉ targets s)
                     (elements (crate_positions s))).
  assert (Hterm : ∀ c, c ∈ unsolved → 1 ≤ f c).
  { intros c Hc. apply list_elem_of_filter in Hc as [Hnt' _].
    unfold f, deadlock_penalty.
    destruct (py_min_is_Some ((λ t, manhattan c t) <$> elements (targets s)))
      as [m Hm].
    { intros E. apply fmap_nil_inv in E.
      by apply elements_empty_inv, leibniz_equiv in E. }
    rewrite Hm. simpl. apply py_min_spec in Hm as [Hin _].
    apply list_elem_of_fmap in Hin as (t & -> & Ht).
    apply elem_of_elements in Ht.
    assert (1 ≤ manhattan c t) by (apply manhattan_pos; by intros ->).
    destruct (decide _); lia. }
  assert (Hsome : unsolved ≠ []).
  { intros Hnil. apply bool_decide_eq_false in Hsolved. apply Hsolved.
    apply set_subseteq_size_eq; [|lia].
    intros c Hc. destruct (decide (c ∈ targets s)) as [|Hn]; [done|].
    assert (c ∈ unsolved); [|rewrite Hnil in *; by apply elem_of_nil in H].
    apply list_elem_of_filter. split; [done|]. by apply elem_of_elements. }
  assert (Hsum : 1 ≤ foldr (λ c acc, f c + acc) 0 unsolved).
  { destruct unsolved as [|c r] eqn:E; [done|]. simpl.
    pose proof (Hterm c (list_elem_of_here _ _)).
    pose proof (foldr_sum_nonneg f r) as Hr.
    assert (0 ≤ foldr (λ c acc, f c + acc) 0 r); [|lia].
    apply Hr. intros c' Hc'.
    pose proof (Hterm c' (list_elem_of_further _ _ _ Hc')). lia. }
  change (0 ≤ foldr (λ c acc, f c + acc) 0 unsolved ∧
          (foldr (λ c acc, f c + acc) 0 unsolved = 0 ↔ false = true)).
  split; [lia|]. split; [lia|done].
Qed.

Lemma _heuristic_zero_iff_solved_witness :
  ∃ h, _heuristic state_corridor = Some h ∧ 0 ≤ h ∧
       (h = 0 ↔ is_solved state_corridor = true).
Proof.
  apply (_heuristic_zero_iff_solved state_corridor).
  apply (GameState_init_ok level_corridor "ai"). vm_compute. reflexivity.
Defined.

(** ** Crates in corners *)

Lemma blocked_move (now : Z) (d : Direction) (s : GameState) (p : Pos) :
  blocked (move now d s).2 p ↔ blocked s p.
Proof.
  destruct (move_static now d s) as (Hg & Hw & Hh & _).
  unfold blocked, out_of_bounds, is_wall. by rewrite Hg, Hw, Hh.
Qed.

Lemma not_blocked_intro (s : GameState) (p : Pos) :
  _in_bounds s p = true →
  (∃ t, grid_get (grid s) p.1 p.2 = Some t ∧ t ≠ WALL) →
  ¬ blocked s p.
Proof.
  intros Hb (t & Hg & Hnw) [Ho|Hw].
  - apply in_bounds_false_iff in Ho. congruence.
  - unfold is_wall in Hw. congruence.
Qed.

Lemma blocked_ext (s : GameState) (x y x' y' : Z) :
  x = x' → y = y' → blocked s (x, y) → blocked s (x', y').
Proof. by intros -> ->. Qed.

(** One call of [move] leaves a cornered crate where it is. *)
Lemma cornered_crate_move (now : Z) (d : Direction) (s : GameState) (c : Pos) :
  ¬ blocked s (player_pos s) →
  c ∈ crate_positions s → corner_deadlocked s c →
  c ∈ crate_positions (move now d s).2 ∧
  corner_deadlocked (move now d s).2 c ∧
  ¬ blocked (move now d s).2 (player_pos (move now d s).2).
Proof.
  intros Hplayer Hc Hcorner.
  assert (Hcorner' : corner_deadlocked (move now d s).2 c).
  { unfold corner_deadlocked. by rewrite !blocked_move. }
  rewrite blocked_move.
  destruct (move_cases now d s) as [(_ & -> & -> & _)
    | [(_ & Hb & Hf & _ & -> & -> & _)
      | (_ & Hb & Hf & Hin & Hb' & Hf' & Hnin' & -> & -> & _)]].
  - done.
  - split; [done|]. split; [done|]. by apply not_blocked_intro.
  - split; [|split; [done|by apply not_blocked_intro]].
    apply elem_of_union. left. apply elem_of_difference. split; [done|].
    intros Heq%elem_of_singleton. subst c.
    pose proof (not_blocked_intro s _ Hb' Hf') as Hbeyond.
    destruct Hcorner as [Hh Hv].
    destruct (player_pos s) as [px py]. unfold step_pos in *.
    destruct d; simpl in *;
      [destruct Hv as [H|H] | destruct Hv as [H|H]
      | destruct Hh as [H|H] | destruct Hh as [H|H]];
      first [ apply Hbeyond; refine (blocked_ext _ _ _ _ _ _ _ H); lia
            | apply Hplayer; refine (blocked_ext _ _ _ _ _ _ _ H); lia ].
Qed.

(** X5. The corner test of the heuristic is sound for the rules of [move]:
    with the player on a cell of the grid that is not a wall, a crate that
    is blocked on its left or right and above or below is still in its place
    after any sequence of moves. *)
Theorem cornered_crate_stays (q : list (Z * Direction)) (s : GameState)
    (c : Pos) :
  ¬ blocked s (player_pos s) →
  c ∈ crate_positions s → corner_deadlocked s c →
  c ∈ crate_positions (play_moves q s) ∧
  corner_deadlocked (play_moves q s) c.
Proof.
  revert s. induction q as [|m r IH]; intros s Hp Hc Hcorner; [done|].
  change (play_moves (m :: r) s) with (play_moves r (move m.1 m.2 s).2).
  destruct (cornered_crate_move m.1 m.2 s c Hp Hc Hcorner) as (? & ? & ?).
  by apply IH.
Qed.

Lemma cornered_crate_stays_witness :
  (2, 0) ∈ crate_positions (play_moves [(0, RIGHT)]
                              (set_player_pos (1, 0) state_no_player)) ∧
  corner_deadlocked (play_moves [(0, RIGHT)]
                       (set_player_pos (1, 0) state_no_player)) (2, 0).
Proof.
  apply (cornered_crate_stays [(0, RIGHT)]
           (set_player_pos (1, 0) state_no_player) (2, 0)).
  - apply (bool_decide_unpack _). vm_compute. exact I.
  - apply (bool_decide_unpack _). vm_compute. exact I.
  - apply (bool_decide_unpack _). vm_compute. exact I.
Defined.

(** ** What the searches return *)

Lemma state_ok_run_path (now : Z) (p : Path) :
  ∀ s, state_ok s → state_ok (run_path now p s).
Proof.
  induction p as [|d r IH]; intros s Hs; [done|].
  simpl. apply IH. by apply move_ok.
Qed.

Lemma path_ok_step (now : Z) (s0 cur : GameState) (path : Path)
    (d : Direction) :
  path_ok now s0 cur path → (move now d cur).1 = true →
  path_ok now s0 (move now d cur).2 (path ++ [d]).
Proof.
  intros [Hcur Hacc] Hok. split.
  - by rewrite run_path_snoc, <- Hcur.
  - apply accepted_path_snoc; [done|]. by rewrite <- Hcur.
Qed.

Lemma result_sound_partial (now : Z) (s0 : GameState) (exit : SearchExit)
    (best : Path) (ex : list Key) :
  exit ≠ ExitSolved → accepted_path now best s0 →
  result_sound now s0 (mkSearchResult exit (path_or_none best) ex).
Proof.
  intros Hexit Hbest. unfold result_sound. simpl.
  destruct best as [|d r]; simpl; [done|].
  split; [done|]. by destruct (decide (exit = ExitSolved)).
Qed.

Lemma result_sound_solved (now : Z) (s0 cur : GameState) (path : Path)
    (ex : list Key) :
  path_ok now s0 cur path → is_solved cur = true →
  result_sound now s0 (mkSearchResult ExitSolved (Some path) ex).
Proof.
  intros [Hcur Hacc] Hs. unfold result_sound. simpl.
  split; [done|]. by rewrite <- Hcur.
Qed.

Section Sound.

Variable elapsed : Z → Z.
Variable now : Z.
Variable s0 : GameState.
Hypothesis s0_ok : state_ok s0.

Lemma astar_try_sound (cur : GameState) (g : Z) (path : Path) (d : Direction)
    (acc : list AStarEntry * gset Key * Z) :
  path_ok now s0 cur path →
  Forall (λ e, path_ok now s0 (e_state e) (e_path e)) acc.1.1 →
  ∃ acc', astar_try now cur g path acc d = Some acc' ∧
          Forall (λ e, path_ok now s0 (e_state e) (e_path e)) acc'.1.1.
Proof.
  intros Hcur Hall. destruct acc as [[pq visited] counter]. simpl in Hall.
  unfold astar_try. rewrite clone_eq.
  pose proof (path_ok_step now s0 cur path d Hcur) as Hstep.
  assert (Hok : state_ok (move now d cur).2).
  { apply move_ok. destruct Hcur as [-> _]. by apply state_ok_run_path. }
  destruct (move now d cur) as [ok new_state]. simpl in *.
  destruct ok; [|eauto].
  case_bool_decide; [|eauto].
  destruct (_heuristic_is_Some new_state Hok) as [h ->]. simpl.
  eexists. split; [reflexivity|]. simpl. unfold pq_put.
  apply Forall_app. split; [done|]. constructor; [|constructor].
  simpl. by apply Hstep.
Qed.

Lemma astar_loop_sound (max_time max_nodes : Z) (fuel : nat) :
  ∀ (v : AStarVars) (r : SearchResult),
  Forall (λ e, path_ok now s0 (e_state e) (e_path e)) (a_pq v) →
  accepted_path now (a_best_path v) s0 →
  astar_loop elapsed now max_time max_nodes fuel v = Returned r →
  result_sound now s0 r.
Proof.
  induction fuel as [|fuel IH]; intros v r Hpq Hbest Hr; [done|].
  simpl in Hr. destruct (a_pq v) as [|e0 q] eqn:Hq.
  { injection Hr as <-. by apply result_sound_partial. }
  case_bool_decide.
  { injection Hr as <-. by apply result_sound_partial. }
  unfold pq_get in Hr.
  destruct (pq_extract e0 q) as [entry pq] eqn:Hext.
  apply pq_extract_perm in Hext. rewrite <- Hext in Hpq.
  apply Forall_cons in Hpq as [Hentry Hpq].
  destruct (_heuristic (e_state entry)) as [h|]; [|done].
  set (better := match a_best_heuristic v with
                 | Some b => h <? b | None => true end
                 && (0 <? Z.of_nat (length (e_path entry)))) in *.
  assert (Hbest' : accepted_path now
            (if better then e_path entry else a_best_path v) s0).
  { destruct better; [apply Hentry|done]. }
  destruct (is_solved (e_state entry)) eqn:Hsolved.
  { injection Hr as <-. by eapply result_sound_solved. }
  destruct (for_each_inv (astar_try now (e_state entry) (e_g entry)
                            (e_path entry))
              (λ acc, Forall (λ e, path_ok now s0 (e_state e) (e_path e))
                        acc.1.1)
              Direction_members) with (acc := (pq, a_visited v, a_counter v))
    as ([[pq' visited'] counter'] & Hfor & Hpq').
  { intros acc d Hacc. by apply astar_try_sound. }
  { done. }
  rewrite Hfor in Hr. simpl in Hpq'.
  case_bool_decide.
  - destruct (if better then e_path entry else a_best_path v) as [|d p] eqn:Eb.
    + unfold astar_after_loop in Hr. simpl in Hr. injection Hr as <-.
      by apply (result_sound_partial now s0 ExitNodeLimit []).
    + injection Hr as <-.
      apply (result_sound_partial now s0 ExitNodeLimit (d :: p)); done.
  - eapply IH; [| |exact Hr]; done.
Qed.

Lemma bfs_loop_sound (max_time max_nodes : Z) (fuel : nat) :
  ∀ (v : BFSVars) (r : SearchResult),
  Forall (λ e, path_ok now s0 e.1 e.2) (b_queue v) →
  accepted_path now (b_best_path v) s0 →
  bfs_loop elapsed now max_time max_nodes fuel v = Returned r →
  result_sound now s0 r.
Proof.
  induction fuel as [|fuel IH]; intros v r Hq Hbest Hr; [done|].
  simpl in Hr. destruct (b_queue v) as [|[cur path] queue] eqn:Hqueue.
  { injection Hr as <-. done. }
  case_bool_decide.
  { injection Hr as <-. by apply result_sound_partial. }
  apply Forall_cons in Hq as [Hcur Hq]. simpl in Hcur.
  set (best := if bool_decide (length (b_best_path v) < length path)%nat
                  && bool_decide (length path < 100)%nat
               then path else b_best_path v) in *.
  assert (Hbest' : accepted_path now best s0).
  { unfold best. destruct (_ && _); [apply Hcur|done]. }
  destruct (is_solved cur) eqn:Hsolved.
  { injection Hr as <-. by eapply result_sound_solved. }
  destruct Hcur as [Hcur Hacc].
  destruct (bfs_try_fold elapsed now s0 cur path Hcur Hacc Direction_members queue
              (b_visited v)) as (new & E1 & Hnew & _).
  destruct (foldl (bfs_try now cur path) (queue, b_visited v)
              Direction_members) as [queue' visited'].
  simpl in E1. subst queue'.
  case_bool_decide.
  - destruct best as [|d p] eqn:Eb; injection Hr as <-; [done|].
    apply (result_sound_partial now s0 ExitNodeLimit (d :: p)); done.
  - eapply IH; [| |exact Hr]; simpl; [|done].
    apply Forall_app. split; [done|].
    eapply Forall_impl; [exact Hnew|]. by intros e [? _].
Qed.

Lemma dfs_try_sound (cur : GameState) (path : Path) (depth : Z)
    (dirs : list Direction) :
  path_ok now s0 cur path →
  ∀ acc, Forall (λ e, path_ok now s0 e.1.1 e.1.2) acc.1 →
  Forall (λ e, path_ok now s0 e.1.1 e.1.2)
    (foldl (dfs_try now cur path depth) acc dirs).1.
Proof.
  intros Hcur. induction dirs as [|d dirs IH]; intros acc Hacc; [done|].
  change (foldl (dfs_try now cur path depth) acc (d :: dirs))
    with (foldl (dfs_try now cur path depth)
            (dfs_try now cur path depth acc d) dirs).
  apply IH. destruct acc as [stack visited]. unfold dfs_try.
  rewrite clone_eq.
  pose proof (path_ok_step now s0 cur path d Hcur) as Hstep.
  destruct (move now d cur) as [ok new_state]. simpl in *.
  destruct ok; [|done]. case_bool_decide; [|done].
  simpl. constructor; [|done]. simpl. by apply Hstep.
Qed.

Lemma dfs_loop_sound (max_time max_nodes max_depth : Z) (fuel : nat) :
  ∀ (v : DFSVars) (r : SearchResult),
  Forall (λ e, path_ok now s0 e.1.1 e.1.2) (d_stack v) →
  accepted_path now (d_best_path v) s0 →
  dfs_loop elapsed now max_time max_nodes max_depth fuel v = Returned r →
  result_sound now s0 r.
Proof.
  induction fuel as [|fuel IH]; intros v r Hq Hbest Hr; [done|].
  simpl in Hr.
  destruct (d_stack v) as [|[[cur path] depth] stack] eqn:Hstack.
  { injection Hr as <-. done. }
  case_bool_decide.
  { injection Hr as <-. by apply result_sound_partial. }
  apply Forall_cons in Hq as [Hcur Hq]. simpl in Hcur.
  set (best := if bool_decide (length (d_best_path v) < length path)%nat
                  && bool_decide (length path < 100)%nat
               then path else d_best_path v) in *.
  assert (Hbest' : accepted_path now best s0).
  { unfold best. destruct (_ && _); [apply Hcur|done]. }
  destruct (is_solved cur) eqn:Hsolved.
  { injection Hr as <-. by eapply result_sound_solved. }
  case_bool_decide.
  { eapply IH; [| |exact Hr]; done. }
  pose proof (dfs_try_sound cur path depth Direction_members Hcur
                (stack, d_visited v) Hq) as Hstack'.
  destruct (foldl (dfs_try now cur path depth) (stack, d_visited v)
              Direction_members) as [stack' visited'].
  simpl in Hstack'.
  case_bool_decide.
  - destruct best as [|d p] eqn:Eb; injection Hr as <-; [done|].
    apply (result_sound_partial now s0 ExitNodeLimit (d :: p)); done.
  - eapply IH; [| |exact Hr]; done.
Qed.

Lemma search_result_sound (alg : SearchAlgorithm) (max_time : Z)
    (difficulty : string) (r : SearchResult) :
  search_algorithm_search elapsed now alg s0 max_time difficulty = Returned r →
  result_sound now s0 r.
Proof.
  intros Hr.
  assert (Hroot : path_ok now s0 s0 []) by done.
  destruct alg; simpl in Hr.
  - unfold AStarSearch_search, astar_search_with in Hr.
    destruct (_heuristic s0) as [h|]; [|done].
    eapply astar_loop_sound; [| |exact Hr]; simpl; [|done].
    unfold pq_put. simpl. by constructor.
  - unfold BFSSearch_search, bfs_search_with in Hr.
    eapply bfs_loop_sound; [| |exact Hr]; simpl; [|done]. by constructor.
  - unfold DFSSearch_search, dfs_search_with in Hr.
    eapply dfs_loop_sound; [| |exact Hr]; simpl; [|done]. by constructor.
Qed.

(** X6. Whatever the clock and whichever of the three searches: on a state
    the program builds the search returns; a path it returns consists of
    moves that [move] accepts one after the other from the initial state;
    when the search ended on a solved state the path leads to a solved
    state; a partial path returned on a timeout, at the node ceiling or on
    exhaustion is never empty. *)
Theorem search_algorithm_search_sound (alg : SearchAlgorithm)
    (max_time : Z) (difficulty : string) :
  ∃ r, search_algorithm_search elapsed now alg s0 max_time difficulty
       = Returned r ∧
       result_sound now s0 r.
Proof.
  destruct (search_algorithm_search_total elapsed now alg s0 max_time
              difficulty s0_ok) as [r Hr].
  exists r. split; [exact Hr|]. by eapply search_result_sound.
Qed.

End Sound.

Lemma search_algorithm_search_sound_witness :
  ∃ r, search_algorithm_search (λ _, 0) 0 DFSSearch state_corridor 5000 "easy"
       = Returned r ∧
       result_sound 0 state_corridor r.
Proof.
  apply (search_algorithm_search_sound (λ _, 0) 0 state_corridor).
  apply (GameState_init_ok level_corridor "ai"). vm_compute. reflexivity.
Defined.

(** ** The greedy fallback *)

Lemma moves_to_try_complete (dirs : list Direction) :
  ∀ (acc : list Direction) (d : Direction),
  d ∈ acc ∨ d ∈ dirs →
  d ∈ foldl (λ acc d, if bool_decide (d ∈ acc) then acc else acc ++ [d])
        acc dirs.
Proof.
  induction dirs as [|d' dirs IH]; intros acc d Hd.
  - destruct Hd as [Hd|Hd]; [done|by apply elem_of_nil in Hd].
  - simpl. apply IH. case_bool_decide as Hin.
    + destruct Hd as [Hd|[->|Hd]%elem_of_cons]; auto.
    + destruct Hd as [Hd|[->|Hd]%elem_of_cons]; [| |by right].
      * left. apply elem_of_app. by left.
      * left. apply elem_of_app. right. apply list_elem_of_here.
Qed.

(** X7. In whatever order the crate set iterates, the fallback proposes
    only moves that [move] accepts, and it has nothing to propose in exactly
    two cases: every crate is on a target, or no direction at all is
    accepted. *)
Theorem SimpleGreedyFallback_get_next_move_spec (crate_order : list Pos)
    (now : Z) (s : GameState) :
  crate_order ≡ₚ elements (crate_positions s) →
  (∀ d, SimpleGreedyFallback_get_next_move crate_order now s = Some d →
        (move now d s).1 = true ∧ ¬ crate_positions s ⊆ targets s) ∧
  (SimpleGreedyFallback_get_next_move crate_order now s = None ↔
   crate_positions s ⊆ targets s ∨ ∀ d, (move now d s).1 = false).
Proof.
  intros Hperm.
  assert (Hin : ∀ c, c ∈ crate_order ↔ c ∈ crate_positions s).
  { intros c. by rewrite Hperm, elem_of_elements. }
  unfold SimpleGreedyFallback_get_next_move.
  set (unsolved := filter (λ c, c ∉ targets s) crate_order).
  assert (Hunsolved : unsolved = [] ↔ crate_positions s ⊆ targets s).
  { split.
    - intros Hnil c Hc. destruct (decide (c ∈ targets s)) as [|Hn]; [done|].
      assert (H : c ∈ unsolved).
      { apply list_elem_of_filter. split; [done|]. by apply Hin. }
      rewrite Hnil in H. by apply elem_of_nil in H.
    - intros Hsub. apply filter_not_in_nil.
      intros c Hc%Hin. by apply Hsub. }
  destruct unsolved as [|c0 rest] eqn:E.
  { split; [done|]. split; [intros _; left; by apply Hunsolved|done]. }
  assert (Hoff : ¬ crate_positions s ⊆ targets s).
  { intros Hsub. by apply Hunsolved in Hsub. }
  match goal with |- context [List.find ?f ?l] =>
    set (try := f); set (M := l) end.
  assert (Hall : ∀ d, d ∈ M).
  { intros d. apply moves_to_try_complete. right.
    apply elem_of_Direction_members. }
  assert (Htry : ∀ d, try d = (move now d s).1).
  { intros d. unfold try. by rewrite clone_eq. }
  destruct (List.find try M) as [d|] eqn:Hfind.
  - split.
    + intros d' [= <-]. apply find_some in Hfind as [_ Hd].
      by rewrite <- Htry.
    + split; [done|]. intros [Hsub|Hnone]; [done|].
      apply find_some in Hfind as [_ Hd]. rewrite Htry, Hnone in Hd. done.
  - split; [done|]. split; [|done]. intros _. right. intros d.
    rewrite <- Htry. apply (find_none try M Hfind d).
    apply list_elem_of_In, Hall.
Qed.

Lemma SimpleGreedyFallback_get_next_move_spec_witness :
  let order := elements (crate_positions state_corridor) in
  (∀ d, SimpleGreedyFallback_get_next_move order 0 state_corridor = Some d →
        (move 0 d state_corridor).1 = true ∧
        ¬ crate_positions state_corridor ⊆ targets state_corridor) ∧
  (SimpleGreedyFallback_get_next_move order 0 state_corridor = None ↔
   crate_positions state_corridor ⊆ targets state_corridor ∨
   ∀ d, (move 0 d state_corridor).1 = false).
Proof.
  apply (SimpleGreedyFallback_get_next_move_spec
           (elements (crate_positions state_corridor)) 0 state_corridor).
  reflexivity.
Defined.

(** ** The controller and its plan *)

(** Whether a path is accepted does not depend on the clock readings, nor
    on counters and timestamps of the state it starts from. *)
Lemma accepted_path_indep (t t' : Z) (p : Path) :
  ∀ s s', same_board s s' → _get_state_hash s = _get_state_hash s' →
          accepted_path t p s → accepted_path t' p s'.
Proof.
  induction p as [|d r IH]; intros s s' Hb Hk Hacc; [done|].
  simpl in *. destruct Hacc as [Hok Hrest].
  destruct (move_key_det t t' d s s' Hb Hk) as [Eok Ekey].
  split; [congruence|]. eapply IH; [|exact Ekey|exact Hrest].
  destruct (move_static t d s) as (? & ? & ? & ? & _).
  destruct (move_static t' d s') as (? & ? & ? & ? & _).
  destruct Hb as (? & ? & ? & ?). unfold same_board.
  repeat split; congruence.
Qed.

(** X8. A plan the controller stores is fit for the state it was computed
    on: when [compute_solution] returns, the moves of the stored path are
    accepted by [move] one after the other from that state, whatever the
    clock reads when they are made. *)
Theorem compute_solution_plan_accepted (elapsed : Z → Z) (now t : Z)
    (c : AIController) (s : GameState) :
  controller_state c → constructed s →
  ∃ c', compute_solution elapsed now c s = Returned (true, c') ∧
        accepted_path t (solution_path c') s.
Proof.
  intros Hc Hs. apply controller_state_idle in Hc. apply constructed_ok in Hs.
  unfold compute_solution. rewrite Hc.
  destruct (search_algorithm_search_total elapsed now (search_algorithm c) s
              (search_times_get (difficulty c)) (difficulty c) Hs)
    as [r Hr].
  pose proof (search_result_sound elapsed now s Hs _ _ _ _ Hr) as Hsound.
  rewrite Hr.
  unfold result_sound in Hsound.
  destruct (sr_value r) as [[|m p]|]; eexists; (split; [reflexivity|]);
    simpl solution_path; try done.
  destruct Hsound as [Hacc _].
  eapply accepted_path_indep; [apply same_board_refl|done|exact Hacc].
Qed.

Lemma compute_solution_plan_accepted_witness :
  ∃ c', compute_solution (λ _, 0) 0 (AIController_init "dfs" "hard")
          state_corridor = Returned (true, c') ∧
        accepted_path 3 (solution_path c') state_corridor.
Proof.
  apply (compute_solution_plan_accepted (λ _, 0) 0 3
           (AIController_init "dfs" "hard") state_corridor).
  - apply controller_new.
  - exists level_corridor, "ai"%string, state_corridor.
    split; [vm_compute; reflexivity|apply reachable_refl].
Defined.

Lemma take_app_replicate {A} (l : list A) (x : A) (n m : nat) :
  (n ≤ m)%nat →
  take n (l ++ replicate m x)
  = take n l ++ replicate (n - length l) x.
Proof.
  intros Hnm. rewrite take_app, take_replicate. do 2 f_equal. lia.
Qed.

Lemma poll_moves_plan (now : Z) (ss : list (list Pos * GameState)) :
  ∀ (c : AIController) (k : nat),
  using_fallback c = false → current_step c = Z.of_nat k →
  let n := length ss in
  ∃ c', poll_moves now ss c
        = Returned (take n ((Some <$> drop k (solution_path c))
                            ++ replicate n None), c') ∧
        solution_path c' = solution_path c ∧
        using_fallback c' = false ∧
        current_step c' = Z.of_nat (k + n `min` (length (solution_path c) - k)).
Proof.
  induction ss as [|s ss IH]; intros c k Hf Hk; simpl length.
  - exists c. simpl poll_moves. rewrite take_0.
    repeat split; [done|]. rewrite Hk. f_equal. lia.
  - simpl poll_moves. unfold get_next_move. rewrite Hf, Hk.
    case_bool_decide as Hlt.
    + rewrite py_index_nat by lia. rewrite Nat2Z.id.
      destruct (lookup_lt_is_Some_2 (solution_path c) k) as [m Hm]; [lia|].
      rewrite Hm.
      set (c1 := mkAIController _ _ _ _ _ _ _).
      destruct (IH c1 (S k)) as (c' & -> & Hp & Hf' & Hk'); [done|simpl; lia|].
      exists c'. simpl solution_path in *.
      rewrite (drop_S _ _ _ Hm).
      rewrite !take_app_replicate by lia. simpl take. simpl length.
      split; [done|]. split; [done|]. split; [done|].
      rewrite Hk'. f_equal. lia.
    + destruct (IH c k Hf Hk) as (c' & -> & Hp & Hf' & Hk').
      exists c'. rewrite drop_ge by lia. rewrite fmap_nil.
      rewrite !take_app_replicate by lia. rewrite !take_nil. simpl length.
      split; [by rewrite !Nat.sub_0_r|split; [done|split; [done|]]].
      rewrite Hk'. f_equal. lia.
Qed.

(** X9. Once a plan is stored and the cursor is at its start,
    [get_next_move] hands out the moves of the plan in order, one per call,
    and [None] on every call after the last, whatever game states the
    caller passes and in whatever order their crate sets iterate;
    [has_solution] is true as long as a move is left and false from then
    on. No call raises. *)
Theorem get_next_move_streams_plan (now : Z)
    (ss : list (list Pos * GameState)) (c : AIController) :
  using_fallback c = false → current_step c = 0 →
  let n := length ss in
  ∃ c', poll_moves now ss c
        = Returned (take n ((Some <$> solution_path c) ++ replicate n None),
                    c') ∧
        has_solution c' = bool_decide (n < length (solution_path c))%nat.
Proof.
  intros Hf Hk n.
  destruct (poll_moves_plan now ss c 0 Hf Hk) as (c' & Hpoll & Hp & Hf' & Hk').
  exists c'. split; [exact Hpoll|].
  unfold has_solution. rewrite Hf', Hp, Hk'. fold n.
  rewrite Nat.sub_0_r, Nat.add_0_l.
  destruct (decide (n < length (solution_path c))%nat) as [Hlt|Hge].
  - rewrite !bool_decide_eq_true_2; [done|lia|lia|lia].
  - rewrite (bool_decide_eq_false_2 (n < _)%nat) by done.
    apply andb_false_iff. right. apply bool_decide_eq_false_2. lia.
Qed.

Lemma get_next_move_streams_plan_witness :
  ∃ c', poll_moves 0
          [([(2, 1)], state_corridor); ([(2, 1)], state_solved);
           ([(2, 1)], state_corridor)]
          (mkAIController "bfs" "easy" BFSSearch [RIGHT; UP] 0 false false)
        = Returned (take 3 ((Some <$> [RIGHT; UP]) ++ replicate 3 None), c') ∧
        has_solution c' = bool_decide (3 < 2)%nat.
Proof.
  apply (get_next_move_streams_plan 0
           [([(2, 1)], state_corridor); ([(2, 1)], state_solved);
            ([(2, 1)], state_corridor)]
           (mkAIController "bfs" "easy" BFSSearch [RIGHT; UP] 0 false false));
    reflexivity.
Defined.

(** ** The catalogue of levels *)

Lemma LEVELS_nonempty :
  map_Forall (λ _ levels, levels ≠ @nil (list string)) LEVELS.
Proof. apply (bool_decide_unpack _). vm_compute. exact I. Qed.

Lemma LEVELS_medium :
  LEVELS !! "medium"%string
  = Some [level_medium_1; level_medium_2; level_medium_3].
Proof. vm_compute. reflexivity. Qed.

Lemma dom_LEVELS (d : string) :
  d ∈ dom LEVELS ↔ d = "easy"%string ∨ d = "medium"%string ∨ d = "hard"%string.
Proof.
  unfold LEVELS. rewrite !dom_insert, dom_singleton.
  rewrite !elem_of_union, !elem_of_singleton. tauto.
Qed.

(** The [try] block: the dictionary is read at a key it holds, and the list
    found there is indexed. *)
Lemma get_level_try_unfold (difficulty : string) (level_index : Z) :
  let d := str_lower difficulty in
  let key := if bool_decide (d ∉ dom LEVELS) then "medium"%string else d in
  ∃ levels,
    LEVELS !! key = Some levels ∧ levels ≠ [] ∧
    get_level_try difficulty level_index
    = py_index levels
        (if bool_decide (Z.of_nat (length levels) ≤ level_index) then 0
         else level_index).
Proof.
  intros d key.
  assert (Hkey : key ∈ dom LEVELS).
  { unfold key. case_bool_decide as Hd.
    - apply dom_LEVELS. auto.
    - by destruct (decide (d ∈ dom LEVELS)). }
  apply elem_of_dom in Hkey as [levels Hl].
  exists levels. split; [exact Hl|]. split.
  - exact (LEVELS_nonempty _ _ Hl).
  - unfold get_level_try. fold d. fold key. by rewrite Hl.
Qed.

(** X10. [get_level] reads the difficulty without regard to case and takes
    ["medium"] for an unknown one. In the list of that difficulty an index
    past the end gives the first level, and a negative index counts from
    the end of the list, as Python indexing does; an index below minus the
    length raises in the [try] block, and the handler answers with the
    first medium level whatever the difficulty was. *)
Theorem get_level_spec (difficulty : string) (level_index : Z) :
  let d := str_lower difficulty in
  let key :=
    if bool_decide (d = "easy" ∨ d = "medium" ∨ d = "hard")%string then d
    else "medium"%string in
  ∃ levels,
    LEVELS !! key = Some levels ∧
    let n := Z.of_nat (length levels) in
    0 < n ∧
    (n ≤ level_index → get_level difficulty level_index = levels !! 0%nat) ∧
    (0 ≤ level_index < n →
     get_level difficulty level_index = levels !! Z.to_nat level_index) ∧
    (- n ≤ level_index < 0 →
     get_level difficulty level_index = levels !! Z.to_nat (n + level_index)) ∧
    (level_index < - n →
     get_level difficulty level_index = Some level_medium_1).
Proof.
  intros d key.
  destruct (get_level_try_unfold difficulty level_index)
    as (levels & Hl & Hne & Htry).
  fold d in Hl.
  assert (Ekey : (if bool_decide (d ∉ dom LEVELS) then "medium"%string else d)
                 = key).
  { unfold key. pose proof (dom_LEVELS d) as Hd.
    repeat case_bool_decide; tauto. }
  rewrite Ekey in Hl. exists levels. split; [exact Hl|]. intros n.
  assert (En : Z.of_nat (length levels) = n) by reflexivity. clearbody n.
  assert (Hn : 0 < n) by (destruct levels; [done|simpl in En; lia]).
  split; [exact Hn|].
  unfold get_level. rewrite Htry. unfold py_index. rewrite !En.
  repeat split; intros Hi.
  - rewrite !(bool_decide_eq_true_2 (n ≤ level_index)) by lia.
    rewrite (bool_decide_eq_true_2 (0 ≤ 0)) by lia. simpl.
    destruct levels; [done|reflexivity].
  - rewrite !(bool_decide_eq_false_2 (n ≤ level_index)) by lia.
    rewrite (bool_decide_eq_true_2 (0 ≤ level_index)) by lia.
    destruct (lookup_lt_is_Some_2 levels (Z.to_nat level_index)) as [l El];
      [lia|].
    by rewrite El.
  - rewrite !(bool_decide_eq_false_2 (n ≤ level_index)) by lia.
    rewrite (bool_decide_eq_false_2 (0 ≤ level_index)) by lia.
    rewrite (bool_decide_eq_true_2 (- n ≤ level_index)) by lia.
    destruct (lookup_lt_is_Some_2 levels (Z.to_nat (n + level_index)))
      as [l El]; [lia|].
    by rewrite El.
  - rewrite !(bool_decide_eq_false_2 (n ≤ level_index)) by lia.
    rewrite (bool_decide_eq_false_2 (0 ≤ level_index)) by lia.
    rewrite (bool_decide_eq_false_2 (- n ≤ level_index)) by lia.
    rewrite LEVELS_medium. reflexivity.
Qed.

(** Where a path leads, and whether its moves are accepted, do not depend
    on the clock readings, nor on the counters, the timestamps or the
    player id of the state it starts from. *)
Lemma run_path_indep (t t' : Z) (p : Path) :
  ∀ s s', same_board s s' → _get_state_hash s = _get_state_hash s' →
          _get_state_hash (run_path t p s) = _get_state_hash (run_path t' p s').
Proof.
  induction p as [|d r IH]; intros s s' Hb Hk; [done|].
  simpl. destruct (move_key_det t t' d s s' Hb Hk) as [_ Ekey].
  apply IH; [|exact Ekey].
  destruct (move_static t d s) as (? & ? & ? & ? & _).
  destruct (move_static t' d s') as (? & ? & ? & ? & _).
  destruct Hb as (? & ? & ? & ?). unfold same_board.
  repeat split; congruence.
Qed.

Lemma solves_indep (t t' : Z) (p : Path) (s s' : GameState) :
  same_board s s' → _get_state_hash s = _get_state_hash s' →
  solves t p s → solves t' p s'.
Proof.
  intros Hb Hk [Hacc Hsol]. split.
  - by eapply accepted_path_indep.
  - pose proof (run_path_indep t t' p s s' Hb Hk) as E.
    assert (Ht : targets (run_path t p s) = targets (run_path t' p s')).
    { pose proof (same_board_run t p s s (same_board_refl s)) as (_&_&_&E1).
      pose proof (same_board_run t' p s' s' (same_board_refl s'))
        as (_&_&_&E2).
      destruct Hb as (_&_&_&E3). congruence. }
    unfold is_solved, _get_state_hash in *. injection E as _ Ec.
    by rewrite <- Ec, <- Ht.
Qed.

Lemma LEVELS_catalogue :
  map_Forall (λ _ levels, Forall (λ level, level ∈ catalogue.*1) levels)
    LEVELS.
Proof. apply (bool_decide_unpack _). vm_compute. exact I. Qed.

Lemma catalogue_solved : Forall level_solved_by catalogue.
Proof. apply (bool_decide_unpack _). vm_compute. exact I. Qed.

(** [get_level] answers with a level of the dictionary. *)
Lemma get_level_served (difficulty : string) (level_index : Z) :
  ∃ key levels level,
    LEVELS !! key = Some levels ∧ level ∈ levels ∧
    get_level difficulty level_index = Some level.
Proof.
  destruct (get_level_try_unfold difficulty level_index)
    as (levels & Hl & Hne & Htry).
  unfold get_level. rewrite Htry.
  destruct (py_index levels _) as [level|] eqn:E.
  - eexists _, levels, level. split; [exact Hl|]. split; [|done].
    unfold py_index in E. repeat case_bool_decide; try done;
      by eapply list_elem_of_lookup_2.
  - rewrite LEVELS_medium. simpl.
    eexists "medium"%string, _, _. split; [exact LEVELS_medium|].
    split; [|reflexivity]. apply list_elem_of_here.
Qed.

(** X11. Whatever difficulty and index [get_level] is asked for, it
    answers with a level, [SokobanGame] loads it without raising, neither
    board starts solved, and the level can be solved: some sequence of
    moves is accepted by [move] from the first to the last on either board
    and leaves every crate on a target. *)
Theorem get_level_playable (difficulty : string) (level_index : Z) (now : Z) :
  ∃ level g p,
    get_level difficulty level_index = Some level ∧
    SokobanGame_init level = inr g ∧
    is_solved (human_state g) = false ∧
    is_solved (ai_state g) = false ∧
    solves now p (human_state g) ∧
    solves now p (ai_state g).
Proof.
  destruct (get_level_served difficulty level_index)
    as (key & levels & level & Hl & Hin & Hget).
  pose proof (LEVELS_catalogue _ _ Hl) as Hcat.
  rewrite Forall_forall in Hcat. apply Hcat in Hin.
  apply list_elem_of_fmap in Hin as ([l p] & -> & Hlp).
  pose proof catalogue_solved as Hsol. rewrite Forall_forall in Hsol.
  specialize (Hsol _ Hlp). unfold level_solved_by in Hsol. simpl in *.
  destruct (SokobanGame_init l) as [e|g] eqn:Hg; [done|].
  destruct Hsol as (Hh & Ha & Hsh & Hsa).
  exists l, g, p. repeat (split; [done|]). split.
  - apply (solves_indep 0 now p (human_state g) (human_state g));
      [apply same_board_refl|reflexivity|exact Hsh].
  - apply (solves_indep 0 now p (ai_state g) (ai_state g));
      [apply same_board_refl|reflexivity|exact Hsa].
Qed.

(** ** The game of two boards *)

Lemma parse_cell_with_player_id (pid : string) (x y : nat) (ch : ascii)
    (s : GameState) :
  parse_cell x y ch (with_player_id pid s)
  = with_player_id pid <$> parse_cell x y ch s.
Proof.
  unfold parse_cell. destruct (tile_map ch); simpl;
    destruct (grid_set (grid s) x y _); reflexivity.
Qed.

Lemma parse_row_with_player_id (pid : string) (y : nat) (row : list ascii) :
  ∀ x s, parse_row y x row (with_player_id pid s)
         = with_player_id pid <$> parse_row y x row s.
Proof.
  induction row as [|ch rest IH]; intros x s; [done|].
  simpl. rewrite parse_cell_with_player_id.
  destruct (parse_cell x y ch s) as [s'|]; [|done]. simpl. apply IH.
Qed.

Lemma parse_rows_with_player_id (pid : string) (rows : list string) :
  ∀ y s, parse_rows y rows (with_player_id pid s)
         = with_player_id pid <$> parse_rows y rows s.
Proof.
  induction rows as [|row rest IH]; intros y s; [done|].
  simpl. rewrite parse_row_with_player_id.
  destruct (parse_row y 0 _ s) as [s'|]; [|done]. simpl. apply IH.
Qed.

(** The player id has no part in the construction. *)
Lemma GameState_init_with_player_id (level : list string) (pid pid' : string) :
  GameState_init level pid'
  = match GameState_init level pid with
    | inl e => inl e
    | inr s => inr (with_player_id pid' s)
    end.
Proof.
  unfold GameState_init.
  destruct (py_max (String.length <$> level)) as [w|]; [|done].
  unfold _parse_level.
  match goal with |- context [parse_rows 0 level ?s] =>
    change s with (with_player_id pid'
                     (mkGameState pid 0 0 None None false (Z.of_nat w)
                        (Z.of_nat (length level))
                        (replicate (length level) (replicate w EMPTY))
                        (0, 0) ∅ ∅ ((0, 0), ∅)))
  end.
  rewrite parse_rows_with_player_id.
  destruct (parse_rows 0 level _) as [s|]; [|done]. simpl.
  repeat case_bool_decide; reflexivity.
Qed.

(** X12. [SokobanGame.reset] is all or nothing: when it raises, both boards
    are as they were before the call, and when it returns, both are what
    the constructor builds from the level. The two boards of a game are the
    same state but for the player id. *)
Theorem SokobanGame_reset_spec (level : list string) (g : SokobanGame) :
  match SokobanGame_reset level g with
  | (Some e, g') => g' = g ∧ SokobanGame_init level = inl e
  | (None, g') =>
      SokobanGame_init level = inr g' ∧
      ai_state g' = with_player_id "ai" (human_state g')
  end.
Proof.
  unfold SokobanGame_reset, SokobanGame_init.
  rewrite (GameState_init_with_player_id level "human" "ai").
  destruct (GameState_init level "human") as [e|h]; done.
Qed.

(** ** Ceilings of the searches *)

(** One step of a search on its frontier [c :: Q], its expanded keys [E]
    and its visited set [V]: [c] is expanded, and the new keys [N], none of
    them visited, join the frontier. *)
Lemma frontier_step (c : Key) (Q E N F' : list Key) (V V' : gset Key) :
  NoDup ((c :: Q) ++ E) →
  (∀ k, k ∈ (c :: Q) ++ E → k ∈ V) →
  NoDup N → (∀ k, k ∈ N → k ∉ V) →
  (∀ k, k ∈ V' ↔ k ∈ V ∨ k ∈ N) →
  F' ≡ₚ Q ++ N →
  NoDup (F' ++ c :: E) ∧ (∀ k, k ∈ F' ++ c :: E → k ∈ V').
Proof.
  intros Hnd Hvis HN Hfresh HV' Hperm. split.
  - rewrite Hperm.
    assert (HP : (Q ++ N) ++ c :: E ≡ₚ N ++ (c :: Q) ++ E).
    { rewrite (Permutation_app_comm Q N), <- (assoc_L (++)).
      apply Permutation_app_head. simpl. by rewrite Permutation_middle. }
    rewrite HP. apply NoDup_app. split; [done|]. split; [|done].
    intros k Hk Hk'. by apply (Hfresh k Hk), Hvis.
  - intros k Hk. apply HV'. rewrite Hperm in Hk.
    rewrite !elem_of_app, elem_of_cons in Hk.
    destruct Hk as [[Hk|Hk]|[->|Hk]]; [| by right | |]; left; apply Hvis;
      rewrite elem_of_app, elem_of_cons; tauto.
Qed.

Lemma frontier_pop (c : Key) (Q E : list Key) :
  NoDup ((c :: Q) ++ E) → NoDup (c :: E).
Proof.
  simpl. intros [Hc Hnd]%NoDup_cons. apply NoDup_cons. split.
  - intros Hin. apply Hc, elem_of_app. by right.
  - by apply NoDup_app in Hnd as (_ & _ & ?).
Qed.

Lemma frontier_done (Q E : list Key) : NoDup (Q ++ E) → NoDup E.
Proof. intros Hnd. by apply NoDup_app in Hnd as (_ & _ & ?). Qed.

Section Bounds.

Variable elapsed : Z → Z.
Variable now : Z.
Variable s0 : GameState.

Lemma astar_loop_ceiling (max_time max_nodes : Z) (fuel : nat) :
  ∀ (v : AStarVars) (r : SearchResult),
  a_nodes_explored v = Z.of_nat (length (a_expanded v)) →
  a_nodes_explored v < max_nodes →
  astar_loop elapsed now max_time max_nodes fuel v = Returned r →
  Z.of_nat (length (sr_expanded r)) ≤ max_nodes ∧
  (sr_exit r = ExitNodeLimit → Z.of_nat (length (sr_expanded r)) = max_nodes).
Proof.
  induction fuel as [|fuel IH]; intros v r Hcnt Hlt Hr; [done|].
  simpl in Hr. destruct (a_pq v) as [|e0 q].
  { unfold astar_after_loop in Hr. injection Hr as <-. simpl. split; [lia|done]. }
  case_bool_decide.
  { injection Hr as <-. simpl. split; [lia|done]. }
  unfold pq_get in Hr. destruct (pq_extract e0 q) as [entry pq].
  destruct (_heuristic (e_state entry)) as [h|]; [|done].
  destruct (is_solved (e_state entry)).
  { injection Hr as <-. simpl. split; [lia|done]. }
  destruct (for_each _ _ _) as [[[pq' visited'] counter']|]; [|done].
  case_bool_decide.
  - match type of Hr with context [match ?b with [] => _ | _ :: _ => _ end] =>
      destruct b end;
      [unfold astar_after_loop in Hr|]; injection Hr as <-; simpl; lia.
  - eapply IH; [| |exact Hr]; simpl; lia.
Qed.

Lemma bfs_loop_bounds (max_time max_nodes : Z) (fuel : nat) :
  ∀ (v : BFSVars) (r : SearchResult),
  Forall (λ e, path_ok now s0 e.1 e.2) (b_queue v) →
  NoDup ((bfs_key <$> b_queue v) ++ b_expanded v) →
  (∀ k, k ∈ (bfs_key <$> b_queue v) ++ b_expanded v → k ∈ b_visited v) →
  b_nodes_explored v = Z.of_nat (length (b_expanded v)) →
  b_nodes_explored v < max_nodes →
  (length (b_best_path v) < 100)%nat →
  bfs_loop elapsed now max_time max_nodes fuel v = Returned r →
  NoDup (sr_expanded r) ∧
  Z.of_nat (length (sr_expanded r)) ≤ max_nodes ∧
  (sr_exit r = ExitNodeLimit →
   Z.of_nat (length (sr_expanded r)) = max_nodes) ∧
  (sr_exit r ≠ ExitSolved →
   ∀ p, sr_value r = Some p → (length p < 100)%nat).
Proof.
  induction fuel as [|fuel IH]; intros v r Hq Hnd Hvis Hcnt Hlt Hbest Hr;
    [done|].
  simpl in Hr. destruct (b_queue v) as [|[cur path] queue] eqn:Hqueue.
  { injection Hr as <-. simpl. split; [done|]. split; [lia|done]. }
  assert (Hpartial : ∀ best : Path, (length best < 100)%nat →
            ∀ p, path_or_none best = Some p → (length p < 100)%nat).
  { intros [|d best] Hb p; simpl; [done|]. by intros [= <-]. }
  case_bool_decide.
  { injection Hr as <-. simpl. split; [by eapply frontier_done|].
    split; [lia|]. split; [done|]. intros _. by apply Hpartial. }
  apply Forall_cons in Hq as [Hcur Hq]. simpl in Hcur.
  set (best := if bool_decide (length (b_best_path v) < length path)%nat
                  && bool_decide (length path < 100)%nat
               then path else b_best_path v) in *.
  assert (Hbest' : (length best < 100)%nat).
  { unfold best. repeat case_bool_decide; cbn [andb]; done. }
  rewrite fmap_cons in Hnd, Hvis.
  destruct (is_solved cur) eqn:Hsolved.
  { injection Hr as <-. simpl. split; [by eapply frontier_pop|].
    split; [lia|done]. }
  destruct Hcur as [Hcur Hacc].
  destruct (bfs_try_fold elapsed now s0 cur path Hcur Hacc Direction_members
              queue (b_visited v)) as (new & E1 & Hnew & HV' & HN & Hfresh & _).
  destruct (foldl (bfs_try now cur path) (queue, b_visited v)
              Direction_members) as [queue' visited'].
  simpl in E1, HV'. subst queue'.
  destruct (frontier_step (bfs_key (cur, path)) (bfs_key <$> queue)
              (b_expanded v) (bfs_key <$> new) (bfs_key <$> (queue ++ new))
              (b_visited v) visited') as [Hnd' Hvis']; try done.
  { by rewrite fmap_app. }
  case_bool_decide.
  - assert (Hex : NoDup (bfs_key (cur, path) :: b_expanded v))
      by (by eapply frontier_pop).
    destruct best as [|d p] eqn:Eb; injection Hr as <-; simpl;
      (split; [done|]; split; [lia|]; split; [lia|]); [done|].
    intros _ p' [= <-]. done.
  - eapply IH; [| | | | | |exact Hr]; simpl; try done; try lia.
    apply Forall_app. split; [done|].
    eapply Forall_impl; [exact Hnew|]. by intros e [? _].
Qed.

Lemma dfs_try_eq (cur : GameState) (path : Path) (depth : Z)
    (S : list (GameState * Path * Z)) (V : gset Key) (d : Direction) :
  dfs_try now cur path depth (S, V) d
  = if (move now d cur).1
    then if bool_decide (_get_state_hash (move now d cur).2 ∉ V)
         then (((move now d cur).2, path ++ [d], depth + 1) :: S,
               V ∪ {[_get_state_hash (move now d cur).2]})
         else (S, V)
    else (S, V).
Proof. unfold dfs_try. rewrite clone_eq. by destruct (move now d cur) as [[] ?]. Qed.

(** The loop over the four directions: the stack grows at its top by the
    accepted moves to keys not yet visited, one level deeper. *)
Lemma dfs_try_fold (cur : GameState) (path : Path) (depth : Z) :
  path_ok now s0 cur path →
  ∀ (dirs : list Direction) (S : list (GameState * Path * Z)) (V : gset Key),
  ∃ new,
    (foldl (dfs_try now cur path depth) (S, V) dirs).1 = new ++ S ∧
    Forall (λ e, path_ok now s0 e.1.1 e.1.2 ∧
                 length e.1.2 = Datatypes.S (length path) ∧
                 e.2 = depth + 1) new ∧
    (∀ k, k ∈ (foldl (dfs_try now cur path depth) (S, V) dirs).2
          ↔ k ∈ V ∨ k ∈ dfs_key <$> new) ∧
    NoDup (dfs_key <$> new) ∧
    (∀ k, k ∈ dfs_key <$> new → k ∉ V).
Proof.
  intros Hcur. induction dirs as [|d dirs IH]; intros S V.
  { exists []. simpl. split; [done|]. split; [constructor|]. split.
    { intros k. split; [by left|]. intros [?|Hk]; [done|].
      by apply elem_of_nil in Hk. }
    split; [constructor|]. intros k Hk. by apply elem_of_nil in Hk. }
  change (foldl (dfs_try now cur path depth) (S, V) (d :: dirs))
    with (foldl (dfs_try now cur path depth)
            (dfs_try now cur path depth (S, V) d) dirs).
  rewrite dfs_try_eq.
  pose proof (path_ok_step now s0 cur path d Hcur) as Hstep.
  destruct (move now d cur) as [ok new_state]. simpl in *.
  destruct ok; [|apply IH]. case_bool_decide as Hk; [|apply IH].
  destruct (IH ((new_state, path ++ [d], depth + 1) :: S)
              (V ∪ {[_get_state_hash new_state]}))
    as (new & E1 & Hnew & HV' & HN & Hfresh).
  exists (new ++ [(new_state, path ++ [d], depth + 1)]).
  split; [by rewrite E1, <- (assoc_L (++))|]. split.
  { apply Forall_app. split; [done|]. constructor; [|constructor]. simpl.
    split; [by apply Hstep|]. split; [|done].
    rewrite length_app. simpl. lia. }
  rewrite fmap_app. simpl. split.
  { intros k. rewrite HV', elem_of_app, elem_of_union, !list_elem_of_singleton,
      elem_of_singleton. unfold dfs_key at 2. simpl. tauto. }
  split.
  { apply NoDup_app. split; [done|]. split; [|apply NoDup_singleton].
    intros k Hin ->%list_elem_of_singleton. apply (Hfresh _ Hin).
    apply elem_of_union. right. by apply elem_of_singleton. }
  intros k [Hin| ->%list_elem_of_singleton]%elem_of_app.
  - intros HkV. apply (Hfresh _ Hin). apply elem_of_union. by left.
  - done.
Qed.

Lemma dfs_loop_bounds (max_time max_nodes max_depth : Z) (fuel : nat) :
  ∀ (v : DFSVars) (r : SearchResult),
  Forall (λ e, path_ok now s0 e.1.1 e.1.2 ∧
               e.2 = Z.of_nat (length e.1.2) ∧ e.2 ≤ max_depth) (d_stack v) →
  NoDup ((dfs_key <$> d_stack v) ++ d_expanded v) →
  (∀ k, k ∈ (dfs_key <$> d_stack v) ++ d_expanded v → k ∈ d_visited v) →
  (length (d_best_path v) < 100)%nat →
  Z.of_nat (length (d_best_path v)) ≤ max_depth →
  dfs_loop elapsed now max_time max_nodes max_depth fuel v = Returned r →
  NoDup (sr_expanded r) ∧
  ∀ p, sr_value r = Some p →
       Z.of_nat (length p) ≤ max_depth ∧
       (sr_exit r ≠ ExitSolved → (length p < 100)%nat).
Proof.
  induction fuel as [|fuel IH]; intros v r Hq Hnd Hvis Hbest Hdepth Hr;
    [done|].
  simpl in Hr.
  destruct (d_stack v) as [|[[cur path] depth] stack] eqn:Hstack.
  { injection Hr as <-. simpl. split; [done|]. done. }
  assert (Hpartial : ∀ best : Path, (length best < 100)%nat →
            Z.of_nat (length best) ≤ max_depth →
            ∀ p, path_or_none best = Some p →
                 Z.of_nat (length p) ≤ max_depth ∧ (length p < 100)%nat).
  { intros [|d best] Hb Hd p; simpl; [done|]. by intros [= <-]. }
  case_bool_decide.
  { injection Hr as <-. simpl. split; [by eapply frontier_done|].
    intros p Hp. destruct (Hpartial _ Hbest Hdepth p Hp). done. }
  apply Forall_cons in Hq as [(Hcur & Hd & Hmax) Hq]. simpl in Hcur, Hd, Hmax.
  set (best := if bool_decide (length (d_best_path v) < length path)%nat
                  && bool_decide (length path < 100)%nat
               then path else d_best_path v) in *.
  assert (Hbest' : (length best < 100)%nat ∧ Z.of_nat (length best) ≤ max_depth).
  { unfold best. repeat case_bool_decide; cbn [andb]; (split; [done|lia]). }
  destruct Hbest' as [Hbest' Hdepth'].
  rewrite fmap_cons in Hnd, Hvis.
  destruct (is_solved cur) eqn:Hsolved.
  { injection Hr as <-. simpl. split; [by eapply frontier_pop|].
    intros p [= <-]. split; [lia|done]. }
  case_bool_decide as Hdeep.
  { destruct (frontier_step (dfs_key (cur, path, depth)) (dfs_key <$> stack)
                (d_expanded v) [] (dfs_key <$> stack)
                (d_visited v) (d_visited v)) as [Hnd' Hvis']; try done.
    - constructor.
    - intros k Hk. by apply elem_of_nil in Hk.
    - intros k. split; [by left|]. intros [?|Hk]; [done|].
      by apply elem_of_nil in Hk.
    - by rewrite app_nil_r.
    - eapply IH; [| | | | |exact Hr]; done. }
  destruct (dfs_try_fold cur path depth Hcur Direction_members stack
              (d_visited v)) as (new & E1 & Hnew & HV' & HN & Hfresh).
  destruct (foldl (dfs_try now cur path depth) (stack, d_visited v)
              Direction_members) as [stack' visited'].
  simpl in E1, HV'. subst stack'.
  destruct (frontier_step (dfs_key (cur, path, depth)) (dfs_key <$> stack)
              (d_expanded v) (dfs_key <$> new) (dfs_key <$> (new ++ stack))
              (d_visited v) visited') as [Hnd' Hvis']; try done.
  { rewrite fmap_app. apply Permutation_app_comm. }
  case_bool_decide.
  - assert (Hex : NoDup (dfs_key (cur, path, depth) :: d_expanded v))
      by (by eapply frontier_pop).
    destruct best as [|d p] eqn:Eb; injection Hr as <-; simpl;
      (split; [done|]); [done|].
    intros p' [= <-]. done.
  - eapply IH; [| | | | |exact Hr]; simpl; try done.
    apply Forall_app. split; [|done].
    eapply Forall_impl; [exact Hnew|].
    intros e (? & Hl & He). split; [done|]. split; lia.
Qed.

End Bounds.

Lemma AStarSearch_search_ceiling (elapsed : Z → Z) (now : Z)
    (initial_state : GameState) (max_time : Z) (difficulty : string)
    (r : SearchResult) :
  AStarSearch_search elapsed now initial_state max_time difficulty
  = Returned r →
  Z.of_nat (length (sr_expanded r)) ≤ astar_max_nodes difficulty ∧
  (sr_exit r = ExitNodeLimit →
   Z.of_nat (length (sr_expanded r)) = astar_max_nodes difficulty).
Proof.
  unfold AStarSearch_search, astar_search_with. intros Hr.
  destruct (_heuristic initial_state) as [h|]; [|done].
  eapply astar_loop_ceiling; [| |exact Hr]; simpl; [done|].
  unfold astar_max_nodes. repeat case_bool_decide; lia.
Qed.

Lemma BFSSearch_search_bounds (elapsed : Z → Z) (now : Z)
    (initial_state : GameState) (max_time : Z) (difficulty : string)
    (r : SearchResult) :
  BFSSearch_search elapsed now initial_state max_time difficulty
  = Returned r →
  NoDup (sr_expanded r) ∧
  Z.of_nat (length (sr_expanded r)) ≤ bfs_max_nodes difficulty ∧
  (sr_exit r = ExitNodeLimit →
   Z.of_nat (length (sr_expanded r)) = bfs_max_nodes difficulty) ∧
  (sr_exit r ≠ ExitSolved →
   ∀ p, sr_value r = Some p → (length p < 100)%nat).
Proof.
  unfold BFSSearch_search, bfs_search_with. intros Hr.
  eapply (bfs_loop_bounds elapsed now initial_state);
    [| | | | | |exact Hr]; simpl.
  - by constructor.
  - apply NoDup_singleton.
  - intros k ->%list_elem_of_singleton. unfold bfs_key. simpl. set_solver.
  - done.
  - unfold bfs_max_nodes. repeat case_bool_decide; lia.
  - lia.
Qed.

Lemma DFSSearch_search_bounds (elapsed : Z → Z) (now : Z)
    (initial_state : GameState) (max_time : Z) (difficulty : string)
    (r : SearchResult) :
  DFSSearch_search elapsed now initial_state max_time difficulty
  = Returned r →
  NoDup (sr_expanded r) ∧
  ∀ p, sr_value r = Some p →
       Z.of_nat (length p) ≤ dfs_max_depth difficulty ∧
       (sr_exit r ≠ ExitSolved → (length p < 100)%nat).
Proof.
  unfold DFSSearch_search, dfs_search_with. intros Hr.
  assert (Hd : 0 ≤ dfs_max_depth difficulty)
    by (unfold dfs_max_depth; repeat case_bool_decide; lia).
  eapply (dfs_loop_bounds elapsed now initial_state);
    [| | | | |exact Hr]; simpl.
  - by constructor.
  - apply NoDup_singleton.
  - intros k ->%list_elem_of_singleton. unfold dfs_key. simpl. set_solver.
  - lia.
  - done.
Qed.

(** X13. Like the A* search, the breadth-first and the depth-first search
    take no canonical key from their frontier twice within one call: each
    call returns, and the keys of the states it expanded are pairwise
    distinct. *)
Theorem BFS_DFS_expand_once (elapsed : Z → Z) (now : Z)
    (initial_state : GameState) (max_time : Z) (difficulty : string) :
  (∃ r, BFSSearch_search elapsed now initial_state max_time difficulty
        = Returned r ∧ NoDup (sr_expanded r)) ∧
  (∃ r, DFSSearch_search elapsed now initial_state max_time difficulty
        = Returned r ∧ NoDup (sr_expanded r)).
Proof.
  split.
  - destruct (BFSSearch_search_total elapsed now initial_state max_time
                difficulty) as [r Hr].
    exists r. split; [exact Hr|].
    by destruct (BFSSearch_search_bounds _ _ _ _ _ _ Hr) as [? _].
  - destruct (DFSSearch_search_total elapsed now initial_state max_time
                difficulty) as [r Hr].
    exists r. split; [exact Hr|].
    by destruct (DFSSearch_search_bounds _ _ _ _ _ _ Hr) as [? _].
Qed.

(** X14. The A* search and the breadth-first search keep to their node
    ceiling: a call expands at most [max_nodes] states of the difficulty it
    is given, and when it leaves at the ceiling it has expanded exactly
    that many. *)
Theorem search_node_ceiling (elapsed : Z → Z) (now : Z)
    (initial_state : GameState) (max_time : Z) (difficulty : string) :
  state_ok initial_state →
  (∃ r, AStarSearch_search elapsed now initial_state max_time difficulty
        = Returned r ∧
        Z.of_nat (length (sr_expanded r)) ≤ astar_max_nodes difficulty ∧
        (sr_exit r = ExitNodeLimit →
         Z.of_nat (length (sr_expanded r)) = astar_max_nodes difficulty)) ∧
  (∃ r, BFSSearch_search elapsed now initial_state max_time difficulty
        = Returned r ∧
        Z.of_nat (length (sr_expanded r)) ≤ bfs_max_nodes difficulty ∧
        (sr_exit r = ExitNodeLimit →
         Z.of_nat (length (sr_expanded r)) = bfs_max_nodes difficulty)).
Proof.
  intros Hok. split.
  - destruct (AStarSearch_search_total elapsed now initial_state max_time
                difficulty Hok) as [r Hr].
    exists r. split; [exact Hr|].
    exact (AStarSearch_search_ceiling _ _ _ _ _ _ Hr).
  - destruct (BFSSearch_search_total elapsed now initial_state max_time
                difficulty) as [r Hr].
    exists r. split; [exact Hr|].
    destruct (BFSSearch_search_bounds _ _ _ _ _ _ Hr) as (_ & ? & ? & _).
    done.
Qed.

Lemma search_node_ceiling_witness :
  (∃ r, AStarSearch_search (λ _, 0) 0 state_corridor 5000 "easy"
        = Returned r ∧
        Z.of_nat (length (sr_expanded r)) ≤ astar_max_nodes "easy" ∧
        (sr_exit r = ExitNodeLimit →
         Z.of_nat (length (sr_expanded r)) = astar_max_nodes "easy")) ∧
  (∃ r, BFSSearch_search (λ _, 0) 0 state_corridor 5000 "easy"
        = Returned r ∧
        Z.of_nat (length (sr_expanded r)) ≤ bfs_max_nodes "easy" ∧
        (sr_exit r = ExitNodeLimit →
         Z.of_nat (length (sr_expanded r)) = bfs_max_nodes "easy")).
Proof.
  apply (search_node_ceiling (λ _, 0) 0 state_corridor 5000 "easy").
  apply (GameState_init_ok level_corridor "ai"). vm_compute. reflexivity.
Defined.

(** X15. The depth-first search returns no path longer than the depth limit
    of the difficulty, solution or not; and a path that the breadth-first
    or the depth-first search returns without having reached a solved
    state (on a timeout or at the node ceiling) has fewer than 100
    moves. *)
Theorem search_path_lengths (elapsed : Z → Z) (now : Z)
    (initial_state : GameState) (max_time : Z) (difficulty : string) :
  (∃ r, BFSSearch_search elapsed now initial_state max_time difficulty
        = Returned r ∧
        ∀ p, sr_value r = Some p → sr_exit r ≠ ExitSolved →
             (length p < 100)%nat) ∧
  (∃ r, DFSSearch_search elapsed now initial_state max_time difficulty
        = Returned r ∧
        ∀ p, sr_value r = Some p →
             Z.of_nat (length p) ≤ dfs_max_depth difficulty ∧
             (sr_exit r ≠ ExitSolved → (length p < 100)%nat)).
Proof.
  split.
  - destruct (BFSSearch_search_total elapsed now initial_state max_time
                difficulty) as [r Hr].
    exists r. split; [exact Hr|].
    destruct (BFSSearch_search_bounds _ _ _ _ _ _ Hr) as (_ & _ & _ & H).
    intros p Hp Hexit. by apply H.
  - destruct (DFSSearch_search_total elapsed now initial_state max_time
                difficulty) as [r Hr].
    exists r. split; [exact Hr|].
    by destruct (DFSSearch_search_bounds _ _ _ _ _ _ Hr) as [_ ?].
Qed.

(** ** The board the parser builds *)

(** What one cell of the level does to the state. *)
Lemma parse_cell_effect (x y : nat) (ch : ascii) (s s' : GameState) :
  parse_cell x y ch s = Some s' →
  let p : Pos := (Z.of_nat x, Z.of_nat y) in
  ∃ row, grid s !! y = Some row ∧ (x < length row)%nat ∧
    grid s' = <[y := <[x := terrain (Some ch)]> row]> (grid s) ∧
    targets s' = (if is_target_char ch then targets s ∪ {[p]}
                  else targets s) ∧
    crate_positions s' = (if is_crate_char ch then crate_positions s ∪ {[p]}
                          else crate_positions s) ∧
    player_pos s' = (if is_player_char ch then p else player_pos s).
Proof.
  unfold parse_cell, tile_map, terrain, is_crate_char, is_target_char,
    is_player_char, grid_set.
  repeat case_bool_decide; subst; try discriminate; simpl orb; cbv iota;
    simpl; (destruct (grid s !! y) as [row|]; [|done]); simpl;
    (case_bool_decide; [|done]); intros [= <-]; exists row; done.
Qed.

Lemma parsed_before_step (p : Pos) (x y : nat) :
  parsed_before p (S x) y
  ↔ parsed_before p x y ∨ p = (Z.of_nat x, Z.of_nat y).
Proof.
  destruct p as [px py]. unfold parsed_before. simpl. split.
  - intros (H1 & H2 & H3).
    destruct (decide (px = Z.of_nat x ∧ py = Z.of_nat y)) as [[-> ->]|Hne];
      [by right|].
    left. lia.
  - intros [H|[= -> ->]]; lia.
Qed.

Lemma board_inv_cell (L : Pos → option ascii) (w h : nat) (s s' : GameState)
    (x y : nat) (ch : ascii) :
  board_inv L w h s x y → (x < w)%nat → (y < h)%nat →
  L (Z.of_nat x, Z.of_nat y) = Some ch →
  parse_cell x y ch s = Some s' →
  board_inv L w h s' (S x) y.
Proof.
  intros (G1 & G2 & T & C & P) Hx Hy HL Hcell.
  destruct (parse_cell_effect x y ch s s' Hcell)
    as (row & Hrow & Hlen & Eg & Et & Ec & Ep).
  pose proof parsed_before_step as Hnext.
  split; [|split; [|split; [|split]]].
  - intros p H1 H2 Hb. rewrite Eg. apply Hnext in Hb as [Hb| ->].
    + rewrite grid_get_insert_ne;
        [by apply G1|done|lia|lia|by apply parsed_before_ne].
    + simpl. rewrite grid_get_insert_eq; [by rewrite HL|done|done].
  - intros p H1 H2 Hnb. rewrite Eg.
    rewrite grid_get_insert_ne; [|done|lia|lia|].
    + apply G2; [done|done|]. intros Hb. apply Hnb, Hnext. by left.
    + intros ->. apply Hnb, parsed_before_here.
  - intros p. rewrite Hnext, Et. destruct (is_target_char ch) eqn:E.
    + rewrite elem_of_union, elem_of_singleton, T. split.
      * intros [[Hb Hch]| ->]; [split; [by left|done]|].
        split; [by right|eauto].
      * intros [[Hb| ->] Hch]; [by left|by right].
    + rewrite T. split.
      * intros [Hb Hch]. split; [by left|done].
      * intros [[Hb| ->] (ch' & Hch' & Ht)]; [eauto|]. congruence.
  - intros p. rewrite Hnext, Ec. destruct (is_crate_char ch) eqn:E.
    + rewrite elem_of_union, elem_of_singleton, C. split.
      * intros [[Hb Hch]| ->]; [split; [by left|done]|].
        split; [by right|eauto].
      * intros [[Hb| ->] Hch]; [by left|by right].
    + rewrite C. split.
      * intros [Hb Hch]. split; [by left|done].
      * intros [[Hb| ->] (ch' & Hch' & Ht)]; [eauto|]. congruence.
  - unfold player_placed. rewrite Ep. destruct (is_player_char ch) eqn:E.
    + right. split; [apply parsed_before_here|]. split; [eauto|].
      intros p ch' Hb _ _. unfold reading_le. simpl.
      apply Hnext in Hb as [(_ & _ & Hb)| ->]; simpl; lia.
    + destruct P as [[P0 Pn]|(Pb & Pch & Pl)].
      * left. split; [done|].
        intros p ch' [Hb| ->]%Hnext Hch'; [by eapply Pn|congruence].
      * right. split; [by apply parsed_before_next|]. split; [done|].
        intros p ch' [Hb| ->]%Hnext Hch' Hp; [by eapply Pl|congruence].
Qed.

Lemma board_inv_row (L : Pos → option ascii) (w h y : nat) (row : list ascii) :
  ∀ (x : nat) (s s' : GameState),
  board_inv L w h s x y → (x + length row ≤ w)%nat → (y < h)%nat →
  (∀ i ch, row !! i = Some ch →
           L (Z.of_nat (x + i), Z.of_nat y) = Some ch) →
  parse_row y x row s = Some s' →
  board_inv L w h s' (x + length row) y.
Proof.
  induction row as [|ch rest IH]; intros x s s' Hinv Hx Hy HL Hrow.
  - simpl in *. injection Hrow as <-. by rewrite Nat.add_0_r.
  - simpl in Hx, Hrow.
    destruct (parse_cell x y ch s) as [s1|] eqn:Hcell; [|done]. simpl in Hrow.
    simpl length. replace (x + S (length rest))%nat
      with (S x + length rest)%nat by lia.
    apply (IH (S x) s1 s'); [|lia|done| |done].
    + apply (board_inv_cell L w h s s1 x y ch); [done|lia|done| |done].
      specialize (HL 0%nat ch eq_refl). by rewrite Nat.add_0_r in HL.
    + intros i ch' Hi. specialize (HL (S i) ch' Hi).
      by replace (S x + i)%nat with (x + S i)%nat by lia.
Qed.

Lemma board_inv_newline (L : Pos → option ascii) (w h : nat) (s : GameState)
    (x y : nat) :
  board_inv L w h s x y →
  (∀ p, p.2 = Z.of_nat y → Z.of_nat x ≤ p.1 → L p = None) →
  board_inv L w h s 0 (S y).
Proof.
  intros (G1 & G2 & T & C & P) Hnone.
  assert (Hnl : ∀ p, parsed_before p 0 (S y) ↔
            parsed_before p x y ∨
            (0 ≤ p.1 ∧ p.2 = Z.of_nat y ∧ Z.of_nat x ≤ p.1)).
  { intros [px py]. unfold parsed_before. simpl. lia. }
  assert (Hnew : ∀ p, 0 ≤ p.1 ∧ p.2 = Z.of_nat y ∧ Z.of_nat x ≤ p.1 →
            L p = None ∧ ¬ parsed_before p x y).
  { intros [px py] (H0 & Hy & Hx). split; [by apply Hnone|].
    unfold parsed_before. simpl in *. lia. }
  split; [|split; [|split; [|split]]].
  - intros p H1 H2 [Hb|Hb]%Hnl; [by apply G1|].
    destruct (Hnew p Hb) as [-> Hnb]. simpl. by apply G2.
  - intros p H1 H2 Hnb. apply G2; [done|done|].
    intros Hb. apply Hnb, Hnl. by left.
  - intros p. rewrite T, Hnl. split.
    + intros [Hb Hch]. split; [by left|done].
    + intros [[Hb|Hb] (ch & Hch & Ht)]; [eauto|].
      destruct (Hnew p Hb) as [E _]. congruence.
  - intros p. rewrite C, Hnl. split.
    + intros [Hb Hch]. split; [by left|done].
    + intros [[Hb|Hb] (ch & Hch & Ht)]; [eauto|].
      destruct (Hnew p Hb) as [E _]. congruence.
  - destruct P as [[P0 Pn]|(Pb & Pch & Pl)].
    + left. split; [done|]. intros p ch [Hb|Hb]%Hnl Hch; [by eapply Pn|].
      destruct (Hnew p Hb) as [E _]. congruence.
    + right. split; [apply Hnl; by left|]. split; [done|].
      intros p ch [Hb|Hb]%Hnl Hch Hp; [by eapply Pl|].
      destruct (Hnew p Hb) as [E _]. congruence.
Qed.

Lemma board_inv_rows (level : list string) (w h : nat) (rows : list string) :
  ∀ (pre : list string) (s s' : GameState),
  level = pre ++ rows →
  board_inv (level_char level) w h s 0 (length pre) →
  (length level ≤ h)%nat →
  Forall (λ row, String.length row ≤ w)%nat rows →
  parse_rows (length pre) rows s = Some s' →
  board_inv (level_char level) w h s' 0 (length level).
Proof.
  induction rows as [|row rest IH]; intros pre s s' Hlevel Hinv Hh Hw Hrows.
  - simpl in Hrows. injection Hrows as <-.
    rewrite app_nil_r in Hlevel. by rewrite Hlevel in *.
  - simpl in Hrows. apply Forall_cons in Hw as [Hrow Hw].
    destruct (parse_row (length pre) 0 (list_ascii_of_string row) s)
      as [s1|] eqn:Hprow; [|done].
    simpl in Hrows.
    assert (Hlook : level !! length pre = Some row).
    { rewrite Hlevel. rewrite lookup_app_r by lia.
      by rewrite Nat.sub_diag. }
    assert (Hlen : (length pre < length level)%nat).
    { by apply lookup_lt_Some in Hlook. }
    apply (IH (pre ++ [row]) s1 s').
    + by rewrite Hlevel, <- (assoc_L (++)).
    + rewrite length_app. simpl. rewrite Nat.add_1_r.
      apply (board_inv_newline _ w h s1
               (0 + length (list_ascii_of_string row)) (length pre)).
      * apply (board_inv_row _ w h (length pre) _ 0 s s1); try done.
        -- simpl. rewrite length_list_ascii_of_string. lia.
        -- lia.
        -- intros i ch Hi. unfold level_char. simpl.
           rewrite bool_decide_eq_true_2 by lia.
           rewrite !Nat2Z.id, Hlook. done.
      * intros [px py] Hy Hx. simpl in *. unfold level_char. simpl.
        case_bool_decide; [|done]. subst py. rewrite Nat2Z.id, Hlook. simpl.
        apply lookup_ge_None_2. lia.
    + done.
    + done.
    + rewrite length_app. simpl. by rewrite Nat.add_1_r.
Qed.

Lemma board_inv_initial (L : Pos → option ascii) (w h : nat) (pid : string) :
  board_inv L w h
    (mkGameState pid 0 0 None None false (Z.of_nat w) (Z.of_nat h)
       (replicate h (replicate w EMPTY)) (0, 0) ∅ ∅ ((0, 0), ∅)) 0 0.
Proof.
  assert (Hnone : ∀ p, ¬ parsed_before p 0 0).
  { intros [px py]. unfold parsed_before. simpl. lia. }
  split; [|split; [|split; [|split]]]; simpl.
  - intros p _ _ Hb. by apply Hnone in Hb.
  - intros [px py] H1 H2 _. simpl in *. rewrite grid_get_nat by lia.
    rewrite lookup_replicate_2 by lia. simpl.
    by rewrite lookup_replicate_2 by lia.
  - intros p. split; [set_solver|]. intros [Hb _]. by apply Hnone in Hb.
  - intros p. split; [set_solver|]. intros [Hb _]. by apply Hnone in Hb.
  - left. split; [done|]. intros p ch Hb. by apply Hnone in Hb.
Qed.

(** The state the constructor returns satisfies the invariant of the
    parser at the end of the level, and every symbol of the level lies
    inside the grid. *)
Lemma GameState_init_board_inv (level : list string) (pid : string)
    (s : GameState) :
  GameState_init level pid = inr s →
  let L := level_char level in
  ∃ w : nat,
    width s = Z.of_nat w ∧ height s = Z.of_nat (length level) ∧
    board_inv L w (length level) s 0 (length level) ∧
    (∀ p ch, L p = Some ch →
             0 ≤ p.1 < Z.of_nat w ∧ 0 ≤ p.2 < Z.of_nat (length level)).
Proof.
  intros Hinit L. unfold GameState_init in Hinit.
  destruct (py_max (String.length <$> level)) as [w|] eqn:Hmax; [|done].
  apply py_max_bound in Hmax. rewrite Forall_fmap in Hmax.
  set (h := length level) in *.
  destruct (_parse_level level _) as [s1|] eqn:Hparse; [|done].
  assert (Hs : s = set_initial_state (_get_state_hash s1) s1).
  { repeat case_bool_decide; try done. by injection Hinit as <-. }
  clear Hinit.
  assert (Hinv : board_inv L w h s1 0 h).
  { eapply (board_inv_rows level w h level []);
      [done|apply board_inv_initial|done|done|exact Hparse]. }
  assert (Hdim : width s1 = Z.of_nat w ∧ height s1 = Z.of_nat h).
  { destruct (parse_rows_inv w h level 0
                (mkGameState pid 0 0 None None false (Z.of_nat w) (Z.of_nat h)
                   (replicate h (replicate w EMPTY)) (0, 0) ∅ ∅ ((0, 0), ∅))
                0 0 0) as (s1' & Hp' & _ & Hsc).
    - unfold parse_inv. cbn [grid crate_positions targets player_pos].
      rewrite length_replicate. split; [done|]. split.
      { apply Forall_replicate. apply length_replicate. }
      split; [intros p Hp; by apply not_elem_of_empty in Hp|].
      split; [intros p Hp; by apply not_elem_of_empty in Hp|].
      split; [apply size_empty|]. split; [apply size_empty|done].
    - done.
    - done.
    - unfold _parse_level in Hparse. rewrite Hparse in Hp'.
      injection Hp' as <-. destruct Hsc as (_&_&_&_&_&_&Hw&Hh&_). done. }
  destruct Hdim as [Hw Hh]. exists w. subst s. simpl.
  split; [done|]. split; [done|]. split; [exact Hinv|].
  intros [px py] ch. unfold L, level_char. simpl.
  case_bool_decide as Hp; [|done].
  destruct (level !! Z.to_nat py) as [row|] eqn:Hrow; [|done]. simpl.
  intros Hch. apply lookup_lt_Some in Hch.
  rewrite length_list_ascii_of_string in Hch.
  rewrite Forall_forall in Hmax.
  pose proof (Hmax row (list_elem_of_lookup_2 _ _ _ Hrow)) as Hle.
  apply lookup_lt_Some in Hrow. unfold h in *. simpl in *. lia.
Qed.

(** X16. The state the constructor returns is the board the level
    definition describes. Inside the grid a cell holds a wall where the
    definition has [#], a target where it has [.], [*] or [+], and empty
    floor everywhere else, the padding of rows shorter than the widest
    included. The targets are the cells with [.], [*] or [+], the crates
    those with [$] or [*]. The player stands on the last [@] or [+] in
    reading order, and at [(0, 0)] when there is none. *)
Theorem GameState_init_board (level : list string) (pid : string)
    (s : GameState) :
  GameState_init level pid = inr s →
  let L := level_char level in
  (∀ p, _in_bounds s p = true →
        grid_get (grid s) p.1 p.2 = Some (terrain (L p))) ∧
  (∀ p, p ∈ targets s ↔ ∃ ch, L p = Some ch ∧ is_target_char ch = true) ∧
  (∀ p, p ∈ crate_positions s ↔
        ∃ ch, L p = Some ch ∧ is_crate_char ch = true) ∧
  ((player_pos s = (0, 0) ∧
    ∀ p ch, L p = Some ch → is_player_char ch = false)
   ∨
   ((∃ ch, L (player_pos s) = Some ch ∧ is_player_char ch = true) ∧
    ∀ p ch, L p = Some ch → is_player_char ch = true →
            reading_le p (player_pos s))).
Proof.
  intros Hinit L.
  destruct (GameState_init_board_inv level pid s Hinit)
    as (w & Hw & Hh & (G1 & _ & T & C & P) & Hin).
  fold L in G1, T, C, P, Hin. set (h := length level) in *.
  assert (Hall : ∀ p ch, L p = Some ch → parsed_before p 0 h).
  { intros p ch Hch. apply Hin in Hch. unfold parsed_before. lia. }
  split; [|split; [|split]].
  - intros [px py] Hb. apply in_bounds_iff in Hb. simpl in *.
    rewrite Hw, Hh in Hb. apply (G1 (px, py)); simpl; [lia|lia|].
    unfold parsed_before. simpl. lia.
  - intros p. rewrite T. split; [by intros [_ ?]|].
    intros (ch & Hch & Ht). split; [by eapply Hall|eauto].
  - intros p. rewrite C. split; [by intros [_ ?]|].
    intros (ch & Hch & Ht). split; [by eapply Hall|eauto].
  - destruct P as [[P0 Pn]|(Pb & Pch & Pl)].
    + left. split; [done|]. intros p ch Hch. eapply Pn; [|done].
      by eapply Hall.
    + right. split; [done|]. intros p ch Hch Hp. eapply Pl; [|done|done].
      by eapply Hall.
Qed.

Lemma GameState_init_board_witness :
  let L := level_char level_corridor in
  let s := state_corridor in
  (∀ p, _in_bounds s p = true →
        grid_get (grid s) p.1 p.2 = Some (terrain (L p))) ∧
  (∀ p, p ∈ targets s ↔ ∃ ch, L p = Some ch ∧ is_target_char ch = true) ∧
  (∀ p, p ∈ crate_positions s ↔
        ∃ ch, L p = Some ch ∧ is_crate_char ch = true) ∧
  ((player_pos s = (0, 0) ∧
    ∀ p ch, L p = Some ch → is_player_char ch = false)
   ∨
   ((∃ ch, L (player_pos s) = Some ch ∧ is_player_char ch = true) ∧
    ∀ p ch, L p = Some ch → is_player_char ch = true →
            reading_le p (player_pos s))).
Proof.
  apply (GameState_init_board level_corridor "ai" state_corridor).
  vm_compute. reflexivity.
Defined.

(** ** The player *)

Lemma step_pos_ne (p : Pos) (d : Direction) : step_pos p d ≠ p.
Proof.
  destruct p as [x y]. unfold step_pos.
  destruct d; simpl; intros [= H1 H2]; lia.
Qed.

(** A move leaves the player inside the grid and off the crates. *)
Lemma move_player_clear (now : Z) (d : Direction) (s : GameState) :
  _in_bounds s (player_pos s) = true ∧ (player_pos s ∉ crate_positions s) →
  let s' := (move now d s).2 in
  _in_bounds s' (player_pos s') = true ∧ (player_pos s' ∉ crate_positions s').
Proof.
  intros [Hb Hc] s'.
  destruct (move_static now d s) as (_ & Hw & Hh & _).
  assert (Hin : ∀ p, _in_bounds s' p = _in_bounds s p).
  { intros p. by apply in_bounds_ext. }
  rewrite Hin. fold s' in Hw, Hh.
  destruct (move_cases now d s) as [(_ & Hp & Hcr & _)
    | [(_ & Hb' & _ & Hn & Hp & Hcr & _)
      | (_ & Hb' & _ & _ & _ & _ & Hn & Hp & Hcr & _)]];
    fold s' in Hp, Hcr; rewrite Hp, Hcr; split; try done.
  intros [[_ Hne]%elem_of_difference|Heq%elem_of_singleton]%elem_of_union.
  - apply Hne. by apply elem_of_singleton.
  - symmetry in Heq. by apply step_pos_ne in Heq.
Qed.

(** X17. In a game loaded from a level that has a player symbol, the
    player is inside the grid and never on a cell that holds a crate,
    whatever moves have been made. *)
Theorem player_invariants (level : list string) (pid : string)
    (s0 s : GameState) :
  GameState_init level pid = inr s0 → reachable s0 s →
  (∃ p ch, level_char level p = Some ch ∧ is_player_char ch = true) →
  _in_bounds s (player_pos s) = true ∧ (player_pos s ∉ crate_positions s).
Proof.
  intros Hinit Hr (p0 & ch0 & Hch0 & Hp0).
  induction Hr as [|now d s Hr IH]; [|by apply move_player_clear].
  destruct (GameState_init_board_inv level pid s0 Hinit)
    as (w & Hw & Hh & (_ & _ & _ & C & P) & Hin).
  destruct P as [[_ Pn]|(_ & (ch & Hch & Hp) & _)].
  { rewrite (Pn p0 ch0) in Hp0; [done| |done].
    apply Hin in Hch0. unfold parsed_before. lia. }
  split.
  - apply in_bounds_iff. rewrite Hw, Hh. by eapply Hin.
  - rewrite C. intros [_ (ch' & Hch' & Hc)].
    assert (ch' = ch) as -> by congruence.
    unfold is_player_char, is_crate_char in *.
    repeat case_bool_decide; subst; done.
Qed.

Lemma player_invariants_witness :
  _in_bounds state_corridor (player_pos state_corridor) = true ∧
  (player_pos state_corridor ∉ crate_positions state_corridor).
Proof.
  apply (player_invariants level_corridor "ai" state_corridor state_corridor).
  - vm_compute. reflexivity.
  - apply reachable_refl.
  - exists (1, 1), "@"%char. split; reflexivity.
Defined.

(** ** The time budget of the searches *)

Section Budget.

Variable elapsed : Z → Z.
Variable now : Z.

Lemma within_budget_S (max_time : Z) (n : nat) :
  within_budget elapsed max_time n → ¬ max_time < elapsed (Z.of_nat n) →
  within_budget elapsed max_time (S n).
Proof.
  intros Hn Hle k Hk. destruct (decide (k = n)) as [->|Hne]; [lia|].
  apply Hn. lia.
Qed.

Lemma astar_loop_budget (max_time max_nodes : Z) (fuel : nat) :
  ∀ (v : AStarVars) (r : SearchResult),
  a_nodes_explored v = Z.of_nat (length (a_expanded v)) →
  within_budget elapsed max_time (length (a_expanded v)) →
  astar_loop elapsed now max_time max_nodes fuel v = Returned r →
  on_budget elapsed max_time r.
Proof.
  induction fuel as [|fuel IH]; intros v r Hcnt Hw Hr; [done|].
  simpl in Hr. destruct (a_pq v) as [|e0 q].
  { unfold astar_after_loop in Hr. injection Hr as <-. by split. }
  rewrite Hcnt in Hr. case_bool_decide as Ht.
  { injection Hr as <-. by split. }
  pose proof (within_budget_S _ _ Hw Ht) as Hw'.
  unfold pq_get in Hr. destruct (pq_extract e0 q) as [entry pq].
  destruct (_heuristic (e_state entry)) as [h|]; [|done].
  destruct (is_solved (e_state entry)).
  { injection Hr as <-. by split. }
  destruct (for_each _ _ _) as [[[pq' visited'] counter']|]; [|done].
  case_bool_decide.
  - match type of Hr with context [match ?b with [] => _ | _ :: _ => _ end] =>
      destruct b end;
      [unfold astar_after_loop in Hr|]; injection Hr as <-; by split.
  - eapply IH; [| |exact Hr]; simpl; [lia|done].
Qed.

Lemma bfs_loop_budget (max_time max_nodes : Z) (fuel : nat) :
  ∀ (v : BFSVars) (r : SearchResult),
  b_nodes_explored v = Z.of_nat (length (b_expanded v)) →
  within_budget elapsed max_time (length (b_expanded v)) →
  bfs_loop elapsed now max_time max_nodes fuel v = Returned r →
  on_budget elapsed max_time r.
Proof.
  induction fuel as [|fuel IH]; intros v r Hcnt Hw Hr; [done|].
  simpl in Hr. destruct (b_queue v) as [|[cur path] queue].
  { injection Hr as <-. by split. }
  rewrite Hcnt in Hr. case_bool_decide as Ht.
  { injection Hr as <-. by split. }
  pose proof (within_budget_S _ _ Hw Ht) as Hw'.
  destruct (is_solved cur).
  { injection Hr as <-. by split. }
  destruct (foldl _ _ _) as [queue' visited'].
  case_bool_decide.
  - match type of Hr with context [match ?b with [] => _ | _ :: _ => _ end] =>
      destruct b end; injection Hr as <-; by split.
  - eapply IH; [| |exact Hr]; simpl; [lia|done].
Qed.

Lemma dfs_loop_budget (max_time max_nodes max_depth : Z) (fuel : nat) :
  ∀ (v : DFSVars) (r : SearchResult),
  d_nodes_explored v = Z.of_nat (length (d_expanded v)) →
  within_budget elapsed max_time (length (d_expanded v)) →
  dfs_loop elapsed now max_time max_nodes max_depth fuel v = Returned r →
  on_budget elapsed max_time r.
Proof.
  induction fuel as [|fuel IH]; intros v r Hcnt Hw Hr; [done|].
  simpl in Hr. destruct (d_stack v) as [|[[cur path] depth] stack].
  { injection Hr as <-. by split. }
  rewrite Hcnt in Hr. case_bool_decide as Ht.
  { injection Hr as <-. by split. }
  pose proof (within_budget_S _ _ Hw Ht) as Hw'.
  destruct (is_solved cur).
  { injection Hr as <-. by split. }
  case_bool_decide.
  { eapply IH; [| |exact Hr]; simpl; [lia|done]. }
  destruct (foldl _ _ _) as [stack' visited'].
  case_bool_decide.
  - match type of Hr with context [match ?b with [] => _ | _ :: _ => _ end] =>
      destruct b end; injection Hr as <-; by split.
  - eapply IH; [| |exact Hr]; simpl; [lia|done].
Qed.

(** X18. The three searches keep to their time budget in this sense: the
    clock is read before each state is taken from the frontier, and a
    state is taken only if the reading is within [max_time]; a call that
    ends on a timeout has read a time beyond [max_time] just before. So
    once the clock has passed the budget, not one more state is
    expanded. *)
Theorem search_time_budget (alg : SearchAlgorithm) (s : GameState)
    (max_time : Z) (difficulty : string) :
  state_ok s →
  ∃ r, search_algorithm_search elapsed now alg s max_time difficulty
       = Returned r ∧
       (∀ k : nat, (k < length (sr_expanded r))%nat →
                   elapsed (Z.of_nat k) ≤ max_time) ∧
       (sr_exit r = ExitTimeout →
        max_time < elapsed (Z.of_nat (length (sr_expanded r)))).
Proof.
  intros Hok.
  destruct (search_algorithm_search_total elapsed now alg s max_time
              difficulty Hok) as [r Hr].
  exists r. split; [exact Hr|].
  assert (H0 : within_budget elapsed max_time 0) by (intros k Hk; lia).
  destruct alg; simpl in Hr.
  - unfold AStarSearch_search, astar_search_with in Hr.
    destruct (_heuristic s) as [h|]; [|done].
    by eapply astar_loop_budget; [| |exact Hr].
  - unfold BFSSearch_search, bfs_search_with in Hr.
    by eapply bfs_loop_budget; [| |exact Hr].
  - unfold DFSSearch_search, dfs_search_with in Hr.
    by eapply dfs_loop_budget; [| |exact Hr].
Qed.

End Budget.

Lemma search_time_budget_witness :
  ∃ r, search_algorithm_search (λ n, n) 0 BFSSearch state_corridor 1 "easy"
       = Returned r ∧
       (∀ k : nat, (k < length (sr_expanded r))%nat → Z.of_nat k ≤ 1) ∧
       (sr_exit r = ExitTimeout → 1 < Z.of_nat (length (sr_expanded r))).
Proof.
  apply (search_time_budget (λ n, n) 0 BFSSearch state_corridor 1 "easy").
  apply (GameState_init_ok level_corridor "ai"). vm_compute. reflexivity.
Defined.

(** ** The controller between calls *)

Lemma ascii_lower_idem (c : ascii) : ascii_lower (ascii_lower c) = ascii_lower c.
Proof.
  destruct c as [[] [] [] [] [] [] [] []]; vm_compute; reflexivity.
Qed.

Lemma str_lower_idem (s : string) : str_lower (str_lower s) = str_lower s.
Proof.
  induction s as [|c r IH]; [done|]. simpl. by rewrite ascii_lower_idem, IH.
Qed.

(** X19. Whatever calls a controller has been through, its algorithm name
    is one of the three and names the search it holds, its difficulty is in
    lower case, the cursor is inside the stored plan or just past its end
    (so the indexing in [get_next_move] is never out of range), fallback
    mode comes with an empty plan, and [reset] gives back the controller
    that the constructor builds from its name and difficulty. *)
Theorem controller_invariants (c : AIController) :
  controller_state c →
  ((algorithm_name c = "astar" ∧ search_algorithm c = AStarSearch) ∨
   (algorithm_name c = "bfs" ∧ search_algorithm c = BFSSearch) ∨
   (algorithm_name c = "dfs" ∧ search_algorithm c = DFSSearch))%string ∧
  str_lower (difficulty c) = difficulty c ∧
  0 ≤ current_step c ≤ Z.of_nat (length (solution_path c)) ∧
  (using_fallback c = true → solution_path c = []) ∧
  reset c = AIController_init (algorithm_name c) (difficulty c).
Proof.
  intros Hc.
  assert (H : ((algorithm_name c = "astar" ∧ search_algorithm c = AStarSearch) ∨
               (algorithm_name c = "bfs" ∧ search_algorithm c = BFSSearch) ∨
               (algorithm_name c = "dfs" ∧ search_algorithm c = DFSSearch))%string ∧
              str_lower (difficulty c) = difficulty c ∧
              0 ≤ current_step c ≤ Z.of_nat (length (solution_path c)) ∧
              (using_fallback c = true → solution_path c = [])).
  { induction Hc as [alg diff | elapsed now c c' s b Hc IH Hcomp
                     | order now c c' s m Hc IH Hnext | c Hc IH].
    - unfold AIController_init.
      repeat case_bool_decide; simpl; rewrite str_lower_idem;
        (split; [auto|]); repeat split; done.
    - destruct IH as (Ha & Hd & Hk & Hf).
      unfold compute_solution in Hcomp.
      destruct (is_thinking c);
        [injection Hcomp as <- <-; repeat split; auto; try done; try lia; try (intros; congruence)|].
      destruct (search_algorithm_search _ _ _ _ _ _) as [r| |];
        try discriminate.
      destruct (sr_value r) as [[|m p]|]; injection Hcomp as <- <-; simpl;
        repeat split; auto; try done; try lia; try (intros; congruence).
    - destruct IH as (Ha & Hd & Hk & Hf).
      unfold get_next_move in Hnext.
      destruct (using_fallback c) eqn:Ef;
        [injection Hnext as <- <-; repeat split; auto; try done; try lia; try (intros; congruence)|].
      case_bool_decide.
      + destruct (py_index _ _); [|discriminate].
        injection Hnext as <- <-. simpl. repeat split; auto; try done; try lia; try (intros; congruence).
      + injection Hnext as <- <-. repeat split; auto; try done; try lia; try (intros; congruence).
    - destruct IH as (Ha & Hd & Hk & Hf). simpl.
      repeat split; auto; done. }
  destruct H as (Ha & Hd & Hk & Hf). repeat (split; [done|]).
  unfold reset, AIController_init. rewrite Hd.
  destruct Ha as [[-> ->]|[[-> ->]|[-> ->]]]; reflexivity.
Qed.

Lemma controller_invariants_witness :
  reset (AIController_init "BFS" "Hard")
  = AIController_init (algorithm_name (AIController_init "BFS" "Hard"))
      (difficulty (AIController_init "BFS" "Hard")).
Proof.
  apply (controller_invariants (AIController_init "BFS" "Hard")).
  apply controller_new.
Defined.
